(** * hdfs_native.cli: the command orchestration layer

    A shallow embedding of [python/hdfs_native/cli.py] and the properties of
    its endpoint resolver, argument validation, transfer engine and move
    orchestrator.

    Python [str] values are modelled as [string] (the UTF-8 bytes of the
    text): the separators and digits the code looks for are ASCII, and an
    ASCII byte never occurs inside a multi-byte sequence. *)

From stdpp Require Import base option list strings gmap pretty.
From Stdlib Require Import ZArith QArith Lia Ascii String.

Local Open Scope Z_scope.
Local Open Scope string_scope.
Local Open Scope list_scope.

(** ** Python string helpers *)

Module PyStr.

(** Truth value of a [str]: the empty string is false. *)
Definition truthy (s : string) : bool :=
  match s with
  | EmptyString => false
  | String _ _ => true
  end.

(** [s.split(sep)] for a one-character separator: the pieces between the
    occurrences of [sep], always at least one piece. *)
Fixpoint split (sep : ascii) (s : string) : list string :=
  match s with
  | EmptyString => [EmptyString]
  | String c t =>
      if Ascii.eqb c sep then EmptyString :: split sep t
      else match split sep t with
           | [] => [String c EmptyString]
           | piece :: rest => String c piece :: rest
           end
  end.

(** Number of occurrences of a character, [s.count(c)]. *)
Fixpoint count (c : ascii) (s : string) : nat :=
  match s with
  | EmptyString => 0%nat
  | String d t => ((if Ascii.eqb d c then 1 else 0) + count c t)%nat
  end.

(** [s.rfind(c)]: [rsplit1 c s = Some (before, after)] cuts [s] at the last
    occurrence of [c]; [None] when [c] does not occur. *)
Fixpoint rsplit1 (c : ascii) (s : string) : option (string * string) :=
  match s with
  | EmptyString => None
  | String d t =>
      match rsplit1 c t with
      | Some (before, after) => Some (String d before, after)
      | None => if Ascii.eqb d c then Some (EmptyString, t) else None
      end
  end.

Fixpoint last_char (s : string) : option ascii :=
  match s with
  | EmptyString => None
  | String c EmptyString => Some c
  | String _ t => last_char t
  end.

(** [f"{x}"] of an [Optional[str]]. *)
Definition fmt_opt (o : option string) : string :=
  match o with
  | Some s => s
  | None => "None"
  end.

(** [str(n)] of an [int]. *)
Definition of_int (n : Z) : string := pretty n.

End PyStr.

(** ** posixpath *)

Module PosixPath.

(** [os.path.basename(p)]: what follows the last slash. *)
Definition basename (p : string) : string :=
  match PyStr.rsplit1 "/" p with
  | Some (_, after) => after
  | None => p
  end.

(** [os.path.join(a, b)] with two arguments. *)
Definition join (a b : string) : string :=
  match b with
  | String "/" _ => b
  | _ =>
      match PyStr.last_char a with
      | None => b
      | Some "/"%char => a +:+ b
      | Some _ => a +:+ "/" +:+ b
      end
  end.

End PosixPath.

(** ** The fragment of [re] that [chmod] uses *)

Module Re.

Inductive regex : Type :=
| Lit (c : ascii)                (* a literal character *)
| Range (lo hi : ascii)          (* [lo-hi] *)
| Opt (r : regex)                (* r?  (greedy) *)
| Rep (n : nat) (r : regex)      (* r{n} *)
| Cat (r1 r2 : regex).           (* r1 r2 *)

Definition in_range (lo hi c : ascii) : bool :=
  (N_of_ascii lo <=? N_of_ascii c)%N && (N_of_ascii c <=? N_of_ascii hi)%N.

Fixpoint iter_match (step : string -> list string) (n : nat) (s : string)
  : list string :=
  match n with
  | O => [s]
  | S k => flat_map (iter_match step k) (step s)
  end.

(** Backtracking matcher: the remainders of [s] after each way of matching
    a prefix of it against [r], in the order the engine tries them. *)
Fixpoint run (r : regex) (s : string) : list string :=
  match r with
  | Lit c =>
      match s with
      | String d t => if Ascii.eqb d c then [t] else []
      | EmptyString => []
      end
  | Range lo hi =>
      match s with
      | String d t => if in_range lo hi d then [t] else []
      | EmptyString => []
      end
  | Opt r1 => run r1 s ++ [s]
  | Rep n r1 => iter_match (run r1) n s
  | Cat r1 r2 => flat_map (run r2) (run r1 s)
  end.

(** [re.fullmatch(r, s)] is not [None]. *)
Definition fullmatch (r : regex) (s : string) : bool :=
  existsb (fun rest => negb (PyStr.truthy rest)) (run r s).

End Re.

(** The pattern [r"1?[0-7]{3}"]. *)
Definition octalmode_re : Re.regex :=
  Re.Cat (Re.Opt (Re.Lit "1")) (Re.Rep 3 (Re.Range "0" "7")).

(** ** [int(s, base=8)] on digit strings

    [chmod] calls [int] only on a string the pattern accepted, so only
    strings of octal digits reach it; signs, blanks, underscores and the
    [0o] prefix, which Python's [int] also reads, are left out ([None] is
    the [ValueError]). *)

Definition octal_digit (c : ascii) : option Z :=
  if Re.in_range "0" "7" c then Some (Z.of_N (N_of_ascii c) - 48) else None.

Fixpoint int_base8_from (acc : Z) (s : string) : option Z :=
  match s with
  | EmptyString => Some acc
  | String c t =>
      match octal_digit c with
      | Some d => int_base8_from (8 * acc + d) t
      | None => None
      end
  end.

Definition int_base8 (s : string) : option Z :=
  match s with
  | EmptyString => None
  | _ => int_base8_from 0 s
  end.

(** ** Values exchanged with the collaborators *)

(** A [bytes] value. *)
Definition bytes : Type := list Byte.byte.

(** Identity of a [hdfs_native.Client] object: two clients are the same
    instance exactly when their identities are equal. *)
Definition Client : Type := nat.

(** [FileStatus], as the Filesystem Client returns it. *)
Record FileStatus : Type := mkFileStatus {
  fs_path : string;
  fs_isdir : bool;
  fs_permission : Z;
  fs_owner : string;
  fs_group : string;
  fs_access_time : Z;          (* milliseconds since the epoch *)
  fs_modification_time : Z     (* milliseconds since the epoch *)
}.

(** What [urlparse] returns, through the attributes the code reads.
    [hostname] is [None] or a string; reading [port] either raises
    [ValueError] ([inl], with its message) or gives [None] or an integer. *)
Record ParseResult : Type := mkParseResult {
  scheme : string;
  hostname : option string;
  port : string + option Z;
  path : string
}.

(** The exceptions that travel through the code. *)
Inductive Exn : Type :=
| ValueError (msg : string)
| FileExistsError (msg : string)
| FileNotFoundError (msg : string)
| IndexError (msg : string)
| OSError (msg : string)
| OverflowError (msg : string).

(** A remote file opened for reading ([len(f)] is its [file_length]), a
    remote file opened for writing, a local file object. *)
Record FileReader : Type := mkFileReader { reader_id : nat; file_length : Z }.
Record FileWriter : Type := mkFileWriter { writer_id : nat }.
Record LocalFile : Type := mkLocalFile { local_fd : nat }.

(** A stream drained to its end: the chunks it yielded, then either its
    normal end or the exception that interrupted it. *)
Definition Stream : Type := (list bytes * option Exn)%type.

(** ** Python floats

    A finite [float] is a binary64 number, [m * 2^e] with a significand
    [m] of at most 53 bits; it is modelled as the rational that it denotes,
    in lowest terms.  The true division of two [int]s gives the float
    nearest to the exact quotient, the one with the even significand when
    the quotient is halfway between two floats, and raises [OverflowError]
    when that is beyond the largest float. *)

(** The integer nearest to [n / d], the even one of the two when [n / d]
    is halfway between two integers; [0 <= n] and [0 < d]. *)
Definition round_half_even (n d : Z) : Z :=
  let q := n / d in
  let r := n mod d in
  if (2 * r <? d)%Z then q
  else if (d <? 2 * r)%Z then q + 1
  else if Z.even q then q else q + 1.

(** The exponent [e] of the spacing of the floats around [n / d]:
    [2^52 <= (n / d) / 2^e < 2^53]; [0 < n] and [0 < d]. *)
Definition float_exponent (n d : Z) : Z :=
  let l := Z.log2 n - Z.log2 d in
  (if (n * 2 ^ Z.max 0 (- l) <? d * 2 ^ Z.max 0 l)%Z then l - 1 else l) - 52.

(** The float nearest to [n / d], for [0 < n] and [0 < d] with [n / d]
    above the subnormal range; [None] when it is beyond the largest
    float. *)
Definition float_of_quotient (n d : Z) : option Q :=
  let e := float_exponent n d in
  let m := round_half_even (n * 2 ^ Z.max 0 (- e)) (d * 2 ^ Z.max 0 e) in
  if (2 ^ 1024 <=? m * 2 ^ Z.max 0 e)%Z then None
  else Some (Qred (Qmake (m * 2 ^ Z.max 0 e) (Z.to_pos (2 ^ Z.max 0 (- e))))).

(** [ms / 1000] on an [int]: the quotient of an integer by 1000 is zero or
    at least [1/1000] in magnitude, far above the subnormal range. *)
Definition ms_to_s (ms : Z) : Exn + Q :=
  if (ms =? 0)%Z then inr 0%Q
  else
    match float_of_quotient (Z.abs ms) 1000 with
    | Some x => inr (if (ms <? 0)%Z then Qopp x else x)
    | None =>
        inl (OverflowError "integer division result too large for a float")
    end.

(** The calls the code makes on its collaborators (the Filesystem Client and
    the local operating system), indexed by the type of what they return. *)
Inductive Op : Type -> Type :=
| ClientInit (c : Client) (connection_url : option string) : Op unit
| ClientRead (c : Client) (path : string) : Op FileReader
| ReadRangeStream (f : FileReader) (offset len : Z) : Op Stream
| ReaderClose (f : FileReader) : Op unit
| ClientCreate (c : Client) (path : string) : Op FileWriter
| WriterWrite (f : FileWriter) (data : bytes) : Op unit
| WriterClose (f : FileWriter) : Op unit
| ClientGetFileInfo (c : Client) (path : string) : Op FileStatus
| ClientListStatus (c : Client) (path : string) (recursive : bool)
    : Op (list FileStatus)
| ClientSetPermission (c : Client) (path : string) (permission : Z) : Op unit
| ClientSetOwner (c : Client) (path : string) (owner group : option string)
    : Op unit
| ClientRename (c : Client) (src dst : string) : Op unit
| OpenRb (path : string) : Op LocalFile
| OpenWb (path : string) : Op LocalFile
| LocalReadChunks (f : LocalFile) : Op Stream
| LocalWrite (f : LocalFile) (data : bytes) : Op unit
| LocalClose (f : LocalFile) : Op unit
| OsUtime (path : string) (atime mtime : Q) : Op unit
| OsChmod (path : string) (mode : Z) : Op unit.

(** One entry of the history of a run: a call with what it returned or
    raised, or an [os.path.exists] test with its answer. *)
Inductive Event : Type :=
| EvCall {R : Type} (op : Op R) (r : Exn + R)
| EvExists (path : string) (b : bool).

(** Parsed command lines ([argparse.Namespace]). *)
Record ChmodArgs : Type := mkChmodArgs {
  chmod_recursive : bool;
  chmod_octalmode : string;
  chmod_path : list string
}.

Record ChownArgs : Type := mkChownArgs {
  chown_recursive : bool;
  chown_owner : string;
  chown_path : list string
}.

Record MvArgs : Type := mkMvArgs {
  mv_src : list string;
  mv_dst : string
}.

(** ** The collaborators

    What the code reaches outside itself: the state [World] of everything
    outside the process (the remote file systems and the local one), the
    answer of each call as a function of it, the [os.path.exists] test,
    which changes nothing, and [urllib.parse.urlparse] ([inl] is the message
    of its [ValueError]). *)

Class Collaborators : Type := {
  World : Type;
  handler : forall R : Type, Op R -> World -> World * (Exn + R);
  os_path_exists : World -> string -> bool;
  urlparse : string -> string + ParseResult
}.

(** ** The program *)

Section Cli.

Context {env : Collaborators}.

(** State of a run: the outside world, the history of calls, the table of
    [functools.cache] on [_get_client] (keyed by the call's arguments:
    [None] is the call without argument) and the next fresh object
    identity. *)
Record State : Type := mkState {
  world : World;
  log : list Event;
  cache : gmap (option string) Client;
  next_client : Client
}.

(** Computations that read and update the state and return or raise. *)
Definition M (A : Type) : Type := State -> State * (Exn + A).

Definition ret {A : Type} (a : A) : M A := fun st => (st, inr a).

Definition raise {A : Type} (e : Exn) : M A := fun st => (st, inl e).

Definition bind {A B : Type} (m : M A) (k : A -> M B) : M B :=
  fun st =>
    match m st with
    | (st', inl e) => (st', inl e)
    | (st', inr a) => k a st'
    end.

Notation "x <- m ;; k" := (bind m (fun x => k))
  (at level 100, m at level 99, k at level 200, right associativity).
Notation "m ;;; k" := (bind m (fun _ => k))
  (at level 100, k at level 200, right associativity).

(** An expression that computes a value or raises, and touches nothing. *)
Definition of_result {A : Type} (r : Exn + A) : M A := fun st => (st, r).

(** [try: m] with the outcome handed to the code that follows. *)
Definition try_ {A : Type} (m : M A) : M (Exn + A) :=
  fun st => let (st', r) := m st in (st', inr r).

(** Performing a call: the collaborator answers and the history grows. *)
Definition call {R : Type} (op : Op R) : M R :=
  fun st =>
    let (w', r) := handler R op (world st) in
    (mkState w' (log st ++ [EvCall op r]) (cache st) (next_client st), r).

(** [os.path.exists(p)]: a test that changes nothing and never raises. *)
Definition path_exists (p : string) : M bool :=
  fun st =>
    let b := os_path_exists (world st) p in
    (mkState (world st) (log st ++ [EvExists p b]) (cache st)
       (next_client st), inr b).

(** [with enter as h: body]: [exit] runs when [body] returns and when it
    raises; an exception of [exit] replaces the one of [body]. *)
Definition with_ {H A : Type} (enter : M H) (exit : H -> M unit)
    (body : H -> M A) : M A :=
  h <- enter ;;
  r <- try_ (body h) ;;
  exit h ;;;
  match r with
  | inl e => raise e
  | inr a => ret a
  end.

(** [for x in l: body]. *)
Fixpoint for_each {A : Type} (l : list A) (body : A -> M unit) : M unit :=
  match l with
  | [] => ret tt
  | x :: l' => body x ;;; for_each l' body
  end.

(** [[y for x in l for y in f(x)]]. *)
Fixpoint concat_map {A B : Type} (l : list A) (f : A -> M (list B))
  : M (list B) :=
  match l with
  | [] => ret []
  | x :: l' => ys <- f x ;; rest <- concat_map l' f ;; ret (ys ++ rest)
  end.

(** Draining a stream in a [for] loop: the body runs on each chunk, then
    the stream's exception, if it ended with one, is raised. *)
Definition for_stream (s : Stream) (body : bytes -> M unit) : M unit :=
  for_each (fst s) body ;;;
  match snd s with
  | Some e => raise e
  | None => ret tt
  end.

(** [l[i]]. *)
Definition index (l : list string) (i : nat) : M string :=
  match l !! i with
  | Some x => ret x
  | None => raise (IndexError "list index out of range")
  end.

(** [urlparse(url)] and the [port] attribute, which may raise. *)
Definition py_urlparse (url : string) : M ParseResult :=
  match urlparse url with
  | inl msg => raise (ValueError msg)
  | inr parsed => ret parsed
  end.

Definition get_port (parsed : ParseResult) : M (option Z) :=
  match port parsed with
  | inl msg => raise (ValueError msg)
  | inr p => ret p
  end.

Definition hostname_truthy (h : option string) : bool :=
  match h with
  | Some s => PyStr.truthy s
  | None => false
  end.

Definition port_truthy (p : option Z) : bool :=
  match p with
  | Some n => negb (n =? 0)%Z
  | None => false
  end.

Definition fmt_port (p : option Z) : string :=
  match p with
  | Some n => PyStr.of_int n
  | None => "None"
  end.

(** [Client(connection_url)]: a new object, then its initialiser. *)
Definition Client_new (connection_url : option string) : M Client :=
  fun st =>
    let c := next_client st in
    (call (ClientInit c connection_url) ;;; ret c)
      (mkState (world st) (log st) (cache st) (S c)).

(** [@functools.cache def _get_client(connection_url=None)]: a result is
    stored under the arguments of the call when the body returns. *)
Definition _get_client (connection_url : option string) : M Client :=
  fun st =>
    match cache st !! connection_url with
    | Some c => (st, inr c)
    | None =>
        (c <- Client_new connection_url ;;
         fun st' =>
           (mkState (world st') (log st')
              (<[connection_url := c]> (cache st')) (next_client st'),
            inr c)) st
    end.

(** The connection string that [_client_for_url] builds when the URL has a
    scheme; [p] is the value of [parsed.port]. *)
Definition connection_url (parsed : ParseResult) (p : option Z) : string :=
  let connection_url :=
    scheme parsed +:+ "://" +:+ PyStr.fmt_opt (hostname parsed) in
  if port_truthy p then connection_url +:+ ":" +:+ fmt_port p
  else connection_url.

Definition _client_for_url (url : string) : M Client :=
  parsed <- py_urlparse url ;;
  if PyStr.truthy (scheme parsed) then
    p <- get_port parsed ;;
    _get_client (Some (connection_url parsed p))
  else
    host_or_port <-
      (if hostname_truthy (hostname parsed) then ret true
       else p <- get_port parsed ;; ret (port_truthy p)) ;;
    if host_or_port : bool then
      raise (ValueError ("Cannot provide host or port without scheme: "
                           +:+ PyStr.fmt_opt (hostname parsed)))
    else
      _get_client None.

(** The two identities of the message of [_verify_nameservices_match]. *)
Definition nameservice (parsed : ParseResult) : string :=
  scheme parsed +:+ "://" +:+ PyStr.fmt_opt (hostname parsed).

Definition _verify_nameservices_match (url : string) (urls : list string)
  : M unit :=
  first <- py_urlparse url ;;
  for_each urls (fun url =>
    parsed <- py_urlparse url ;;
    if decide (scheme first <> scheme parsed
               \/ hostname first <> hostname parsed) then
      raise (ValueError ("Protocol and host must match: "
                           +:+ nameservice first +:+ " != "
                           +:+ nameservice parsed))
    else ret tt).

Definition _path_for_url (url : string) : M string :=
  parsed <- py_urlparse url ;;
  ret (path parsed).

Definition _glob_path (client : Client) (glob : string) : list string :=
  [glob].

(** The three steps of [_download_file]: the test of the destination,
    the copy inside the two [with] blocks, the attributes. *)
Definition download_guard (local_dst : string) (force : bool) : M unit :=
  blocked <- (if negb force then path_exists local_dst else ret false) ;;
  if blocked : bool then
    raise (FileExistsError
             (local_dst +:+ " already exists, use --force to overwrite"))
  else ret tt.

Definition download_copy (client : Client) (remote_src local_dst : string)
  : M unit :=
  with_ (call (ClientRead client remote_src))
        (fun remote_file => call (ReaderClose remote_file))
        (fun remote_file =>
     with_ (call (OpenWb local_dst))
           (fun local_file => call (LocalClose local_file))
           (fun local_file =>
        chunks <- call (ReadRangeStream remote_file 0
                          (file_length remote_file)) ;;
        for_stream chunks (fun chunk =>
          call (LocalWrite local_file chunk)))).

Definition download_preserve (client : Client)
    (remote_src local_dst : string) : M unit :=
  status <- call (ClientGetFileInfo client remote_src) ;;
  atime <- of_result (ms_to_s (fs_access_time status)) ;;
  mtime <- of_result (ms_to_s (fs_modification_time status)) ;;
  call (OsUtime local_dst atime mtime) ;;;
  call (OsChmod local_dst (fs_permission status)).

Definition _download_file (client : Client) (remote_src local_dst : string)
    (force preserve : bool) : M unit :=
  download_guard local_dst force ;;;
  download_copy client remote_src local_dst ;;;
  if preserve then download_preserve client remote_src local_dst
  else ret tt.

(** [shutil.copyfileobj(fsrc, fdst)]: the chunks read from [fsrc] up to
    its end are written to [fdst] in order. *)
Definition copyfileobj (fsrc : LocalFile) (fdst : FileWriter) : M unit :=
  chunks <- call (LocalReadChunks fsrc) ;;
  for_stream chunks (fun buf => call (WriterWrite fdst buf)).

Definition _upload_file (client : Client) (local_src remote_dst : string)
    (force preserve : bool) : M unit :=
  with_ (call (OpenRb local_src))
        (fun local_file => call (LocalClose local_file))
        (fun local_file =>
     with_ (call (ClientCreate client remote_dst))
           (fun remote_file => call (WriterClose remote_file))
           (fun remote_file => copyfileobj local_file remote_file)).

(** The loop of [chmod] over [args.path], once the mode is parsed, and
    its body. *)
Definition chmod_one (recursive : bool) (permission : Z) (url : string)
  : M unit :=
  client <- _client_for_url url ;;
  p <- _path_for_url url ;;
  for_each (_glob_path client p) (fun path =>
    if recursive then
      statuses <- call (ClientListStatus client path true) ;;
      for_each statuses (fun status =>
        call (ClientSetPermission client (fs_path status) permission))
    else
      call (ClientSetPermission client path permission)).

Definition chmod_paths (recursive : bool) (permission : Z)
    (paths : list string) : M unit :=
  for_each paths (chmod_one recursive permission).

Definition chmod (args : ChmodArgs) : M unit :=
  if negb (Re.fullmatch octalmode_re (chmod_octalmode args)) then
    raise (ValueError ("Invalid mode supplied: " +:+ chmod_octalmode args))
  else
    match int_base8 (chmod_octalmode args) with
    | None =>
        raise (ValueError ("invalid literal for int() with base 8: "
                             +:+ chmod_octalmode args))
    | Some permission =>
        chmod_paths (chmod_recursive args) permission (chmod_path args)
    end.

(** The owner and group that [chown] computes from [args.owner]. *)
Definition chown_owner_group (owner_arg : string)
  : M (option string * option string) :=
  let split := PyStr.split ":" owner_arg in
  if (2 <? List.length split)%nat then
    raise (ValueError ("Invalid owner and group pattern: " +:+ owner_arg))
  else if (List.length split =? 1)%nat then
    s0 <- index split 0 ;;
    ret (Some s0, None)
  else
    s0 <- index split 0 ;;
    s1 <- index split 1 ;;
    ret (if PyStr.truthy s0 then Some s0 else None, Some s1).

(** The loop of [chown] over [args.path], and its body. *)
Definition chown_one (recursive : bool) (owner group : option string)
    (url : string) : M unit :=
  client <- _client_for_url url ;;
  p <- _path_for_url url ;;
  for_each (_glob_path client p) (fun path =>
    if recursive then
      statuses <- call (ClientListStatus client path true) ;;
      for_each statuses (fun status =>
        call (ClientSetOwner client (fs_path status) owner group))
    else
      call (ClientSetOwner client path owner group)).

Definition chown_paths (recursive : bool) (owner group : option string)
    (paths : list string) : M unit :=
  for_each paths (chown_one recursive owner group).

Definition chown (args : ChownArgs) : M unit :=
  og <- chown_owner_group (chown_owner args) ;;
  chown_paths (chown_recursive args) (fst og) (snd og) (chown_path args).

(** The probe of [mv]: is the destination a directory?  A missing
    destination is not one. *)
Definition probe_isdir (client : Client) (dst_path : string) : M bool :=
  r <- try_ (call (ClientGetFileInfo client dst_path)) ;;
  match r with
  | inr status => ret (fs_isdir status)
  | inl (FileNotFoundError _) => ret false
  | inl e => raise e
  end.

(** The target of the [rename] of one source. *)
Definition mv_target (dst_path : string) (dst_isdir : bool)
    (src_path : string) : string :=
  if dst_isdir then PosixPath.join dst_path (PosixPath.basename src_path)
  else dst_path.

(** The loop of [mv] over the resolved sources, and its body. *)
Definition mv_rename_one (client : Client) (dst_path : string)
    (dst_isdir : bool) (src : string) : M unit :=
  src_path <- _path_for_url src ;;
  let target_path := mv_target dst_path dst_isdir src_path in
  call (ClientRename client src_path target_path).

Definition mv_rename_all (client : Client) (dst_path : string)
    (dst_isdir : bool) (resolved_src : list string) : M unit :=
  for_each resolved_src (mv_rename_one client dst_path dst_isdir).

(** The comprehension of [mv] that resolves the sources. *)
Definition mv_resolve (client : Client) (srcs : list string)
  : M (list string) :=
  concat_map srcs (fun pattern =>
    p <- _path_for_url pattern ;;
    ret (_glob_path client p)).

Definition mv (args : MvArgs) : M unit :=
  _verify_nameservices_match (mv_dst args) (mv_src args) ;;;
  client <- _client_for_url (mv_dst args) ;;
  dst_path <- _path_for_url (mv_dst args) ;;
  dst_isdir <- probe_isdir client dst_path ;;
  resolved_src <- mv_resolve client (mv_src args) ;;
  if (1 <? List.length resolved_src)%nat && negb dst_isdir then
    raise (ValueError
      "destination must be a directory if multiple sources are provided")
  else
    mv_rename_all client dst_path dst_isdir resolved_src.

End Cli.

(** ** A small world for the examples

    A remote file system given by its paths and its directories, and the
    paths of the local one.  [create] refuses a path that exists, as a
    client that does not overwrite does; [get_file_info] and [rename] raise
    on a missing path. *)

Record ExWorld : Type := mkExWorld {
  remote_paths : list string;
  remote_dirs : list string;
  local_paths : list string
}.

Definition mem (p : string) (l : list string) : bool :=
  existsb (String.eqb p) l.

Definition example_status (w : ExWorld) (p : string) : FileStatus :=
  mkFileStatus p (mem p (remote_dirs w)) 420 "hdfs" "supergroup"
    1700000000500 1600000000250.

Definition example_chunks : list bytes :=
  [[Byte.x68; Byte.x64]; [Byte.x66; Byte.x73; Byte.x0a]].

Definition example_handler (R : Type) (op : Op R) (w : ExWorld)
  : ExWorld * (Exn + R) :=
  match op in Op T return ExWorld * (Exn + T) with
  | ClientInit _ _ => (w, inr tt)
  | ClientRead _ p =>
      if mem p (remote_paths w) then (w, inr (mkFileReader 0 5))
      else (w, inl (FileNotFoundError p))
  | ReadRangeStream _ _ _ => (w, inr (example_chunks, None))
  | ReaderClose _ => (w, inr tt)
  | ClientCreate _ p =>
      if mem p (remote_paths w) then (w, inl (FileExistsError p))
      else (mkExWorld (p :: remote_paths w) (remote_dirs w) (local_paths w),
            inr (mkFileWriter 1))
  | WriterWrite _ _ => (w, inr tt)
  | WriterClose _ => (w, inr tt)
  | ClientGetFileInfo _ p =>
      if mem p (remote_paths w) then (w, inr (example_status w p))
      else (w, inl (FileNotFoundError p))
  | ClientListStatus _ p _ =>
      (w, inr (map (example_status w)
                 (filter (fun q => String.prefix p q) (remote_paths w))))
  | ClientSetPermission _ _ _ => (w, inr tt)
  | ClientSetOwner _ _ _ _ => (w, inr tt)
  | ClientRename _ src dst =>
      if mem src (remote_paths w) then
        (mkExWorld
           (map (fun q => if String.eqb q src then dst else q)
              (remote_paths w))
           (remote_dirs w) (local_paths w), inr tt)
      else (w, inl (FileNotFoundError src))
  | OpenRb p =>
      if mem p (local_paths w) then (w, inr (mkLocalFile 3))
      else (w, inl (FileNotFoundError p))
  | OpenWb p =>
      (mkExWorld (remote_paths w) (remote_dirs w)
         (if mem p (local_paths w) then local_paths w
          else p :: local_paths w),
       inr (mkLocalFile 4))
  | LocalReadChunks _ => (w, inr (example_chunks, None))
  | LocalWrite _ _ => (w, inr tt)
  | LocalClose _ => (w, inr tt)
  | OsUtime _ _ _ => (w, inr tt)
  | OsChmod _ _ => (w, inr tt)
  end.

(** What [urlparse] answers on the URLs of the examples; any other string
    is read as a bare path, as [urlparse] reads a string without [:], [//],
    [?] and [#]. *)
Definition example_urls : list (string * ParseResult) :=
  [ ("hdfs://A/x", mkParseResult "hdfs" (Some "a") (inr None) "/x");
    ("hdfs://A/y", mkParseResult "hdfs" (Some "a") (inr None) "/y");
    ("hdfs://A/dir", mkParseResult "hdfs" (Some "a") (inr None) "/dir");
    ("hdfs://B/y", mkParseResult "hdfs" (Some "b") (inr None) "/y");
    ("hdfs://A:8020/x", mkParseResult "hdfs" (Some "a") (inr (Some 8020)) "/x");
    ("hdfs://A:8020/y", mkParseResult "hdfs" (Some "a") (inr (Some 8020)) "/y");
    ("hdfs://a:8020/z", mkParseResult "hdfs" (Some "a") (inr (Some 8020)) "/z") ].

Fixpoint assoc (k : string) (l : list (string * ParseResult))
  : option ParseResult :=
  match l with
  | [] => None
  | (k', v) :: l' => if String.eqb k k' then Some v else assoc k l'
  end.

Definition example_urlparse (url : string) : string + ParseResult :=
  match assoc url example_urls with
  | Some parsed => inr parsed
  | None => inr (mkParseResult EmptyString None (inr None) url)
  end.

Definition example_env : Collaborators := {|
  World := ExWorld;
  handler := example_handler;
  os_path_exists := fun w p => mem p (local_paths w);
  urlparse := example_urlparse
|}.

Definition example_world : ExWorld :=
  mkExWorld ["/dir"; "/dir/a"; "/dir/b"; "/x"; "/y"] ["/dir"] ["/tmp/x"].

Definition example_state : @State example_env :=
  @mkState example_env example_world [] ∅ 0%nat.


Definition example_chmod : ChmodArgs := mkChmodArgs true "644" ["/dir"].

Definition example_after_guard : @State example_env :=
  fst (@download_guard example_env "/tmp/new" false example_state).

Definition example_after_copy : @State example_env :=
  fst (@download_copy example_env 0%nat "/x" "/tmp/new" example_after_guard).

(** ** Reading a history *)

(** The [rename] calls of a history, in order. *)
Definition rename_calls (evs : list Event) : list (Client * string * string) :=
  flat_map (fun ev =>
    match ev with
    | EvCall (ClientRename c src dst) _ => [(c, src, dst)]
    | _ => []
    end) evs.

(** The [set_permission] calls of a history, in order. *)
Definition set_permission_calls (evs : list Event)
  : list (Client * string * Z) :=
  flat_map (fun ev =>
    match ev with
    | EvCall (ClientSetPermission c p mode) _ => [(c, p, mode)]
    | _ => []
    end) evs.

(** The [set_owner] calls of a history, in order. *)
Definition set_owner_calls (evs : list Event)
  : list (Client * string * option string * option string) :=
  flat_map (fun ev =>
    match ev with
    | EvCall (ClientSetOwner c p owner group) _ => [(c, p, owner, group)]
    | _ => []
    end) evs.

(** The listings that [list_status] returned, with the arguments of each
    call. *)
Definition listings (evs : list Event)
  : list (Client * string * bool * list FileStatus) :=
  flat_map (fun ev =>
    match ev with
    | EvCall (ClientListStatus c p recursive) (inr l) => [(c, p, recursive, l)]
    | _ => []
    end) evs.

(** The answers of [get_file_info], with the arguments of each call. *)
Definition file_infos (evs : list Event)
  : list (Client * string * (Exn + FileStatus)) :=
  flat_map (fun ev =>
    match ev with
    | EvCall (ClientGetFileInfo c p) r => [(c, p, r)]
    | _ => []
    end) evs.

(** The data written to remote files, in order. *)
Definition remote_writes (evs : list Event) : list bytes :=
  flat_map (fun ev =>
    match ev with
    | EvCall (WriterWrite _ data) _ => [data]
    | _ => []
    end) evs.

(** The chunks read from local files, in order. *)
Definition local_reads (evs : list Event) : list bytes :=
  flat_map (fun ev =>
    match ev with
    | EvCall (LocalReadChunks _) (inr s) => fst s
    | _ => []
    end) evs.

(** The exception with which a drained stream ended, if any. *)
Definition stream_error {R : Type} (op : Op R) : R -> list Exn :=
  match op in Op T return T -> list Exn with
  | ReadRangeStream _ _ _ | LocalReadChunks _ =>
      fun s => match snd s with Some e => [e] | None => [] end
  | _ => fun _ => []
  end.

(** The exceptions that the collaborators raised in a history: the calls
    that raised and the streams that ended with an exception. *)
Definition raised_in (evs : list Event) : list Exn :=
  flat_map (fun ev =>
    match ev with
    | EvCall op (inl e) => [e]
    | EvCall op (inr v) => stream_error op v
    | EvExists _ _ => []
    end) evs.

(** Events of the kinds that [_upload_file] may produce. *)
Definition upload_event (ev : Event) : bool :=
  match ev with
  | EvCall (OpenRb _) _ | EvCall (LocalReadChunks _) _
  | EvCall (LocalClose _) _ | EvCall (ClientCreate _ _) _
  | EvCall (WriterWrite _ _) _ | EvCall (WriterClose _) _ => true
  | _ => false
  end.

(** Events that construct a client. *)
Definition init_event (ev : Event) : bool :=
  match ev with
  | EvCall (ClientInit _ _) _ => true
  | _ => false
  end.

(** ** The claims' vocabulary *)

(** A mode string as the command line documents it: an optional single
    leading [1], then exactly three octal digits. *)
Definition octalmode_ok (s : string) : bool :=
  match s with
  | String a (String b (String c EmptyString)) =>
      Re.in_range "0" "7" a && Re.in_range "0" "7" b && Re.in_range "0" "7" c
  | String l (String a (String b (String c EmptyString))) =>
      Ascii.eqb l "1" && Re.in_range "0" "7" a && Re.in_range "0" "7" b
      && Re.in_range "0" "7" c
  | _ => false
  end.

(** The value of an octal digit character. *)
Definition digit_value (c : ascii) : Z := Z.of_N (N_of_ascii c) - 48.

(** The base-8 value of a string of three or four digits. *)
Definition octal_value (s : string) : Z :=
  match s with
  | String a (String b (String c EmptyString)) =>
      64 * digit_value a + 8 * digit_value b + digit_value c
  | String l (String a (String b (String c EmptyString))) =>
      512 * digit_value l + 64 * digit_value a + 8 * digit_value b
      + digit_value c
  | _ => 0
  end.

(** [x] is the float nearest to [n / d], for [0 < n] and [0 < d]: with
    [2^k / 2^j] the spacing of the floats around [n / d], which is the power
    of two with [2^52 <= (n / d) / (2^k / 2^j) < 2^53], [x] is
    [m * 2^k / 2^j] for the integer [m] nearest to [(n / d) / (2^k / 2^j)],
    the even one when two integers are as near. *)
Definition nearest_float (n d : Z) (x : Q) : Prop :=
  exists m k j : Z,
    0 <= k /\ 0 <= j
    /\ 2 ^ 52 * (d * 2 ^ k) <= n * 2 ^ j < 2 ^ 53 * (d * 2 ^ k)
    /\ 2 * Z.abs (m * (d * 2 ^ k) - n * 2 ^ j) <= d * 2 ^ k
    /\ (2 * Z.abs (m * (d * 2 ^ k) - n * 2 ^ j) = d * 2 ^ k ->
        Z.even m = true)
    /\ Qeq x (Qmake (m * 2 ^ k) (Z.to_pos (2 ^ j))).

(** [x] is the float nearest to [ms / 1000]: a time in milliseconds,
    divided by 1000. *)
Definition seconds_of_ms (ms : Z) (x : Q) : Prop :=
  (ms = 0 /\ Qeq x 0)
  \/ (0 < ms /\ nearest_float ms 1000 x)
  \/ (ms < 0 /\ nearest_float (- ms) 1000 (Qopp x)).

(** The path that [_path_for_url] returns for a URL that parses. *)
Definition url_path `{Collaborators} (url : string) : option string :=
  match urlparse url with
  | inr parsed => Some (path parsed)
  | inl _ => None
  end.

(** The state after some more calls: the world they left and the history
    extended with them. *)
Definition after `{Collaborators} (st : State) (w : World)
    (evs : list Event) : State :=
  mkState w (log st ++ evs) (cache st) (next_client st).

(** A URL without endpoint: no scheme, no host and no port, as
    [_client_for_url] tests them. *)
Definition no_endpoint (parsed : ParseResult) : bool :=
  negb (PyStr.truthy (scheme parsed))
  && negb (hostname_truthy (hostname parsed))
  && match port parsed with
     | inr p => negb (port_truthy p)
     | inl _ => false
     end.

(** Two parsed URLs name different services: their schemes or their hosts
    differ (the ports are not looked at). *)
Definition nameservice_differs (first parsed : ParseResult) : Prop :=
  scheme first <> scheme parsed \/ hostname first <> hostname parsed.

(** [emits m P]: every run of [m] extends the history by some events
    [evs] such that [P evs r] holds of them and of the outcome [r]. *)
Definition emits `{Collaborators} {A : Type} (m : M A)
    (P : list Event -> Exn + A -> Prop) : Prop :=
  forall st st' r,
    m st = (st', r) -> exists evs, log st' = log st ++ evs /\ P evs r.

(** Calls that returned, each with its argument. *)
Definition returned {A : Type} (f : A -> Op unit) (l : list A) : list Event :=
  map (fun x => EvCall (f x) (inr tt)) l.

(** Every [set_permission] call of a history carries the mode [m]. *)
Definition permission_is (m : Z) (ev : Event) : bool :=
  match ev with
  | EvCall (ClientSetPermission _ _ m') _ => (m' =? m)%Z
  | _ => true
  end.

(** Every [set_owner] call of a history carries this owner and group. *)
Definition owner_group_is (owner group : option string) (ev : Event) : bool :=
  match ev with
  | EvCall (ClientSetOwner _ _ o g) _ =>
      bool_decide (o = owner) && bool_decide (g = group)
  | _ => true
  end.



(** The path that [mv] hands to [rename] for a source URL: [_path_for_url]
    of the resolved source, which is itself [_path_for_url] of the URL. *)
Definition mv_src_path `{Collaborators} (url : string) : option string :=
  match url_path url with
  | Some resolved => url_path resolved
  | None => None
  end.

(** The events of a completed recursive [chmod] of one URL: the client is
    resolved, the listing of the URL's path is fetched, and the mode is set
    on the path of every entry, in order. *)
Definition chmod_block `{Collaborators} (permission : Z) (url : string)
    (evs : list Event) : Prop :=
  exists init c p l,
    forallb init_event init = true
    /\ url_path url = Some p
    /\ evs = init ++ EvCall (ClientListStatus c p true) (inr l)
               :: returned (fun status =>
                    ClientSetPermission c (fs_path status) permission) l.

(** The [set_permission] calls that apply [permission] to every entry of
    the listings of a history. *)
Definition permission_on_listings (permission : Z) (evs : list Event)
  : list (Client * string * Z) :=
  flat_map (fun x =>
    match x with
    | (c, _, _, l) => map (fun status => (c, fs_path status, permission)) l
    end) (listings evs).

(** What the probe of [mv] concludes from the answer of [get_file_info]. *)
Definition isdir_of (ans : Exn + FileStatus) (isdir : bool) : Prop :=
  match ans with
  | inr status => isdir = fs_isdir status
  | inl _ => isdir = false
  end.

(** The events of a completed [mv]: the client of the destination is
    resolved, the destination is probed, and each source is renamed, in
    order. *)
Definition mv_events `{Collaborators} (args : MvArgs) (evs : list Event)
  : Prop :=
  exists init c dst_path ans isdir paths,
    forallb init_event init = true
    /\ url_path (mv_dst args) = Some dst_path
    /\ isdir_of ans isdir
    /\ Forall2 (fun url p => mv_src_path url = Some p) (mv_src args) paths
    /\ evs = init ++ EvCall (ClientGetFileInfo c dst_path) ans
               :: returned (fun p =>
                    ClientRename c p (mv_target dst_path isdir p)) paths.

(** The events of a completed [_upload_file]: the local file is opened,
    the remote one created, the chunks of the local file are read to its end
    and written to the remote file in order, and both are closed. *)
Definition upload_events (client : Client) (local_src remote_dst : string)
    (evs : list Event) : Prop :=
  exists local_file remote_file chunks,
    evs = EvCall (OpenRb local_src) (inr local_file)
            :: EvCall (ClientCreate client remote_dst) (inr remote_file)
            :: EvCall (LocalReadChunks local_file) (inr (chunks, None))
            :: returned (WriterWrite remote_file) chunks
            ++ [EvCall (WriterClose remote_file) (inr tt);
                EvCall (LocalClose local_file) (inr tt)].

(** The body of the loop of [_verify_nameservices_match]: the check of one
    URL against the parsed first one. *)
Definition verify_one `{Collaborators} (first : ParseResult) (url : string)
  : M unit :=
  bind (py_urlparse url) (fun parsed =>
    if decide (scheme first <> scheme parsed
               \/ hostname first <> hostname parsed) then
      raise (ValueError ("Protocol and host must match: "
                           +:+ nameservice first +:+ " != "
                           +:+ nameservice parsed))
    else ret tt).

(** ** More vocabulary on histories and states *)

(** The cache never holds an identity that is still to be allocated, and
    never holds one identity under two keys. *)
Definition cache_sound `{Collaborators} (st : State) : Prop :=
  (forall k c, cache st !! k = Some c -> (c < next_client st)%nat)
  /\ (forall k1 k2 c,
        cache st !! k1 = Some c -> cache st !! k2 = Some c -> k1 = k2).

(** The remote files opened for reading and those closed, the local files
    opened and those closed, the remote files created and those closed, each
    in the order of the history. *)
Definition opened_readers (evs : list Event) : list FileReader :=
  flat_map (fun ev =>
    match ev with
    | EvCall (ClientRead _ _) (inr f) => [f]
    | _ => []
    end) evs.

Definition closed_readers (evs : list Event) : list FileReader :=
  flat_map (fun ev =>
    match ev with
    | EvCall (ReaderClose f) _ => [f]
    | _ => []
    end) evs.

Definition opened_locals (evs : list Event) : list LocalFile :=
  flat_map (fun ev =>
    match ev with
    | EvCall (OpenRb _) (inr f) | EvCall (OpenWb _) (inr f) => [f]
    | _ => []
    end) evs.

Definition closed_locals (evs : list Event) : list LocalFile :=
  flat_map (fun ev =>
    match ev with
    | EvCall (LocalClose f) _ => [f]
    | _ => []
    end) evs.

Definition opened_writers (evs : list Event) : list FileWriter :=
  flat_map (fun ev =>
    match ev with
    | EvCall (ClientCreate _ _) (inr f) => [f]
    | _ => []
    end) evs.

Definition closed_writers (evs : list Event) : list FileWriter :=
  flat_map (fun ev =>
    match ev with
    | EvCall (WriterClose f) _ => [f]
    | _ => []
    end) evs.

(** Every file that a history opens, it closes: the files closed are the
    files opened, kind by kind. *)
Definition closes_what_it_opens (evs : list Event) : Prop :=
  closed_readers evs = opened_readers evs
  /\ closed_locals evs = opened_locals evs
  /\ closed_writers evs = opened_writers evs.

(** Events that open or close no file. *)
Definition no_open_close (ev : Event) : bool :=
  match ev with
  | EvCall (ClientRead _ _) _ | EvCall (ReaderClose _) _
  | EvCall (OpenRb _) _ | EvCall (OpenWb _) _ | EvCall (LocalClose _) _
  | EvCall (ClientCreate _ _) _ | EvCall (WriterClose _) _ => false
  | _ => true
  end.

(** Events that move no data: neither a range stream nor a local write. *)
Definition no_transfer (ev : Event) : bool :=
  match ev with
  | EvCall (ReadRangeStream _ _ _) _ | EvCall (LocalWrite _ _) _ => false
  | _ => true
  end.

(** The [os.path.exists] tests. *)
Definition is_exists_test (ev : Event) : bool :=
  match ev with
  | EvExists _ _ => true
  | _ => false
  end.

(** The data written to local files, and the chunks that the remote range
    streams yielded, in order. *)
Definition local_writes (evs : list Event) : list bytes :=
  flat_map (fun ev =>
    match ev with
    | EvCall (LocalWrite _ data) _ => [data]
    | _ => []
    end) evs.

Definition streamed (evs : list Event) : list bytes :=
  flat_map (fun ev =>
    match ev with
    | EvCall (ReadRangeStream _ _ _) (inr s) => fst s
    | _ => []
    end) evs.

(** The ranges asked of the remote files: offset, length, and the length
    of the file. *)
Definition stream_ranges (evs : list Event) : list (Z * Z * Z) :=
  flat_map (fun ev =>
    match ev with
    | EvCall (ReadRangeStream f offset len) _ => [(offset, len, file_length f)]
    | _ => []
    end) evs.

(** The kinds of events of a download: the test of the destination, the
    reading of the remote file and the writing of the local one, and, when
    attributes are preserved, their reading and setting. *)
Definition download_event (preserve : bool) (ev : Event) : bool :=
  match ev with
  | EvExists _ _ => true
  | EvCall (ClientRead _ _) _ | EvCall (ReadRangeStream _ _ _) _
  | EvCall (ReaderClose _) _ | EvCall (OpenWb _) _
  | EvCall (LocalWrite _ _) _ | EvCall (LocalClose _) _ => true
  | EvCall (ClientGetFileInfo _ _) _ | EvCall (OsUtime _ _ _) _
  | EvCall (OsChmod _ _) _ => preserve
  | _ => false
  end.

(** The events of a completed copy of [_download_file]. *)
Definition copy_events (client : Client) (remote_src local_dst : string)
    (evs : list Event) : Prop :=
  exists remote_file local_file chunks,
    evs = EvCall (ClientRead client remote_src) (inr remote_file)
            :: EvCall (OpenWb local_dst) (inr local_file)
            :: EvCall (ReadRangeStream remote_file 0
                         (file_length remote_file)) (inr (chunks, None))
            :: returned (LocalWrite local_file) chunks
            ++ [EvCall (LocalClose local_file) (inr tt);
                EvCall (ReaderClose remote_file) (inr tt)].

(** No event of a history is a [list_status] call. *)
Definition not_listing (ev : Event) : bool :=
  match ev with
  | EvCall (ClientListStatus _ _ _) _ => false
  | _ => true
  end.

(** The events of a completed [chmod] of one URL that is not recursive: the
    client is resolved and the mode is set on the URL's path. *)
Definition chmod_flat_block `{Collaborators} (permission : Z) (url : string)
    (evs : list Event) : Prop :=
  exists init c p,
    forallb init_event init = true
    /\ url_path url = Some p
    /\ evs = init ++ [EvCall (ClientSetPermission c p permission) (inr tt)].

(** The events of a completed [chown] of one URL, recursive or not. *)
Definition chown_block `{Collaborators} (recursive : bool)
    (owner group : option string) (url : string) (evs : list Event) : Prop :=
  exists init c p,
    forallb init_event init = true
    /\ url_path url = Some p
    /\ if recursive then
         exists l,
           evs = init ++ EvCall (ClientListStatus c p true) (inr l)
                   :: returned (fun status =>
                        ClientSetOwner c (fs_path status) owner group) l
       else
         evs = init ++ [EvCall (ClientSetOwner c p owner group) (inr tt)].

(** The [set_owner] calls that give [owner] and [group] to every entry of
    the listings of a history. *)
Definition owner_on_listings (owner group : option string)
    (evs : list Event)
  : list (Client * string * option string * option string) :=
  flat_map (fun x =>
    match x with
    | (c, _, _, l) =>
        map (fun status => (c, fs_path status, owner, group)) l
    end) (listings evs).

(** The separator that [os.path.join] puts after its first argument. *)
Definition join_separator (a : string) : string :=
  match PyStr.last_char a with
  | None => EmptyString
  | Some c => if Ascii.eqb c "/" then EmptyString else "/"
  end.

(** ** The other commands

    [mkdir], [cat] and [get] reach further collaborators: [client.mkdirs],
    [file.read], the standard output, [os.path.isdir] and the thread pool.
    The first four are further calls, with a history of their own; what a
    run leaves in it is part of the outside world of the run. *)

Inductive OpX : Type -> Type :=
| ClientMkdirs (c : Client) (path : string) (create_parent : bool) : OpX unit
| ReaderRead (f : FileReader) (size : Z) : OpX bytes
| StdoutWrite (data : bytes) : OpX unit
| StdoutFlush : OpX unit.

Inductive EventX : Type :=
| XCall {R : Type} (op : OpX R) (r : Exn + R)
| XIsdir (path : string) (b : bool).

Class Shell : Type := {
  ShellWorld : Type;
  shell_handler : forall R : Type, Op R -> ShellWorld -> ShellWorld * (Exn + R);
  shell_handler_x :
    forall R : Type, OpX R -> ShellWorld -> ShellWorld * (Exn + R);
  shell_exists : ShellWorld -> string -> bool;
  shell_isdir : ShellWorld -> string -> bool;
  shell_urlparse : string -> string + ParseResult
}.

(** The collaborators of the commands modelled so far, with the history of
    the further calls carried along in the world. *)
Definition shell_env `{Shell} : Collaborators := {|
  World := (ShellWorld * list EventX)%type;
  handler := fun R op w =>
    let (w', r) := shell_handler R op (fst w) in ((w', snd w), r);
  os_path_exists := fun w p => shell_exists (fst w) p;
  urlparse := shell_urlparse
|}.

(** [ThreadPoolExecutor(threads)] with the jobs submitted to it and the
    collection of their results in completion order: how the jobs
    interleave is the pool's affair. *)
Class ThreadPool `{Collaborators} : Type := {
  pool_run : Z -> list (M unit) -> M unit
}.

Record CatArgs : Type := mkCatArgs {
  cat_src : list string
}.

Record MkdirArgs : Type := mkMkdirArgs {
  mkdir_parent : bool;
  mkdir_path : list string
}.

Record GetArgs : Type := mkGetArgs {
  get_preserve : bool;
  get_force : bool;
  get_threads : Z;
  get_src : list string;
  get_localdst : string
}.

(** The truth value of a [bytes] object: false exactly when it is empty. *)
Definition bytes_truthy (b : bytes) : bool :=
  match b with
  | [] => false
  | _ :: _ => true
  end.

Section Commands.

Context {sh : Shell}.

#[local] Existing Instance shell_env.

Context {pool : ThreadPool}.

Notation "x <- m ;; k" := (bind m (fun x => k))
  (at level 100, m at level 99, k at level 200, right associativity).
Notation "m ;;; k" := (bind m (fun _ => k))
  (at level 100, k at level 200, right associativity).

(** The history of the further calls. *)
Definition xlog (st : State) : list EventX := snd (world st).

(** Performing a further call. *)
Definition callx {R : Type} (op : OpX R) : M R :=
  fun st =>
    let (w', r) := shell_handler_x R op (fst (world st)) in
    (mkState (w', xlog st ++ [XCall op r]) (log st) (cache st)
       (next_client st), r).

(** [os.path.isdir(p)]: a test that changes nothing and never raises. *)
Definition path_isdir (p : string) : M bool :=
  fun st =>
    let b := shell_isdir (fst (world st)) p in
    (mkState (fst (world st), xlog st ++ [XIsdir p b]) (log st) (cache st)
       (next_client st), inr b).

(** The [while] loop of [cat] may run for ever, when the file never reads
    as empty; it is given [fuel], the number of rounds it may make, and
    the computations around it say with [None] that it was used up.  A run
    of the program that ends is the run with enough fuel. *)
Definition then_ (m k : M (option unit)) : M (option unit) :=
  r <- m ;;
  match r with
  | Some _ => k
  | None => ret None
  end.

Fixpoint for_each_fuel {A : Type} (l : list A) (body : A -> M (option unit))
  : M (option unit) :=
  match l with
  | [] => ret (Some tt)
  | x :: l' => then_ (body x) (for_each_fuel l' body)
  end.

(** [while chunk := file.read(1024 * 1024): sys.stdout.buffer.write(chunk)] *)
Fixpoint cat_chunks (fuel : nat) (file : FileReader) : M (option unit) :=
  match fuel with
  | O => ret None
  | S fuel' =>
      chunk <- callx (ReaderRead file (1024 * 1024)) ;;
      if bytes_truthy chunk then
        callx (StdoutWrite chunk) ;;;
        cat_chunks fuel' file
      else ret (Some tt)
  end.

(** The body of the loop of [cat] over the paths of a source. *)
Definition cat_path (fuel : nat) (client : Client) (path : string)
  : M (option unit) :=
  with_ (call (ClientRead client path))
        (fun file => call (ReaderClose file))
        (fun file => cat_chunks fuel file).

Definition cat_one (fuel : nat) (src : string) : M (option unit) :=
  client <- _client_for_url src ;;
  p <- _path_for_url src ;;
  for_each_fuel (_glob_path client p) (cat_path fuel client).

Definition cat (fuel : nat) (args : CatArgs) : M (option unit) :=
  then_ (for_each_fuel (cat_src args) (cat_one fuel))
    (callx StdoutFlush ;;; ret (Some tt)).

Definition mkdir_one (create_parent : bool) (url : string) : M unit :=
  client <- _client_for_url url ;;
  p <- _path_for_url url ;;
  callx (ClientMkdirs client p create_parent).

Definition mkdir (args : MkdirArgs) : M unit :=
  let create_parent := mkdir_parent args in
  for_each (mkdir_path args) (mkdir_one create_parent).

(** The first loop of [get]: the clients and paths of the sources. *)
Definition get_resolve (srcs : list string) : M (list (Client * string)) :=
  concat_map srcs (fun url =>
    client <- _client_for_url url ;;
    p <- _path_for_url url ;;
    ret (map (fun path => (client, path)) (_glob_path client p))).

(** [paths[i]]. *)
Definition index_path (l : list (Client * string)) (i : nat)
  : M (Client * string) :=
  match l !! i with
  | Some x => ret x
  | None => raise (IndexError "list index out of range")
  end.

(** The job that [get] submits for one resolved source. *)
Definition get_job (args : GetArgs) (job : Client * string) : M unit :=
  let filename := PosixPath.basename (snd job) in
  _download_file (fst job) (snd job)
    (PosixPath.join (get_localdst args) filename)
    (get_force args) (get_preserve args).

Definition get (args : GetArgs) : M unit :=
  paths <- get_resolve (get_src args) ;;
  dst_is_dir <- path_isdir (get_localdst args) ;;
  if (1 <? List.length paths)%nat && negb dst_is_dir then
    raise (ValueError
             "Destination must be directory when copying multiple files")
  else if negb dst_is_dir then
    first <- index_path paths 0 ;;
    _download_file (fst first) (snd first) (get_localdst args)
      (get_force args) (get_preserve args)
  else
    pool_run (get_threads args) (map (get_job args) paths).

End Commands.

(** The data written to the standard output in a history of further
    calls, the non-empty chunks that [read] returned, and the flushes. *)
Definition stdout_writes (xs : list EventX) : list bytes :=
  flat_map (fun ev =>
    match ev with
    | XCall (StdoutWrite data) _ => [data]
    | _ => []
    end) xs.

Definition chunks_read (xs : list EventX) : list bytes :=
  flat_map (fun ev =>
    match ev with
    | XCall (ReaderRead _ _) (inr data) =>
        if bytes_truthy data then [data] else []
    | _ => []
    end) xs.

Definition flushes (xs : list EventX) : list (Exn + unit) :=
  flat_map (fun ev =>
    match ev with
    | XCall StdoutFlush r => [r]
    | _ => []
    end) xs.

(** The local paths that a history tests, opens for writing, or sets the
    times or the mode of. *)
Definition local_targets (evs : list Event) : list string :=
  flat_map (fun ev =>
    match ev with
    | EvExists p _ => [p]
    | EvCall (OpenWb p) _ => [p]
    | EvCall (OsUtime p _ _) _ => [p]
    | EvCall (OsChmod p _) _ => [p]
    | _ => []
    end) evs.

(** [xemits m P]: every run of [m] extends the history of the further
    calls by some events [xs] such that [P xs r] holds of them and of the
    outcome [r]. *)
Definition xemits `{Shell} {A : Type} (m : @M shell_env A)
    (P : list EventX -> Exn + A -> Prop) : Prop :=
  forall st st' r,
    m st = (st', r) -> exists xs, xlog st' = xlog st ++ xs /\ P xs r.

(** Further calls that returned, each with its argument. *)
Definition returned_x {A : Type} (f : A -> OpX unit) (l : list A)
  : list EventX :=
  map (fun x => XCall (f x) (inr tt)) l.

(** The [mkdirs] call of [mkdir] for a client and a path. *)
Definition mkdirs_of (create_parent : bool) (cp : Client * string)
  : OpX unit :=
  ClientMkdirs (fst cp) (snd cp) create_parent.

(** The further collaborators of the example world: directories are made
    unless a file is in the way; a remote file that is opened holds the
    example chunks, which [read] returns one by one, then the empty chunk;
    and the pool runs its jobs one after the other. *)
Definition example_shell_handler (R : Type) (op : Op R)
    (w : ExWorld * list bytes) : (ExWorld * list bytes) * (Exn + R) :=
  let (w', r) := example_handler R op (fst w) in
  ((w', match op with
        | ClientRead _ _ => example_chunks
        | _ => snd w
        end), r).

Definition example_handler_x (R : Type) (op : OpX R)
    (w : ExWorld * list bytes) : (ExWorld * list bytes) * (Exn + R) :=
  match op in OpX T return (ExWorld * list bytes) * (Exn + T) with
  | ClientMkdirs _ p _ =>
      if mem p (remote_paths (fst w)) && negb (mem p (remote_dirs (fst w)))
      then (w, inl (FileExistsError p))
      else
        ((mkExWorld (p :: remote_paths (fst w)) (p :: remote_dirs (fst w))
            (local_paths (fst w)), snd w), inr tt)
  | ReaderRead _ _ =>
      match snd w with
      | [] => (w, inr [])
      | chunk :: rest => ((fst w, rest), inr chunk)
      end
  | StdoutWrite _ => (w, inr tt)
  | StdoutFlush => (w, inr tt)
  end.

Definition example_shell : Shell := {|
  ShellWorld := (ExWorld * list bytes)%type;
  shell_handler := example_shell_handler;
  shell_handler_x := example_handler_x;
  shell_exists := fun w p => mem p (local_paths (fst w));
  shell_isdir := fun _ p => String.eqb p "/tmp";
  shell_urlparse := example_urlparse
|}.

Definition example_pool : @ThreadPool (@shell_env example_shell) := {|
  pool_run := fun _ jobs => for_each jobs (fun job => job)
|}.

Definition example_shell_state : @State (@shell_env example_shell) :=
  @mkState (@shell_env example_shell) ((example_world, []), []) [] ∅ 0%nat.

(** The answer of the probe of [mv] says that the destination is not a
    directory: a status that is not a directory's, or a missing path. *)
Definition probe_not_dir (ans : Exn + FileStatus) : Prop :=
  match ans with
  | inr status => fs_isdir status = false
  | inl (FileNotFoundError _) => True
  | inl _ => False
  end.

(** The probe of [mv] raised [e]: anything but [FileNotFoundError]. *)
Definition probe_raised (ans : Exn + FileStatus) (e : Exn) : Prop :=
  ans = inl e
  /\ match e with
     | FileNotFoundError _ => False
     | _ => True
     end.

(** A second example world, for the refusals: [urlparse] also knows a URL
    with a host and no scheme and a URL whose port is not a number, and the
    name node does not answer [get_file_info]. *)
Definition faulty_urlparse (url : string) : string + ParseResult :=
  if String.eqb url "//host/x" then
    inr (mkParseResult EmptyString (Some "host") (inr None) "/x")
  else if String.eqb url "hdfs://a:bad/x" then
    inr (mkParseResult "hdfs" (Some "a")
           (inl "Port could not be cast to integer value as 'bad'") "/x")
  else example_urlparse url.

Definition faulty_handler (R : Type) (op : Op R) (w : ExWorld)
  : ExWorld * (Exn + R) :=
  match op in Op T return ExWorld * (Exn + T) with
  | ClientGetFileInfo _ _ => (w, inl (OSError "Connection refused"))
  | op' => example_handler _ op' w
  end.

Definition faulty_env : Collaborators := {|
  World := ExWorld;
  handler := faulty_handler;
  os_path_exists := fun w p => mem p (local_paths w);
  urlparse := faulty_urlparse
|}.

Definition faulty_state : @State faulty_env :=
  @mkState faulty_env example_world [] ∅ 0%nat.

(** A third example world, for a recursive change that stops half-way:
    [list_status] answers with the entries below the path, not with the
    path itself, and [set_permission] is refused on [/dir/a]. *)
Definition strict_handler (R : Type) (op : Op R) (w : ExWorld)
  : ExWorld * (Exn + R) :=
  match op in Op T return ExWorld * (Exn + T) with
  | ClientListStatus _ p _ =>
      (w, inr (map (example_status w)
                 (filter (fun q => String.prefix (p +:+ "/") q)
                    (remote_paths w))))
  | ClientSetPermission _ p _ =>
      if String.eqb p "/dir/a" then (w, inl (OSError "Permission denied"))
      else (w, inr tt)
  | op' => example_handler _ op' w
  end.

Definition strict_env : Collaborators := {|
  World := ExWorld;
  handler := strict_handler;
  os_path_exists := fun w p => mem p (local_paths w);
  urlparse := example_urlparse
|}.

Definition strict_state : @State strict_env :=
  @mkState strict_env example_world [] ∅ 0%nat.

(** ** Properties *)

(** *** Paths *)

Lemma rsplit1_after (c : ascii) (s : string) :
  match PyStr.rsplit1 c s with
  | Some (_, after) => PyStr.count c after = 0%nat
  | None => PyStr.count c s = 0%nat
  end.
Proof.
  induction s as [| d t IH]; simpl; [reflexivity |].
  destruct (PyStr.rsplit1 c t) as [[before after] |]; [exact IH |].
  destruct (Ascii.eqb d c); simpl; [exact IH | exact IH].
Qed.

Lemma basename_no_slash (p : string) :
  PyStr.count "/" (PosixPath.basename p) = 0%nat.
Proof.
  unfold PosixPath.basename.
  pose proof (rsplit1_after "/" p) as H.
  now destruct (PyStr.rsplit1 "/" p) as [[before after] |].
Qed.

Lemma last_char_none (a : string) : PyStr.last_char a = None -> a = EmptyString.
Proof.
  induction a as [| c t IH]; [reflexivity |].
  simpl. destruct t; [discriminate |]. intros H. now specialize (IH H).
Qed.

Lemma join_relative_tail (a b : string) :
  match PyStr.last_char a with
  | None => b
  | Some "/"%char => a +:+ b
  | Some _ => a +:+ "/" +:+ b
  end = a +:+ join_separator a +:+ b.
Proof.
  unfold join_separator.
  destruct (PyStr.last_char a) as [c |] eqn:Hl.
  - destruct (Ascii.eqb_spec c "/") as [-> | Hne]; [reflexivity |].
    destruct c as [[] [] [] [] [] [] [] []]; try reflexivity.
    now destruct Hne.
  - now rewrite (last_char_none a Hl).
Qed.

Lemma join_no_slash (a b : string) :
  PyStr.count "/" b = 0%nat ->
  PosixPath.join a b = a +:+ join_separator a +:+ b.
Proof.
  intros Hb. rewrite <- join_relative_tail. unfold PosixPath.join.
  destruct b as [| ch b']; [reflexivity |].
  simpl in Hb. destruct (Ascii.eqb_spec ch "/") as [-> | Hne];
    [discriminate |].
  set (tail := match PyStr.last_char a with
               | None => String ch b'
               | Some "/"%char => a +:+ String ch b'
               | Some _ => a +:+ "/" +:+ String ch b'
               end).
  destruct ch as [[] [] [] [] [] [] [] []]; try reflexivity.
  now destruct Hne.
Qed.






Arguments Re.in_range : simpl never.

Section CliProps.

Context {env : Collaborators}.

(** *** Running a computation step by step *)

Lemma bind_ok {A B : Type} (m : M A) (k : A -> M B) st st1 a :
  m st = (st1, inr a) -> bind m k st = k a st1.
Proof. intros Hm. unfold bind. now rewrite Hm. Qed.

Lemma bind_raise {A B : Type} (m : M A) (k : A -> M B) st st1 e :
  m st = (st1, inl e) -> bind m k st = (st1, inl e).
Proof. intros Hm. unfold bind. now rewrite Hm. Qed.

Lemma bind_inv {A B : Type} (m : M A) (k : A -> M B) st st' r :
  bind m k st = (st', r) ->
  (exists e, m st = (st', inl e) /\ r = inl e)
  \/ (exists st1 a, m st = (st1, inr a) /\ k a st1 = (st', r)).
Proof.
  unfold bind. destruct (m st) as [st1 [e | a]]; intros Hk.
  - left. exists e. now inversion Hk.
  - right. now exists st1, a.
Qed.

Lemma call_inv {R : Type} (op : Op R) st st' r :
  call op st = (st', r) ->
  exists w', handler R op (world st) = (w', r)
    /\ st' = mkState w' (log st ++ [EvCall op r]) (cache st) (next_client st).
Proof.
  unfold call. destruct (handler R op (world st)) as [w' r'].
  intros Hc. inversion Hc; subst. now exists w'.
Qed.

(** *** Mode strings *)

Lemma fullmatch_octalmode (s : string) :
  Re.fullmatch octalmode_re s = octalmode_ok s.
Proof.
  unfold Re.fullmatch, octalmode_re.
  destruct s as [| a [| b [| c [| d [| e s]]]]]; simpl; try reflexivity;
    repeat (match goal with
            | H : Re.in_range ?x ?y ?z = _
              |- context [Re.in_range ?x ?y ?z] => rewrite H
            | H : Ascii.eqb ?x ?y = _
              |- context [Ascii.eqb ?x ?y] => rewrite H
            | |- context [Ascii.eqb ?x ?y] =>
                destruct (Ascii.eqb x y) eqn:?
            | |- context [Re.in_range ?x ?y ?z] =>
                destruct (Re.in_range x y z) eqn:?
            end; simpl); reflexivity.
Qed.

Lemma int_base8_octal (s : string) :
  octalmode_ok s = true -> int_base8 s = Some (octal_value s).
Proof.
  intros H.
  destruct s as [| a [| b [| c [| d [| e s]]]]]; simpl in H;
    try discriminate.
  - apply andb_prop in H as [H Hc]. apply andb_prop in H as [Ha Hb].
    unfold int_base8, int_base8_from, octal_digit.
    rewrite Ha, Hb, Hc. simpl. f_equal. unfold digit_value. lia.
  - apply andb_prop in H as [H Hd]. apply andb_prop in H as [H Hc].
    apply andb_prop in H as [Ha Hb].
    apply Ascii.eqb_eq in Ha. subst a.
    unfold int_base8, int_base8_from, octal_digit.
    rewrite Hb, Hc, Hd. simpl. f_equal. unfold digit_value.
    change (Z.of_N (N_of_ascii "1")) with 49. lia.
Qed.

(** *** Splitting on a separator *)

Lemma split_length (sep : ascii) (s : string) :
  List.length (PyStr.split sep s) = S (PyStr.count sep s).
Proof.
  induction s as [| c t IH]; simpl; [reflexivity |].
  destruct (Ascii.eqb c sep); simpl.
  - now rewrite IH.
  - destruct (PyStr.split sep t) as [| piece rest]; simpl in *;
      [discriminate | exact IH].
Qed.

Lemma split_no_sep (sep : ascii) (s : string) :
  PyStr.count sep s = 0%nat -> PyStr.split sep s = [s].
Proof.
  induction s as [| c t IH]; simpl; [reflexivity |].
  destruct (Ascii.eqb c sep); simpl; [discriminate |].
  intros H. now rewrite (IH H).
Qed.

Lemma split_trailing_sep (sep : ascii) (s : string) :
  PyStr.count sep s = 0%nat ->
  PyStr.split sep (s +:+ String sep EmptyString) = [s; EmptyString].
Proof.
  induction s as [| c t IH]; simpl.
  - intros _. now rewrite Ascii.eqb_refl.
  - destruct (Ascii.eqb c sep); simpl; [discriminate |].
    intros H. now rewrite (IH H).
Qed.

(** *** Validation happens before anything else *)

Lemma chmod_invalid_mode (args : ChmodArgs) (st : State) :
  octalmode_ok (chmod_octalmode args) = false ->
  chmod args st
  = (st, inl (ValueError ("Invalid mode supplied: "
                            +:+ chmod_octalmode args))).
Proof.
  intros H. unfold chmod. now rewrite fullmatch_octalmode, H.
Qed.

Lemma chmod_valid_mode (args : ChmodArgs) (st : State) :
  octalmode_ok (chmod_octalmode args) = true ->
  chmod args st
  = chmod_paths (chmod_recursive args) (octal_value (chmod_octalmode args))
      (chmod_path args) st.
Proof.
  intros H. unfold chmod.
  now rewrite fullmatch_octalmode, H, (int_base8_octal _ H).
Qed.

Lemma chown_too_many_colons (args : ChownArgs) (st : State) :
  (1 < PyStr.count ":" (chown_owner args))%nat ->
  chown args st
  = (st, inl (ValueError ("Invalid owner and group pattern: "
                            +:+ chown_owner args))).
Proof.
  intros H. unfold chown, chown_owner_group, bind.
  rewrite split_length.
  destruct (2 <? S (PyStr.count ":" (chown_owner args)))%nat eqn:E;
    [reflexivity |].
  apply Nat.ltb_ge in E. lia.
Qed.

(** C2: [chmod] accepts exactly the mode strings made of an optional
    single leading [1] followed by exactly three octal digits, and reads
    them in base 8, so that ["644"] gives [0o644 = 420] and ["1755"] gives
    [0o1755 = 1005]; on any other string, among them ["0644"], ["999"] and
    ["12345"], it raises [ValueError] and the state is the one it started
    from: no client was resolved and no call was made. *)
Theorem chmod_mode_validation :
  (forall s, Re.fullmatch octalmode_re s = octalmode_ok s)
  /\ (forall args st,
        octalmode_ok (chmod_octalmode args) = true ->
        int_base8 (chmod_octalmode args)
        = Some (octal_value (chmod_octalmode args))
        /\ chmod args st
           = chmod_paths (chmod_recursive args)
               (octal_value (chmod_octalmode args)) (chmod_path args) st)
  /\ (forall args st,
        octalmode_ok (chmod_octalmode args) = false ->
        chmod args st
        = (st, inl (ValueError ("Invalid mode supplied: "
                                  +:+ chmod_octalmode args))))
  /\ (octalmode_ok "644" = true /\ octal_value "644" = 420)
  /\ (octalmode_ok "1755" = true /\ octal_value "1755" = 1005)
  /\ octalmode_ok "0644" = false
  /\ octalmode_ok "999" = false
  /\ octalmode_ok "12345" = false.
Proof.
  split; [exact fullmatch_octalmode |].
  split; [intros args st H; split;
          [now apply int_base8_octal | now apply chmod_valid_mode] |].
  split; [intros args st H; now apply chmod_invalid_mode |].
  repeat split; reflexivity.
Qed.

(** C3: when [force] is false and the local destination exists,
    [_download_file] raises [FileExistsError]; the only thing it has done
    is the [os.path.exists] test: the world (remote and local files) is
    unchanged and the history holds no call, remote or local. *)
Theorem download_existing_without_force
    (client : Client) (remote_src local_dst : string) (preserve : bool)
    (st : State) :
  os_path_exists (world st) local_dst = true ->
  _download_file client remote_src local_dst false preserve st
  = (after st (world st) [EvExists local_dst true],
     inl (FileExistsError
            (local_dst +:+ " already exists, use --force to overwrite"))).
Proof.
  intros H.
  unfold _download_file, download_guard, bind, path_exists, after. simpl.
  now rewrite H.
Qed.

(** *** Floats *)

Lemma round_half_even_nearest (n d : Z) :
  0 < d ->
  2 * Z.abs (round_half_even n d * d - n) <= d
  /\ (2 * Z.abs (round_half_even n d * d - n) = d ->
      Z.even (round_half_even n d) = true).
Proof.
  intros Hd. unfold round_half_even.
  pose proof (Z.div_mod n d ltac:(lia)) as Hdm.
  pose proof (Z.mod_pos_bound n d Hd) as Hr.
  set (q := n / d) in *. set (r := n mod d) in *.
  assert (Hq : q * d - n = - r) by lia.
  assert (Hq1 : (q + 1) * d - n = d - r) by lia.
  destruct (Z.ltb_spec (2 * r) d) as [H1 | H1].
  - rewrite Hq. split; [lia | intros H; lia].
  - destruct (Z.ltb_spec d (2 * r)) as [H2 | H2].
    + rewrite Hq1. split; [lia | intros H; lia].
    + destruct (Z.even q) eqn:He.
      * rewrite Hq. split; [lia | intros _; exact He].
      * rewrite Hq1. split; [lia | intros _].
        replace (q + 1) with (Z.succ q) by lia.
        rewrite Z.even_succ, <- Z.negb_even. now rewrite He.
Qed.

(** Powers of two with an exponent of either sign, as a numerator and a
    denominator. *)
Lemma pow2_pos (t : Z) : 0 < 2 ^ Z.max 0 t.
Proof. apply Z.pow_pos_nonneg; lia. Qed.

Lemma pow2_shift (t c : Z) :
  0 <= c -> 0 <= t + c ->
  2 ^ Z.max 0 t * 2 ^ c = 2 ^ (t + c) * 2 ^ Z.max 0 (- t).
Proof.
  intros Hc Htc. destruct (Z.le_gt_cases 0 t) as [Ht | Ht].
  - rewrite (Z.max_r 0 t) by lia. rewrite (Z.max_l 0 (- t)) by lia.
    change (2 ^ 0) with 1. rewrite Z.pow_add_r by lia. lia.
  - rewrite (Z.max_l 0 t) by lia. rewrite (Z.max_r 0 (- t)) by lia.
    change (2 ^ 0) with 1. rewrite Z.mul_1_l.
    rewrite <- Z.pow_add_r by lia. f_equal. lia.
Qed.

Lemma pow2_step (t s : Z) :
  0 <= s ->
  2 ^ Z.max 0 (t + s) * 2 ^ Z.max 0 (- t)
  = 2 ^ s * (2 ^ Z.max 0 t * 2 ^ Z.max 0 (- (t + s))).
Proof.
  intros Hs.
  destruct (Z.le_gt_cases 0 t) as [Ht | Ht].
  - rewrite (Z.max_r 0 t), (Z.max_l 0 (- t)), (Z.max_r 0 (t + s)),
      (Z.max_l 0 (- (t + s))) by lia.
    change (2 ^ 0) with 1. rewrite Z.pow_add_r by lia. lia.
  - destruct (Z.le_gt_cases 0 (t + s)) as [Hts | Hts].
    + rewrite (Z.max_l 0 t), (Z.max_r 0 (- t)), (Z.max_r 0 (t + s)),
        (Z.max_l 0 (- (t + s))) by lia.
      change (2 ^ 0) with 1. rewrite Z.mul_1_l, Z.mul_1_r.
      rewrite <- Z.pow_add_r by lia. f_equal. lia.
    + rewrite (Z.max_l 0 t), (Z.max_r 0 (- t)), (Z.max_l 0 (t + s)),
        (Z.max_r 0 (- (t + s))) by lia.
      change (2 ^ 0) with 1. rewrite !Z.mul_1_l.
      rewrite <- Z.pow_add_r by lia. f_equal. lia.
Qed.

(** [float_exponent n d + 52] is the integer part of the binary logarithm
    of [n / d]. *)
Lemma float_exponent_spec (n d : Z) :
  0 < n -> 0 < d ->
  let t := float_exponent n d + 52 in
  d * 2 ^ Z.max 0 t <= n * 2 ^ Z.max 0 (- t)
  /\ n * 2 ^ Z.max 0 (- (t + 1)) < d * 2 ^ Z.max 0 (t + 1).
Proof.
  intros Hn Hd.
  destruct (Z.log2_spec n Hn) as [Ha1 Ha2].
  destruct (Z.log2_spec d Hd) as [Hb1 Hb2].
  pose proof (Z.log2_nonneg n) as Ha. pose proof (Z.log2_nonneg d) as Hb.
  set (a := Z.log2 n) in *. set (b := Z.log2 d) in *.
  rewrite <- Z.add_1_r in Ha2, Hb2.
  assert (Hlow : d * 2 ^ Z.max 0 (a - b - 1)
                 <= n * 2 ^ Z.max 0 (- (a - b - 1))).
  { pose proof (pow2_shift (a - b - 1) (b + 1) ltac:(lia) ltac:(lia)) as E.
    replace (a - b - 1 + (b + 1)) with a in E by lia.
    pose proof (pow2_pos (a - b - 1)) as P1.
    pose proof (pow2_pos (- (a - b - 1))) as P2. nia. }
  assert (Hhigh : n * 2 ^ Z.max 0 (- (a - b + 1))
                  < d * 2 ^ Z.max 0 (a - b + 1)).
  { pose proof (pow2_shift (a - b + 1) b ltac:(lia) ltac:(lia)) as E.
    replace (a - b + 1 + b) with (a + 1) in E by lia.
    pose proof (pow2_pos (a - b + 1)) as P1.
    pose proof (pow2_pos (- (a - b + 1))) as P2. nia. }
  unfold float_exponent. fold a b. cbv zeta.
  destruct (Z.ltb_spec (n * 2 ^ Z.max 0 (- (a - b)))
              (d * 2 ^ Z.max 0 (a - b))) as [H | H].
  - replace (a - b - 1 - 52 + 52) with (a - b - 1) by lia.
    replace (a - b - 1 + 1) with (a - b) by lia. split; assumption.
  - replace (a - b - 52 + 52) with (a - b) by lia. split; assumption.
Qed.

(** The significand and the exponent that [float_of_quotient] computes. *)
Lemma float_parts (n d : Z) :
  0 < n -> 0 < d ->
  let e := float_exponent n d in
  let k := Z.max 0 e in
  let j := Z.max 0 (- e) in
  let m := round_half_even (n * 2 ^ j) (d * 2 ^ k) in
  2 ^ 52 * (d * 2 ^ k) <= n * 2 ^ j < 2 ^ 53 * (d * 2 ^ k)
  /\ 2 * Z.abs (m * (d * 2 ^ k) - n * 2 ^ j) <= d * 2 ^ k
  /\ (2 * Z.abs (m * (d * 2 ^ k) - n * 2 ^ j) = d * 2 ^ k ->
      Z.even m = true).
Proof.
  intros Hn Hd e k j m.
  pose proof (pow2_pos e) as Pk. pose proof (pow2_pos (- e)) as Pj.
  fold k in Pk. fold j in Pj.
  destruct (float_exponent_spec n d Hn Hd) as [Hlow Hhigh].
  fold e in Hlow, Hhigh.
  pose proof (pow2_pos (e + 52)) as P1.
  pose proof (pow2_pos (- (e + 52))) as P2.
  pose proof (pow2_pos (e + 52 + 1)) as P3.
  pose proof (pow2_pos (- (e + 52 + 1))) as P4.
  pose proof (pow2_step e 52 ltac:(lia)) as S1.
  pose proof (pow2_step e 53 ltac:(lia)) as S2.
  replace (e + 53) with (e + 52 + 1) in S2 by lia.
  fold k j in S1, S2.
  split; [split |].
  - apply (Z.mul_le_mono_pos_r _ _ (2 ^ Z.max 0 (- (e + 52)))); [exact P2 |].
    nia.
  - apply (Z.mul_lt_mono_pos_r (2 ^ Z.max 0 (- (e + 52 + 1)))); [exact P4 |].
    nia.
  - apply round_half_even_nearest. nia.
Qed.

Lemma float_of_quotient_nearest (n d : Z) (x : Q) :
  0 < n -> 0 < d ->
  float_of_quotient n d = Some x -> nearest_float n d x.
Proof.
  intros Hn Hd. pose proof (float_parts n d Hn Hd) as H.
  unfold float_of_quotient. cbv zeta in *.
  destruct (2 ^ 1024 <=? _)%Z; [discriminate |].
  intros Hx. inversion Hx; subst x. clear Hx.
  destruct H as (H1 & H2 & H3).
  eexists _, (Z.max 0 (float_exponent n d)),
    (Z.max 0 (- float_exponent n d)).
  split; [lia |]. split; [lia |]. split; [exact H1 |].
  split; [exact H2 |]. split; [exact H3 |]. apply Qred_correct.
Qed.

(** The quotient of an integer below [2^1024] is within the floats. *)
Lemma float_of_quotient_defined (n d : Z) :
  0 < n < 2 ^ 1024 -> 2 <= d ->
  exists x, float_of_quotient n d = Some x.
Proof.
  intros [Hn Hb] Hd. pose proof (float_parts n d Hn ltac:(lia)) as H.
  unfold float_of_quotient. cbv zeta in *.
  set (e := float_exponent n d) in *.
  set (m := round_half_even _ _) in *.
  destruct H as ([H1 H1'] & H2 & _).
  pose proof (pow2_pos e) as Pk. pose proof (pow2_pos (- e)) as Pj.
  destruct (Z.leb_spec (2 ^ 1024) (m * 2 ^ Z.max 0 e)) as [Hover |];
    [exfalso | eauto].
  assert (B52 : 0 < 2 ^ 52) by reflexivity.
  assert (B53 : 2 ^ 53 + 1 < 2 ^ 1024) by reflexivity.
  destruct (Z.le_gt_cases e 0) as [He | He].
  - rewrite (Z.max_l 0 e) in * by lia. change (2 ^ 0) with 1 in *.
    rewrite !Z.mul_1_r in *.
    assert (Hm : m * d < (2 ^ 53 + 1) * d) by lia.
    apply Z.mul_lt_mono_pos_r in Hm; lia.
  - rewrite (Z.max_l 0 (- e)) in * by lia. change (2 ^ 0) with 1 in *.
    rewrite !Z.mul_1_r in *.
    set (K := 2 ^ Z.max 0 e) in *.
    assert (E : m * (d * K) = d * (m * K)) by ring.
    assert (HdK : d * K <= 2 ^ 52 * (d * K)) by nia.
    assert (H2d : 2 * (m * K) <= d * (m * K))
      by (apply Z.mul_le_mono_nonneg_r; lia).
    lia.
Qed.

Lemma ms_to_s_nearest (ms : Z) (x : Q) :
  ms_to_s ms = inr x -> seconds_of_ms ms x.
Proof.
  unfold ms_to_s, seconds_of_ms.
  destruct (Z.eqb_spec ms 0) as [-> | Hne].
  - intros H. inversion H. left. split; reflexivity.
  - destruct (float_of_quotient (Z.abs ms) 1000) as [y |] eqn:Hy;
      [| discriminate].
    apply float_of_quotient_nearest in Hy; [| lia | lia].
    destruct (Z.ltb_spec ms 0) as [Hneg | Hpos];
      intros H; inversion H; subst x; right.
    + right. split; [exact Hneg |].
      rewrite Z.abs_neq in Hy by lia.
      destruct Hy as (m & k & j & Hk & Hj & H1 & H2 & H3 & H4).
      exists m, k, j. split; [exact Hk |]. split; [exact Hj |].
      split; [exact H1 |]. split; [exact H2 |]. split; [exact H3 |].
      eapply Qeq_trans; [apply Qopp_opp | exact H4].
    + left. split; [lia |]. now rewrite Z.abs_eq in Hy by lia.
Qed.

Lemma ms_to_s_defined (ms : Z) :
  Z.abs ms < 2 ^ 1024 -> exists x, ms_to_s ms = inr x.
Proof.
  intros Hb. unfold ms_to_s.
  destruct (Z.eqb_spec ms 0) as [-> | Hne]; [eauto |].
  destruct (float_of_quotient_defined (Z.abs ms) 1000) as [y Hy];
    [lia | lia |].
  rewrite Hy. eauto.
Qed.

(** C7: when [preserve] is true and the copy has completed,
    [_download_file] next calls [get_file_info] on the remote source; when
    that returns a status, it divides the status's access and modification
    times, in milliseconds, by 1000, which gives the floats nearest to the
    quotients and raises [OverflowError] only for a time of magnitude
    [2^1024] or more; it calls [os.utime] on the local destination with
    these two floats; and when that returns, it calls [os.chmod] on the
    local destination with the status's permission, whose outcome is the
    outcome of the download.  An exception of one of these steps ends the
    download with it. *)
Theorem download_preserve_attributes
    (client : Client) (remote_src local_dst : string) (force : bool)
    (st st1 st2 : State) :
  download_guard local_dst force st = (st1, inr tt) ->
  download_copy client remote_src local_dst st1 = (st2, inr tt) ->
  let fetch := ClientGetFileInfo client remote_src in
  match handler _ fetch (world st2) with
  | (w3, inl e) =>
      _download_file client remote_src local_dst force true st
      = (after st2 w3 [EvCall fetch (inl e)], inl e)
  | (w3, inr status) =>
      (Z.abs (fs_access_time status) < 2 ^ 1024 ->
       exists atime, ms_to_s (fs_access_time status) = inr atime)
      /\ (Z.abs (fs_modification_time status) < 2 ^ 1024 ->
          exists mtime, ms_to_s (fs_modification_time status) = inr mtime)
      /\ match ms_to_s (fs_access_time status),
               ms_to_s (fs_modification_time status) with
         | inr atime, inr mtime =>
             seconds_of_ms (fs_access_time status) atime
             /\ seconds_of_ms (fs_modification_time status) mtime
             /\ let utime := OsUtime local_dst atime mtime in
                let chmod_ := OsChmod local_dst (fs_permission status) in
                match handler _ utime w3 with
                | (w4, inl e) =>
                    _download_file client remote_src local_dst force true st
                    = (after st2 w4
                         [EvCall fetch (inr status); EvCall utime (inl e)],
                       inl e)
                | (w4, inr u) =>
                    let (w5, r) := handler _ chmod_ w4 in
                    _download_file client remote_src local_dst force true st
                    = (after st2 w5
                         [EvCall fetch (inr status); EvCall utime (inr u);
                          EvCall chmod_ r], r)
                end
         | inl e, _ | inr _, inl e =>
             _download_file client remote_src local_dst force true st
             = (after st2 w3 [EvCall fetch (inr status)], inl e)
         end
  end.
Proof.
  intros Hguard Hcopy fetch.
  unfold _download_file.
  rewrite (bind_ok _ _ _ _ _ Hguard), (bind_ok _ _ _ _ _ Hcopy).
  unfold download_preserve, bind, call, of_result, after. fold fetch.
  destruct (handler _ fetch (world st2)) as [w3 [e | status]];
    [reflexivity |].
  split; [apply ms_to_s_defined |]. split; [apply ms_to_s_defined |].
  simpl.
  destruct (ms_to_s (fs_access_time status)) as [e | atime] eqn:Ha;
    [reflexivity |].
  destruct (ms_to_s (fs_modification_time status)) as [e | mtime] eqn:Hm;
    [reflexivity |].
  split; [now apply ms_to_s_nearest |]. split; [now apply ms_to_s_nearest |].
  simpl.
  destruct (handler _ (OsUtime _ _ _) w3) as [w4 [e | u]]; simpl;
    [now rewrite <- app_assoc |].
  destruct (handler _ (OsChmod _ _) w4) as [w5 r]; simpl.
  now rewrite <- !app_assoc.
Qed.

(** C8: [chown] splits its owner argument on [:]: ["bob:staff"] gives
    owner ["bob"] and group ["staff"], [":staff"] gives no owner and group
    ["staff"], ["bob"] gives owner ["bob"] and no group; an argument with
    more than one colon, such as ["a:b:c"], raises [ValueError] and the
    state is the one it started from: no client was resolved and no call
    was made. *)
Theorem chown_owner_parsing :
  (forall st,
     chown_owner_group "bob:staff" st = (st, inr (Some "bob", Some "staff"))
     /\ chown_owner_group ":staff" st = (st, inr (None, Some "staff"))
     /\ chown_owner_group "bob" st = (st, inr (Some "bob", None)))
  /\ (forall recursive paths st,
        chown (mkChownArgs recursive "bob:staff" paths) st
        = chown_paths recursive (Some "bob") (Some "staff") paths st
        /\ chown (mkChownArgs recursive ":staff" paths) st
           = chown_paths recursive None (Some "staff") paths st
        /\ chown (mkChownArgs recursive "bob" paths) st
           = chown_paths recursive (Some "bob") None paths st)
  /\ (forall args st,
        (1 < PyStr.count ":" (chown_owner args))%nat ->
        chown args st
        = (st, inl (ValueError ("Invalid owner and group pattern: "
                                  +:+ chown_owner args))))
  /\ PyStr.count ":" "a:b:c" = 2%nat.
Proof.
  split; [intros st; repeat split; reflexivity |].
  split; [intros recursive paths st; repeat split; reflexivity |].
  split; [exact chown_too_many_colons | reflexivity].
Qed.

(** *** The client cache *)

Lemma get_client_hit (k : option string) (c : Client) (st : State) :
  cache st !! k = Some c -> _get_client k st = (st, inr c).
Proof. intros H. unfold _get_client. now rewrite H. Qed.

(** A call of [_get_client] only constructs clients, keeps what the cache
    holds, and leaves its result in the cache. *)
Lemma get_client_inv (k : option string) (st st' : State) r :
  _get_client k st = (st', r) ->
  (exists evs, log st' = log st ++ evs /\ forallb init_event evs = true)
  /\ cache st ⊆ cache st'
  /\ (forall c, r = inr c -> cache st' !! k = Some c).
Proof.
  unfold _get_client.
  destruct (cache st !! k) as [c |] eqn:Hk.
  - intros H. inversion H; subst. split; [| split].
    + exists []. now rewrite app_nil_r.
    + reflexivity.
    + intros c' Hc. now inversion Hc; subst.
  - unfold Client_new, bind, call, ret. simpl.
    destruct (handler unit (ClientInit (next_client st) k) (world st))
      as [w' [e | []]]; simpl; intros H; inversion H; subst; simpl.
    + split; [| split].
      * now eexists.
      * reflexivity.
      * discriminate.
    + split; [| split].
      * now eexists.
      * now apply insert_subseteq.
      * intros c Hc. inversion Hc; subst. apply lookup_insert_eq.
Qed.

Lemma py_urlparse_ok (url : string) (parsed : ParseResult) (st : State) :
  urlparse url = inr parsed -> py_urlparse url st = (st, inr parsed).
Proof. intros H. unfold py_urlparse. now rewrite H. Qed.

Lemma py_urlparse_inv (url : string) (st st' : State) r :
  py_urlparse url st = (st', r) ->
  st' = st
  /\ match r with
     | inr parsed => urlparse url = inr parsed
     | inl e => exists msg, urlparse url = inl msg /\ e = ValueError msg
     end.
Proof.
  unfold py_urlparse. destruct (urlparse url) as [msg | parsed];
    intros H; inversion H; subst; split; eauto.
Qed.

Lemma client_for_url_scheme (url : string) (parsed : ParseResult)
    (p : option Z) (st : State) :
  urlparse url = inr parsed ->
  PyStr.truthy (scheme parsed) = true ->
  port parsed = inr p ->
  _client_for_url url st = _get_client (Some (connection_url parsed p)) st.
Proof.
  intros Hu Hs Hp. unfold _client_for_url.
  rewrite (bind_ok _ _ _ _ _ (py_urlparse_ok _ _ st Hu)), Hs.
  unfold bind, get_port. now rewrite Hp.
Qed.

Lemma client_for_url_default (url : string) (parsed : ParseResult)
    (st : State) :
  urlparse url = inr parsed ->
  no_endpoint parsed = true ->
  _client_for_url url st = _get_client None st.
Proof.
  intros Hu Hn. unfold _client_for_url.
  rewrite (bind_ok _ _ _ _ _ (py_urlparse_ok _ _ st Hu)).
  unfold no_endpoint in Hn.
  apply andb_prop in Hn as [Hn Hp]. apply andb_prop in Hn as [Hs Hh].
  apply negb_true_iff in Hs, Hh. rewrite Hs, Hh.
  unfold bind, get_port.
  destruct (port parsed) as [msg | p]; [discriminate |].
  apply negb_true_iff in Hp. simpl. now rewrite Hp.
Qed.

(** Resolving a URL only constructs clients and keeps what the cache
    holds. *)
Lemma client_for_url_inv (url : string) (st st' : State) r :
  _client_for_url url st = (st', r) ->
  (exists evs, log st' = log st ++ evs /\ forallb init_event evs = true)
  /\ cache st ⊆ cache st'.
Proof.
  assert (Hsame : forall (e : Exn),
             (st, @inl Exn Client e) = (st', r) ->
             (exists evs, log st' = log st ++ evs
                          /\ forallb init_event evs = true)
             /\ cache st ⊆ cache st').
  { intros e H. inversion H; subst. split; [| reflexivity].
    exists []. now rewrite app_nil_r. }
  unfold _client_for_url, bind, py_urlparse, get_port, raise, ret.
  destruct (urlparse url) as [msg | parsed]; [apply Hsame |].
  destruct (PyStr.truthy (scheme parsed)).
  - destruct (port parsed) as [msg | p]; [apply Hsame |].
    intros H. apply get_client_inv in H as (Hl & Hc & _). now split.
  - destruct (hostname_truthy (hostname parsed)); [apply Hsame |].
    destruct (port parsed) as [msg | p]; [apply Hsame |].
    destruct (port_truthy p); [apply Hsame |].
    intros H. apply get_client_inv in H as (Hl & Hc & _). now split.
Qed.

(** C1: when two URLs have a scheme and give the same connection string
    (scheme://host, then :port when the port counts as present), and
    resolving the first returned a client, resolving the second in any
    later state (one whose cache still holds what the first left, the
    state right after it included) returns that same client object and
    constructs nothing; and likewise two URLs without scheme, host and
    port both resolve to the one default client. *)
Theorem client_for_url_cached :
  (forall url1 url2 parsed1 parsed2 p1 p2 st st1 c,
     urlparse url1 = inr parsed1 -> urlparse url2 = inr parsed2 ->
     PyStr.truthy (scheme parsed1) = true ->
     PyStr.truthy (scheme parsed2) = true ->
     port parsed1 = inr p1 -> port parsed2 = inr p2 ->
     connection_url parsed1 p1 = connection_url parsed2 p2 ->
     _client_for_url url1 st = (st1, inr c) ->
     forall st2, cache st1 ⊆ cache st2 ->
                 _client_for_url url2 st2 = (st2, inr c))
  /\ (forall url1 url2 parsed1 parsed2 st st1 c,
        urlparse url1 = inr parsed1 -> urlparse url2 = inr parsed2 ->
        no_endpoint parsed1 = true -> no_endpoint parsed2 = true ->
        _client_for_url url1 st = (st1, inr c) ->
        forall st2, cache st1 ⊆ cache st2 ->
                    _client_for_url url2 st2 = (st2, inr c)).
Proof.
  split.
  - intros url1 url2 parsed1 parsed2 p1 p2 st st1 c Hu1 Hu2 Hs1 Hs2 Hp1 Hp2
      Heq H1 st2 Hsub.
    rewrite (client_for_url_scheme _ _ _ _ Hu1 Hs1 Hp1) in H1.
    rewrite (client_for_url_scheme _ _ _ _ Hu2 Hs2 Hp2), <- Heq.
    apply get_client_inv in H1 as (_ & _ & Hc).
    apply get_client_hit.
    eapply lookup_weaken; [apply Hc; reflexivity | exact Hsub].
  - intros url1 url2 parsed1 parsed2 st st1 c Hu1 Hu2 Hn1 Hn2 H1 st2 Hsub.
    rewrite (client_for_url_default _ _ _ Hu1 Hn1) in H1.
    rewrite (client_for_url_default _ _ _ Hu2 Hn2).
    apply get_client_inv in H1 as (_ & _ & Hc).
    apply get_client_hit.
    eapply lookup_weaken; [apply Hc; reflexivity | exact Hsub].
Qed.

(** *** Name services *)

Lemma verify_unfold (url : string) (urls : list string)
    (first : ParseResult) (st : State) :
  urlparse url = inr first ->
  _verify_nameservices_match url urls st
  = for_each urls (verify_one first) st.
Proof.
  intros H. unfold _verify_nameservices_match.
  now rewrite (bind_ok _ _ _ _ _ (py_urlparse_ok _ _ st H)).
Qed.

(** The check touches nothing and raises nothing but [ValueError]. *)
Lemma verify_loop_inv (first : ParseResult) (urls : list string)
    (st st' : State) r :
  for_each urls (verify_one first) st = (st', r) ->
  st' = st /\ (forall e, r = inl e -> exists msg, e = ValueError msg).
Proof.
  revert st st' r. induction urls as [| u urls IH]; intros st st' r; simpl.
  - intros H. inversion H; subst. split; [reflexivity | discriminate].
  - unfold bind at 1. unfold verify_one at 1.
    unfold bind, py_urlparse, raise, ret.
    destruct (urlparse u) as [msg | parsed].
    + intros H. inversion H; subst. split; [reflexivity |].
      intros e He. inversion He; subst. now eexists.
    + destruct (decide _).
      * intros H. inversion H; subst. split; [reflexivity |].
        intros e He. inversion He; subst. now eexists.
      * apply IH.
Qed.

Lemma verify_inv (url : string) (urls : list string) (st st' : State) r :
  _verify_nameservices_match url urls st = (st', r) ->
  st' = st /\ (forall e, r = inl e -> exists msg, e = ValueError msg).
Proof.
  unfold _verify_nameservices_match, bind at 1. unfold py_urlparse.
  destruct (urlparse url) as [msg | first]; simpl.
  - intros H. inversion H; subst. split; [reflexivity |].
    intros e He. inversion He; subst. now eexists.
  - apply verify_loop_inv.
Qed.

(** URLs with the scheme and the host of the first one pass, whatever
    their ports. *)
Lemma verify_loop_pass (first : ParseResult) (urls : list string)
    (st : State) :
  Forall (fun u => exists parsed,
              urlparse u = inr parsed
              /\ scheme first = scheme parsed
              /\ hostname first = hostname parsed) urls ->
  for_each urls (verify_one first) st = (st, inr tt).
Proof.
  induction 1 as [| u urls (parsed & Hu & Hs & Hh) _ IH]; simpl;
    [reflexivity |].
  unfold bind at 1. unfold verify_one at 1.
  rewrite (bind_ok _ _ _ _ _ (py_urlparse_ok _ _ st Hu)).
  destruct (decide _) as [[Hne | Hne] |]; [contradiction.. |].
  exact IH.
Qed.

Lemma string_app_assoc (a b c : string) :
  (a +:+ b) +:+ c = a +:+ (b +:+ c).
Proof.
  induction a as [| ch a IH]; [reflexivity |].
  change (String ch ((a +:+ b) +:+ c) = String ch (a +:+ (b +:+ c))).
  now rewrite IH.
Qed.

(** A URL of another name service stops the check: with [ValueError] in
    any case, and with the message that names the two services when the
    URLs before it parse. *)
Lemma verify_loop_mismatch (first : ParseResult) (urls : list string)
    (st : State) :
  (exists u parsed, In u urls /\ urlparse u = inr parsed
                    /\ nameservice_differs first parsed) ->
  exists msg,
    for_each urls (verify_one first) st = (st, inl (ValueError msg))
    /\ (Forall (fun u => exists parsed, urlparse u = inr parsed) urls ->
        exists u parsed,
          In u urls /\ urlparse u = inr parsed
          /\ nameservice_differs first parsed
          /\ msg = "Protocol and host must match: "
                   +:+ scheme first +:+ "://"
                   +:+ match hostname first with
                       | Some host => host
                       | None => "None"
                       end
                   +:+ " != "
                   +:+ scheme parsed +:+ "://"
                   +:+ match hostname parsed with
                       | Some host => host
                       | None => "None"
                       end).
Proof.
  induction urls as [| u urls IH]; intros (u0 & p0 & Hin & Hu0 & Hd).
  - destruct Hin.
  - simpl. unfold bind at 1. unfold verify_one at 1.
    unfold bind, py_urlparse, raise, ret.
    destruct (urlparse u) as [msg | parsed] eqn:Hu.
    + exists msg. split; [reflexivity |].
      intros Hall. inversion Hall as [| ? ? (q & Hq) _]; subst.
      congruence.
    + destruct (decide _) as [Hne | Heq].
      * eexists. split; [reflexivity |].
        intros _. exists u, parsed. repeat split; auto.
        unfold nameservice, PyStr.fmt_opt.
        now rewrite <- !string_app_assoc.
      * destruct Hin as [-> | Hin].
        { exfalso. apply Heq. rewrite Hu in Hu0. now inversion Hu0; subst. }
        destruct IH as (msg & Hrun & Hmsg); [now exists u0, p0 |].
        exists msg. split; [exact Hrun |].
        intros Hall. inversion Hall; subst.
        destruct Hmsg as (u1 & p1 & Hin1 & Hrest); [assumption |].
        exists u1, p1. split; [now right | exact Hrest].
Qed.

(** C4: when some source URL of [mv] has a scheme or a host that differs
    from the destination's, [mv] raises [ValueError] and the state is the
    one it started from: no client was resolved and no [rename] or other
    call was made; when all the sources parse, the message is
    [Protocol and host must match: ] followed by the scheme, [://] and the
    host of the destination, then [ != ], then the scheme, [://] and the
    host of a source that differs (a URL without host shows as [None]).
    URLs with the scheme and the host of the first one pass the check
    whatever their ports. *)
Theorem mv_nameservice_mismatch :
  (forall args st first,
     urlparse (mv_dst args) = inr first ->
     (exists u parsed, In u (mv_src args) /\ urlparse u = inr parsed
                       /\ nameservice_differs first parsed) ->
     exists msg,
       mv args st = (st, inl (ValueError msg))
       /\ (Forall (fun u => exists parsed, urlparse u = inr parsed)
             (mv_src args) ->
           exists u parsed,
             In u (mv_src args) /\ urlparse u = inr parsed
             /\ nameservice_differs first parsed
             /\ msg = "Protocol and host must match: "
                      +:+ scheme first +:+ "://"
                      +:+ match hostname first with
                          | Some host => host
                          | None => "None"
                          end
                      +:+ " != "
                      +:+ scheme parsed +:+ "://"
                      +:+ match hostname parsed with
                          | Some host => host
                          | None => "None"
                          end))
  /\ (forall url urls st first,
        urlparse url = inr first ->
        Forall (fun u => exists parsed,
                    urlparse u = inr parsed
                    /\ scheme first = scheme parsed
                    /\ hostname first = hostname parsed) urls ->
        _verify_nameservices_match url urls st = (st, inr tt)).
Proof.
  split.
  - intros args st first Hdst Hex.
    destruct (verify_loop_mismatch first (mv_src args) st Hex)
      as (msg & Hrun & Hmsg).
    exists msg. split; [| exact Hmsg].
    unfold mv. apply bind_raise.
    now rewrite (verify_unfold _ _ _ _ Hdst).
  - intros url urls st first Hu Hall.
    rewrite (verify_unfold _ _ _ _ Hu). now apply verify_loop_pass.
Qed.

(** *** Histories of runs *)

Lemma emits_conseq {A : Type} (m : M A)
    (P Q : list Event -> Exn + A -> Prop) :
  emits m P -> (forall evs r, P evs r -> Q evs r) -> emits m Q.
Proof.
  intros Hm HPQ st st' r Hrun.
  destruct (Hm _ _ _ Hrun) as (evs & Hlog & HP). eauto.
Qed.

Lemma emits_and {A : Type} (m : M A)
    (P Q : list Event -> Exn + A -> Prop) :
  emits m P -> emits m Q -> emits m (fun evs r => P evs r /\ Q evs r).
Proof.
  intros HP HQ st st' r Hrun.
  destruct (HP _ _ _ Hrun) as (evs & Hlog & HP').
  destruct (HQ _ _ _ Hrun) as (evs' & Hlog' & HQ').
  rewrite Hlog in Hlog'. apply app_inv_head in Hlog'. subst evs'. eauto.
Qed.

Lemma emits_ret {A : Type} (a : A) :
  emits (ret a) (fun evs r => evs = [] /\ r = inr a).
Proof.
  intros st st' r H. inversion H; subst.
  exists []. now rewrite app_nil_r.
Qed.

Lemma emits_raise {A : Type} (e : Exn) :
  emits (@raise _ A e) (fun evs r => evs = [] /\ r = inl e).
Proof.
  intros st st' r H. inversion H; subst.
  exists []. now rewrite app_nil_r.
Qed.

Lemma emits_call {R : Type} (op : Op R) :
  emits (call op) (fun evs r => evs = [EvCall op r]).
Proof.
  intros st st' r H. apply call_inv in H as (w' & _ & ->). simpl. eauto.
Qed.

Lemma emits_bind {A B : Type} (m : M A) (k : A -> M B)
    (P : list Event -> Exn + A -> Prop)
    (Q : A -> list Event -> Exn + B -> Prop)
    (R : list Event -> Exn + B -> Prop) :
  emits m P -> (forall a, emits (k a) (Q a)) ->
  (forall evs e, P evs (inl e) -> R evs (inl e)) ->
  (forall a evs1 evs2 r, P evs1 (inr a) -> Q a evs2 r -> R (evs1 ++ evs2) r) ->
  emits (bind m k) R.
Proof.
  intros Hm Hk Hraise Hseq st st' r Hrun.
  apply bind_inv in Hrun as [(e & Hrun & ->) | (st1 & a & Hrun & Hrun')].
  - destruct (Hm _ _ _ Hrun) as (evs & Hlog & HP). eauto.
  - destruct (Hm _ _ _ Hrun) as (evs1 & Hlog1 & HP).
    destruct (Hk a _ _ _ Hrun') as (evs2 & Hlog2 & HQ).
    exists (evs1 ++ evs2). split; [| eauto].
    now rewrite Hlog2, Hlog1, app_assoc.
Qed.

Lemma emits_try {A : Type} (m : M A) (P : list Event -> Exn + A -> Prop) :
  emits m P ->
  emits (try_ m) (fun evs r => exists r0, r = inr r0 /\ P evs r0).
Proof.
  intros Hm st st' r Hrun. unfold try_ in Hrun.
  destruct (m st) as [st1 r0] eqn:Hm0. inversion Hrun; subst.
  destruct (Hm _ _ _ Hm0) as (evs & Hlog & HP). eauto.
Qed.

Lemma emits_client_for_url (url : string) :
  emits (_client_for_url url) (fun evs _ => forallb init_event evs = true).
Proof. intros st st' r H. now apply client_for_url_inv in H as [H _]. Qed.

Lemma emits_path_for_url (url : string) :
  emits (_path_for_url url)
    (fun evs r => evs = [] /\ forall p, r = inr p -> url_path url = Some p).
Proof.
  intros st st' r. unfold _path_for_url, bind, py_urlparse, url_path, ret.
  destruct (urlparse url) as [msg | parsed]; intros H; inversion H; subst;
    exists []; rewrite app_nil_r; repeat split; try discriminate.
  intros p Hp. now inversion Hp.
Qed.

(** A loop of calls that ran to its end made each call once, in order;
    one that raised raised what a call raised. *)
Lemma emits_for_each_calls {A : Type} (f : A -> Op unit) (l : list A) :
  (forall x v, stream_error (f x) v = []) ->
  emits (for_each l (fun x => call (f x)))
    (fun evs r => (r = inr tt -> evs = returned f l)
                  /\ (forall e, r = inl e -> In e (raised_in evs))).
Proof.
  intros Hf. induction l as [| x l IH]; simpl.
  - eapply emits_conseq; [apply emits_ret |].
    intros evs r [H1 H2]; subst. split; [reflexivity | discriminate].
  - eapply emits_bind; [apply emits_call | intros ?; exact IH | |].
    + intros evs e H. split; [discriminate |].
      intros e' He. inversion He; subst. rewrite H. cbn. auto.
    + intros [] evs1 evs2 r H [Hok Hex]; subst. split.
      * intros Hr. now rewrite (Hok Hr).
      * intros e He. cbn. rewrite Hf. now apply Hex.
Qed.

(** Loops and sequences whose steps emit only events of one kind emit only
    events of that kind. *)
Lemma only_bind {A B : Type} (ok : Event -> bool) (m : M A) (k : A -> M B) :
  emits m (fun evs _ => forallb ok evs = true) ->
  (forall a, emits (k a) (fun evs _ => forallb ok evs = true)) ->
  emits (bind m k) (fun evs _ => forallb ok evs = true).
Proof.
  intros Hm Hk. eapply emits_bind; [exact Hm | exact Hk | auto |].
  intros a evs1 evs2 r H1 H2. rewrite forallb_app. now rewrite H1, H2.
Qed.

Lemma only_ret {A : Type} (ok : Event -> bool) (a : A) :
  emits (ret a) (fun evs _ => forallb ok evs = true).
Proof. eapply emits_conseq; [apply emits_ret |]. intros evs r [H _]. now subst. Qed.

Lemma only_raise {A : Type} (ok : Event -> bool) (e : Exn) :
  emits (@raise _ A e) (fun evs _ => forallb ok evs = true).
Proof.
  eapply emits_conseq; [apply emits_raise |]. intros evs r [H _]. now subst.
Qed.

Lemma only_of_result {A : Type} (ok : Event -> bool) (r : Exn + A) :
  emits (of_result r) (fun evs _ => forallb ok evs = true).
Proof.
  intros st st' r' H. inversion H; subst.
  exists []. now rewrite app_nil_r.
Qed.

Lemma only_call {R : Type} (ok : Event -> bool) (op : Op R) :
  (forall r, ok (EvCall op r) = true) ->
  emits (call op) (fun evs _ => forallb ok evs = true).
Proof.
  intros Hok. eapply emits_conseq; [apply emits_call |].
  intros evs r H. cbv beta in H. subst. simpl. now rewrite Hok.
Qed.

Lemma only_for_each {A : Type} (ok : Event -> bool) (l : list A)
    (body : A -> M unit) :
  (forall x, emits (body x) (fun evs _ => forallb ok evs = true)) ->
  emits (for_each l body) (fun evs _ => forallb ok evs = true).
Proof.
  intros Hbody. induction l as [| x l IH]; simpl.
  - apply only_ret.
  - apply only_bind; [apply Hbody | intros _; exact IH].
Qed.

Lemma only_try {A : Type} (ok : Event -> bool) (m : M A) :
  emits m (fun evs _ => forallb ok evs = true) ->
  emits (try_ m) (fun evs _ => forallb ok evs = true).
Proof.
  intros Hm. eapply emits_conseq; [apply emits_try, Hm |].
  now intros evs r (r0 & _ & H).
Qed.

Lemma only_with {H A : Type} (ok : Event -> bool) (enter : M H)
    (exit : H -> M unit) (body : H -> M A) :
  emits enter (fun evs _ => forallb ok evs = true) ->
  (forall h, emits (exit h) (fun evs _ => forallb ok evs = true)) ->
  (forall h, emits (body h) (fun evs _ => forallb ok evs = true)) ->
  emits (with_ enter exit body) (fun evs _ => forallb ok evs = true).
Proof.
  intros Henter Hexit Hbody. unfold with_.
  apply only_bind; [exact Henter | intros h].
  apply only_bind; [apply only_try, Hbody | intros r].
  apply only_bind; [apply Hexit | intros _].
  destruct r; [apply only_raise | apply only_ret].
Qed.

Lemma only_for_stream (ok : Event -> bool) (s : Stream)
    (body : bytes -> M unit) :
  (forall x, emits (body x) (fun evs _ => forallb ok evs = true)) ->
  emits (for_stream s body) (fun evs _ => forallb ok evs = true).
Proof.
  intros Hbody. unfold for_stream.
  apply only_bind; [now apply only_for_each | intros _].
  destruct (snd s); [apply only_raise | apply only_ret].
Qed.

Lemma only_client_for_url (ok : Event -> bool) (url : string) :
  (forall ev, init_event ev = true -> ok ev = true) ->
  emits (_client_for_url url) (fun evs _ => forallb ok evs = true).
Proof.
  intros Hok. eapply emits_conseq; [apply emits_client_for_url |].
  intros evs r H. cbv beta in H. clear r.
  induction evs as [| ev evs IH]; [reflexivity |].
  simpl in *. apply andb_prop in H as [H1 H2].
  now rewrite (Hok _ H1), (IH H2).
Qed.

Lemma only_path_for_url (ok : Event -> bool) (url : string) :
  emits (_path_for_url url) (fun evs _ => forallb ok evs = true).
Proof.
  eapply emits_conseq; [apply emits_path_for_url |].
  intros evs r [H _]. now subst.
Qed.

(** *** Permissions and owners *)

Lemma init_silent (evs : list Event) :
  forallb init_event evs = true ->
  listings evs = [] /\ set_permission_calls evs = []
  /\ set_owner_calls evs = [] /\ rename_calls evs = []
  /\ file_infos evs = [].
Proof.
  induction evs as [| ev evs IH]; [now repeat split |].
  simpl. intros H. apply andb_prop in H as [H1 H2].
  destruct (IH H2) as (I1 & I2 & I3 & I4 & I5).
  unfold listings, set_permission_calls, set_owner_calls, rename_calls,
    file_infos in *. simpl.
  rewrite I1, I2, I3, I4, I5.
  destruct ev as [R op r |]; [| discriminate].
  destruct op; try discriminate. now repeat split.
Qed.

Lemma init_permission_is (permission : Z) (ev : Event) :
  init_event ev = true -> permission_is permission ev = true.
Proof.
  destruct ev as [R op r |]; [| discriminate].
  now destruct op.
Qed.

Lemma init_owner_group_is (owner group : option string) (ev : Event) :
  init_event ev = true -> owner_group_is owner group ev = true.
Proof.
  destruct ev as [R op r |]; [| discriminate].
  now destruct op.
Qed.

Lemma chmod_one_only (recursive : bool) (permission : Z) (url : string) :
  emits (chmod_one recursive permission url)
    (fun evs _ => forallb (permission_is permission) evs = true).
Proof.
  unfold chmod_one.
  apply only_bind;
    [apply only_client_for_url, init_permission_is | intros client].
  apply only_bind; [apply only_path_for_url | intros p].
  apply only_for_each. intros path. destruct recursive.
  - apply only_bind; [now apply only_call | intros statuses].
    apply only_for_each. intros status. apply only_call.
    intros r. simpl. apply Z.eqb_refl.
  - apply only_call. intros r. simpl. apply Z.eqb_refl.
Qed.

Lemma chown_one_only (recursive : bool) (owner group : option string)
    (url : string) :
  emits (chown_one recursive owner group url)
    (fun evs _ => forallb (owner_group_is owner group) evs = true).
Proof.
  unfold chown_one.
  apply only_bind;
    [apply only_client_for_url, init_owner_group_is | intros client].
  apply only_bind; [apply only_path_for_url | intros p].
  apply only_for_each. intros path. destruct recursive.
  - apply only_bind; [now apply only_call | intros statuses].
    apply only_for_each. intros status. apply only_call.
    intros r. simpl. now rewrite !bool_decide_eq_true_2.
  - apply only_call. intros r. simpl. now rewrite !bool_decide_eq_true_2.
Qed.

Lemma emits_for_each_singleton {A : Type} (body : A -> M unit) (x : A)
    (P : list Event -> Exn + unit -> Prop) :
  emits (body x) P -> emits (for_each [x] body) P.
Proof.
  intros Hbody. simpl.
  eapply emits_bind with
    (P := P) (Q := fun _ evs r => evs = [] /\ r = inr tt);
    [exact Hbody | intros ?; apply emits_ret | auto |].
  intros [] evs1 evs2 r H [H1 H2]. subst. now rewrite app_nil_r.
Qed.

Lemma listing_loop_completed (c : Client) (p : string) (permission : Z) :
  emits
    (bind (call (ClientListStatus c p true)) (fun statuses =>
       for_each statuses (fun status =>
         call (ClientSetPermission c (fs_path status) permission))))
    (fun evs r =>
       r = inr tt ->
       exists l,
         evs = EvCall (ClientListStatus c p true) (inr l)
                 :: returned (fun status =>
                      ClientSetPermission c (fs_path status) permission) l).
Proof.
  eapply emits_bind with
    (P := fun evs r => evs = [EvCall (ClientListStatus c p true) r])
    (Q := fun statuses evs r =>
            r = inr tt ->
            evs = returned (fun status =>
                    ClientSetPermission c (fs_path status) permission)
                    statuses).
  - apply emits_call.
  - intros statuses.
    eapply emits_conseq; [apply emits_for_each_calls; reflexivity |].
    now intros evs r [H _].
  - discriminate.
  - intros statuses evs1 evs2 r H1 H2 Hr. subst evs1.
    rewrite (H2 Hr). now exists statuses.
Qed.

Lemma chmod_one_completed (permission : Z) (url : string) :
  emits (chmod_one true permission url)
    (fun evs r => r = inr tt -> chmod_block permission url evs).
Proof.
  unfold chmod_one.
  eapply emits_bind with
    (P := fun evs _ => forallb init_event evs = true)
    (Q := fun client evs r =>
            r = inr tt ->
            exists p l,
              url_path url = Some p
              /\ evs = EvCall (ClientListStatus client p true) (inr l)
                         :: returned (fun status =>
                              ClientSetPermission client (fs_path status)
                                permission) l).
  - apply emits_client_for_url.
  - intros client.
    eapply emits_bind with
      (P := fun evs r =>
              evs = [] /\ forall p, r = inr p -> url_path url = Some p)
      (Q := fun p evs r =>
              r = inr tt ->
              exists l,
                evs = EvCall (ClientListStatus client p true) (inr l)
                        :: returned (fun status =>
                             ClientSetPermission client (fs_path status)
                               permission) l).
    + apply emits_path_for_url.
    + intros p. apply emits_for_each_singleton, listing_loop_completed.
    + discriminate.
    + intros p evs1 evs2 r [H1 Hp] H2 Hr. subst evs1.
      destruct (H2 Hr) as (l & ->). exists p, l. split; [| reflexivity].
      now apply Hp.
  - discriminate.
  - intros client evs1 evs2 r H1 H2 Hr.
    destruct (H2 Hr) as (p & l & Hp & ->).
    now exists evs1, client, p, l.
Qed.

Lemma chmod_paths_completed (permission : Z) (paths : list string) :
  emits (chmod_paths true permission paths)
    (fun evs r =>
       r = inr tt ->
       exists blocks,
         Forall2 (chmod_block permission) paths blocks
         /\ evs = List.concat blocks).
Proof.
  unfold chmod_paths. induction paths as [| url paths IH]; simpl.
  - eapply emits_conseq; [apply emits_ret |].
    intros evs r [-> _] _. exists []. split; [constructor | reflexivity].
  - eapply emits_bind with
      (P := fun evs r => r = inr tt -> chmod_block permission url evs);
      [apply chmod_one_completed | intros ?; exact IH | discriminate |].
    intros [] evs1 evs2 r H1 H2 Hr.
    destruct (H2 Hr) as (blocks & Hb & ->).
    exists (evs1 :: blocks). split; [| reflexivity].
    constructor; [now apply H1 | exact Hb].
Qed.

Lemma chmod_paths_only (recursive : bool) (permission : Z)
    (paths : list string) :
  emits (chmod_paths recursive permission paths)
    (fun evs _ => forallb (permission_is permission) evs = true).
Proof. apply only_for_each. intros url. apply chmod_one_only. Qed.

Lemma chown_paths_only (recursive : bool) (owner group : option string)
    (paths : list string) :
  emits (chown_paths recursive owner group paths)
    (fun evs _ => forallb (owner_group_is owner group) evs = true).
Proof. apply only_for_each. intros url. apply chown_one_only. Qed.

Lemma returned_set_permission (c : Client) (permission : Z)
    (l : list FileStatus) :
  set_permission_calls
    (returned (fun status =>
       ClientSetPermission c (fs_path status) permission) l)
  = map (fun status => (c, fs_path status, permission)) l
  /\ listings
       (returned (fun status =>
          ClientSetPermission c (fs_path status) permission) l) = [].
Proof.
  induction l as [| x l [IH1 IH2]]; [now split |].
  unfold set_permission_calls, listings in *. simpl.
  now rewrite IH1, IH2.
Qed.

Lemma listings_app (a b : list Event) :
  listings (a ++ b) = listings a ++ listings b.
Proof. apply flat_map_app. Qed.

Lemma set_permission_calls_app (a b : list Event) :
  set_permission_calls (a ++ b)
  = set_permission_calls a ++ set_permission_calls b.
Proof. apply flat_map_app. Qed.

(** In the history of a completed recursive [chmod], the listings are
    those of the URLs' paths, in order, and the [set_permission] calls
    are those that apply the mode to every entry of them. *)
Lemma chmod_blocks_calls (permission : Z) (paths : list string)
    (blocks : list (list Event)) :
  Forall2 (chmod_block permission) paths blocks ->
  set_permission_calls (List.concat blocks)
  = permission_on_listings permission (List.concat blocks)
  /\ Forall2 (fun url x =>
                match x with
                | (_, p, recursive, _) =>
                    url_path url = Some p /\ recursive = true
                end) paths (listings (List.concat blocks)).
Proof.
  induction 1 as [| url evs paths blocks Hblock _ [IH1 IH2]];
    [split; [reflexivity | constructor] |].
  destruct Hblock as (init & c & p & l & Hinit & Hp & ->).
  destruct (init_silent _ Hinit) as (I1 & I2 & _).
  destruct (returned_set_permission c permission l) as [R1 R2].
  unfold permission_on_listings in *. simpl List.concat.
  rewrite !set_permission_calls_app, !listings_app.
  match goal with
  | |- context [set_permission_calls (?e :: ?r)] =>
      change (set_permission_calls (e :: r)) with (set_permission_calls r);
      change (listings (e :: r)) with ((c, p, true, l) :: listings r)
  end.
  rewrite I1, I2, R1, R2, IH1. simpl.
  split; [reflexivity |]. now constructor.
Qed.

Lemma log_delta_unique (st st' : State) (a b : list Event) :
  log st' = log st ++ a -> log st' = log st ++ b -> a = b.
Proof. intros Ha Hb. rewrite Ha in Hb. now apply app_inv_head in Hb. Qed.

Lemma log_delta_nil (st : State) (a : list Event) :
  log st = log st ++ a -> a = [].
Proof.
  intros H. symmetry. apply (log_delta_unique st st); [| exact H].
  now rewrite app_nil_r.
Qed.

Lemma owner_group_is_calls (owner group : option string)
    (evs : list Event) :
  forallb (owner_group_is owner group) evs = true ->
  Forall (fun x => match x with
                   | (_, _, o, g) => o = owner /\ g = group
                   end) (set_owner_calls evs).
Proof.
  induction evs as [| ev evs IH]; [constructor |].
  simpl. intros H. apply andb_prop in H as [H1 H2].
  specialize (IH H2). unfold set_owner_calls in *. simpl.
  destruct ev as [R op r |]; [| exact IH].
  destruct op; try exact IH.
  simpl in H1. apply andb_prop in H1 as [Ho Hg].
  apply bool_decide_eq_true_1 in Ho, Hg. now constructor.
Qed.

Lemma permission_is_calls (permission : Z) (evs : list Event) :
  forallb (permission_is permission) evs = true ->
  Forall (fun x => snd x = permission) (set_permission_calls evs).
Proof.
  induction evs as [| ev evs IH]; [constructor |].
  simpl. intros H. apply andb_prop in H as [H1 H2].
  specialize (IH H2). unfold set_permission_calls in *. simpl.
  destruct ev as [R op r |]; [| exact IH].
  destruct op; try exact IH.
  simpl in H1. apply Z.eqb_eq in H1. now constructor.
Qed.

Lemma permission_on_listings_app (permission : Z) (a b : list Event) :
  permission_on_listings permission (a ++ b)
  = permission_on_listings permission a
    ++ permission_on_listings permission b.
Proof.
  unfold permission_on_listings. now rewrite listings_app, flat_map_app.
Qed.

(** The loop over a listing, in every run: the mode is set on the first
    entries, in order; on all of them when the loop ran to its end. *)
Lemma set_permission_loop_runs (c : Client) (permission : Z)
    (l : list FileStatus) :
  emits
    (for_each l (fun status =>
       call (ClientSetPermission c (fs_path status) permission)))
    (fun evs r =>
       listings evs = []
       /\ exists k,
            set_permission_calls evs
            = map (fun status => (c, fs_path status, permission)) (take k l)
            /\ (r = inr tt -> take k l = l)).
Proof.
  induction l as [| status l IH]; simpl.
  - eapply emits_conseq; [apply emits_ret |].
    intros evs r [-> _]. split; [reflexivity |]. now exists 0%nat.
  - eapply emits_bind with
      (P := fun evs r =>
              evs = [EvCall (ClientSetPermission c (fs_path status)
                               permission) r]);
      [apply emits_call | intros ?; exact IH | |].
    + intros evs e ->. split; [reflexivity |]. exists 1%nat.
      split; [reflexivity | discriminate].
    + intros [] evs1 evs2 r -> (Hl & k & Hc & Hk).
      split; [exact Hl |]. exists (S k). split.
      * simpl. unfold set_permission_calls in *. simpl. now rewrite Hc.
      * intros Hr. simpl. now rewrite (Hk Hr).
Qed.

(** One URL of a recursive [chmod], in every run. *)
Lemma chmod_one_runs (permission : Z) (url : string) :
  emits (chmod_one true permission url)
    (fun evs r =>
       (listings evs = [] /\ set_permission_calls evs = []
        /\ exists e, r = inl e)
       \/ exists c p l k,
            url_path url = Some p
            /\ listings evs = [(c, p, true, l)]
            /\ set_permission_calls evs
               = map (fun status => (c, fs_path status, permission))
                   (take k l)
            /\ (r = inr tt -> take k l = l)).
Proof.
  unfold chmod_one.
  set (J := fun (evs : list Event) (r : Exn + unit) =>
       (listings evs = [] /\ set_permission_calls evs = []
        /\ exists e, r = inl e)
       \/ exists c p l k,
            url_path url = Some p
            /\ listings evs = [(c, p, true, l)]
            /\ set_permission_calls evs
               = map (fun status => (c, fs_path status, permission))
                   (take k l)
            /\ (r = inr tt -> take k l = l)).
  eapply emits_bind with
    (P := fun evs _ => forallb init_event evs = true) (Q := fun _ => J);
    [apply emits_client_for_url | intros client | |].
  - eapply emits_bind with
      (P := fun evs r =>
              evs = [] /\ forall p, r = inr p -> url_path url = Some p)
      (Q := fun p evs r => url_path url = Some p -> J evs r);
      [apply emits_path_for_url | intros p | |].
    + apply emits_for_each_singleton.
      eapply emits_bind with
        (P := fun evs r => evs = [EvCall (ClientListStatus client p true) r])
        (Q := fun statuses evs r =>
                listings evs = []
                /\ exists k,
                     set_permission_calls evs
                     = map (fun status =>
                              (client, fs_path status, permission))
                         (take k statuses)
                     /\ (r = inr tt -> take k statuses = statuses));
        [apply emits_call | intros statuses; apply set_permission_loop_runs
        | |].
      * intros evs e -> _. left. repeat split. eauto.
      * intros statuses evs1 evs2 r -> (Hl & k & Hc & Hk) Hp.
        right. exists client, p, statuses, k. split; [exact Hp |].
        rewrite listings_app, set_permission_calls_app, Hl.
        repeat split; assumption.
    + intros evs e [-> _]. left. repeat split. eauto.
    + intros p evs1 evs2 r [-> Hp] H. apply H. now apply Hp.
  - intros evs e Hi. destruct (init_silent _ Hi) as (I1 & I2 & _).
    left. repeat split; eauto.
  - intros client evs1 evs2 r Hi H.
    destruct (init_silent _ Hi) as (I1 & I2 & _).
    destruct H as [(H1 & H2 & H3) | (c & p & l & k & Hp & H1 & H2 & H3)].
    + left. rewrite listings_app, set_permission_calls_app, I1, I2.
      repeat split; assumption.
    + right. exists c, p, l, k.
      rewrite listings_app, set_permission_calls_app, I1, I2.
      repeat split; assumption.
Qed.

(** The loop of a recursive [chmod] over its URLs, in every run: the
    listings fetched are those of the paths of the first URLs, in order,
    and the mode is set on the first entries of these listings, in order;
    on all the entries of the listings of all the URLs when the loop ran
    to its end. *)
Lemma chmod_paths_runs (permission : Z) (paths : list string) :
  emits (chmod_paths true permission paths)
    (fun evs r =>
       Forall2 (fun url x =>
                  match x with
                  | (_, p, recursive, _) =>
                      url_path url = Some p /\ recursive = true
                  end)
         (take (List.length (listings evs)) paths) (listings evs)
       /\ exists rest,
            permission_on_listings permission evs
            = set_permission_calls evs ++ rest
            /\ (r = inr tt -> rest = [])).
Proof.
  unfold chmod_paths. induction paths as [| url paths IH]; simpl.
  - eapply emits_conseq; [apply emits_ret |].
    intros evs r [-> _]. split; [constructor |]. now exists [].
  - eapply emits_bind;
      [apply chmod_one_runs | intros ?; exact IH | |].
    + intros evs e [(H1 & H2 & _) | (c & p & l & k & Hp & H1 & H2 & _)].
      * rewrite H1. split; [constructor |]. exists [].
        unfold permission_on_listings. rewrite H1, H2.
        split; [reflexivity | discriminate].
      * rewrite H1. split; [simpl; now repeat constructor |].
        exists (map (fun status => (c, fs_path status, permission))
                  (drop k l)).
        unfold permission_on_listings. rewrite H1, H2. simpl.
        rewrite app_nil_r, <- map_app, take_drop.
        split; [reflexivity | discriminate].
    + intros [] evs1 evs2 r
        [(_ & _ & e & He) | (c & p & l & k & Hp & H1 & H2 & Hk)]
        (Hall & rest & Hrest & Hr); [discriminate |].
      rewrite listings_app, H1. split; [simpl; now constructor |].
      exists rest. split; [| exact Hr].
      rewrite permission_on_listings_app, set_permission_calls_app, Hrest.
      rewrite <- app_assoc. f_equal.
      unfold permission_on_listings. rewrite H1, H2, (Hk eq_refl). simpl.
      now rewrite app_nil_r.
Qed.

(** C6: in every run of a recursive [chmod], each [set_permission] call
    carries the parsed mode, the listings fetched are those of
    [list_status(path, True)] for the paths of the first URLs, in order,
    and the [set_permission] calls are made, in order, on the entries of
    these listings, whether an entry is a file or a directory: they are a
    prefix of the calls that set the mode on every entry.  When the run
    completes, the listings are those of all the URLs and the calls are
    exactly one on the path of every entry of them.  No call is made but
    on the entries of the listings: the path itself gets the mode only
    when the client lists it. *)
Theorem chmod_recursive_applies_mode
    (args : ChmodArgs) (st st' : State) (r : Exn + unit)
    (evs : list Event) :
  chmod_recursive args = true ->
  chmod args st = (st', r) ->
  log st' = log st ++ evs ->
  (forall permission,
     int_base8 (chmod_octalmode args) = Some permission ->
     Forall (fun x => snd x = permission) (set_permission_calls evs)
     /\ exists rest,
          permission_on_listings permission evs
          = set_permission_calls evs ++ rest
          /\ (r = inr tt -> rest = []))
  /\ Forall2 (fun url x =>
                match x with
                | (_, p, recursive, _) =>
                    url_path url = Some p /\ recursive = true
                end)
       (take (List.length (listings evs)) (chmod_path args)) (listings evs)
  /\ (r = inr tt ->
      exists permission,
        int_base8 (chmod_octalmode args) = Some permission
        /\ set_permission_calls evs = permission_on_listings permission evs
        /\ Forall2 (fun url x =>
                      match x with
                      | (_, p, recursive, _) =>
                          url_path url = Some p /\ recursive = true
                      end) (chmod_path args) (listings evs)).
Proof.
  intros Hrec Hrun Hlog. unfold chmod in Hrun. rewrite Hrec in Hrun.
  destruct (Re.fullmatch octalmode_re (chmod_octalmode args)); simpl in Hrun.
  - destruct (int_base8 (chmod_octalmode args)) as [permission |].
    + destruct (chmod_paths_runs _ _ _ _ _ Hrun)
        as (evs' & Hlog' & Hall & rest & Hrest & Hr).
      rewrite <- (log_delta_unique _ _ _ _ Hlog Hlog') in *. clear evs' Hlog'.
      split; [| split; [exact Hall |]].
      * intros permission' Hp. inversion Hp; subst permission'.
        split; [| now exists rest].
        destruct (chmod_paths_only _ _ _ _ _ _ Hrun) as (evs' & Hlog' & H).
        rewrite (log_delta_unique _ _ _ _ Hlog Hlog').
        now apply permission_is_calls.
      * intros Hc. exists permission. split; [reflexivity |].
        destruct (chmod_paths_completed _ _ _ _ _ Hrun)
          as (evs' & Hlog' & H).
        rewrite (log_delta_unique _ _ _ _ Hlog Hlog').
        destruct (H Hc) as (blocks & Hb & ->).
        now apply chmod_blocks_calls.
    + inversion Hrun; subst. rewrite (log_delta_nil _ _ Hlog).
      split; [discriminate |]. split; [constructor | discriminate].
  - inversion Hrun; subst. rewrite (log_delta_nil _ _ Hlog).
    split; [| split; [constructor | discriminate]].
    intros permission _. split; [constructor |]. now exists [].
Qed.

(** C10: for an owner argument that is a non-empty owner without colon
    followed by one colon, such as ["bob:"], [chown] runs its loop with
    that owner and the empty string as group, so that every [set_owner]
    call it makes is given the empty group, not [None]; for the same owner
    written without the colon, the group is [None]. *)
Theorem chown_trailing_colon
    (owner : string) (recursive : bool) (paths : list string)
    (st : State) :
  PyStr.count ":" owner = 0%nat ->
  owner <> EmptyString ->
  (chown (mkChownArgs recursive (owner +:+ ":") paths) st
   = chown_paths recursive (Some owner) (Some EmptyString) paths st
   /\ forall st' r evs,
        chown (mkChownArgs recursive (owner +:+ ":") paths) st = (st', r) ->
        log st' = log st ++ evs ->
        Forall (fun x => match x with
                         | (_, _, o, g) => o = Some owner /\ g = Some EmptyString
                         end) (set_owner_calls evs))
  /\ (chown (mkChownArgs recursive owner paths) st
      = chown_paths recursive (Some owner) None paths st
      /\ forall st' r evs,
           chown (mkChownArgs recursive owner paths) st = (st', r) ->
           log st' = log st ++ evs ->
           Forall (fun x => match x with
                            | (_, _, o, g) => o = Some owner /\ g = None
                            end) (set_owner_calls evs)).
Proof.
  intros Hcount Hne.
  assert (Htruthy : PyStr.truthy owner = true)
    by (destruct owner; [congruence | reflexivity]).
  assert (H1 : chown (mkChownArgs recursive (owner +:+ ":") paths) st
               = chown_paths recursive (Some owner) (Some EmptyString) paths st).
  { unfold chown, chown_owner_group. simpl chown_owner.
    rewrite (split_trailing_sep ":" owner Hcount). simpl.
    unfold bind, index. simpl. now rewrite Htruthy. }
  assert (H2 : chown (mkChownArgs recursive owner paths) st
               = chown_paths recursive (Some owner) None paths st).
  { unfold chown, chown_owner_group. simpl chown_owner.
    now rewrite (split_no_sep ":" owner Hcount). }
  split; (split; [assumption |]); intros st' r evs Hrun Hlog.
  - rewrite H1 in Hrun.
    destruct (chown_paths_only _ _ _ _ _ _ _ Hrun) as (evs' & Hlog' & H).
    rewrite (log_delta_unique _ _ _ _ Hlog Hlog').
    now apply owner_group_is_calls.
  - rewrite H2 in Hrun.
    destruct (chown_paths_only _ _ _ _ _ _ _ Hrun) as (evs' & Hlog' & H).
    rewrite (log_delta_unique _ _ _ _ Hlog Hlog').
    now apply owner_group_is_calls.
Qed.

(** *** Moving *)

Lemma probe_isdir_emits (c : Client) (p : string) :
  emits (probe_isdir c p)
    (fun evs r =>
       exists ans,
         evs = [EvCall (ClientGetFileInfo c p) ans]
         /\ forall b, r = inr b -> isdir_of ans b).
Proof.
  unfold probe_isdir.
  eapply emits_bind with
    (P := fun evs r =>
            exists r0, r = inr r0
                       /\ evs = [EvCall (ClientGetFileInfo c p) r0])
    (Q := fun r0 evs r =>
            evs = [] /\ forall b, r = inr b -> isdir_of r0 b).
  - apply emits_try, emits_call.
  - intros [e | status].
    + destruct e;
        (eapply emits_conseq; [first [apply emits_ret | apply emits_raise] |]);
        intros evs r [H1 H2]; subst; split; try reflexivity;
        intros b Hb; inversion Hb; reflexivity.
    + eapply emits_conseq; [apply emits_ret |].
      intros evs r [H1 H2]; subst. split; [reflexivity |].
      intros b Hb. now inversion Hb.
  - intros evs e (r0 & Hr0 & _). discriminate.
  - intros r0 evs1 evs2 r (r1 & Hr1 & H1) [H2 Hb].
    inversion Hr1; subst. exists r1. now rewrite app_nil_r.
Qed.

Lemma mv_resolve_emits (c : Client) (srcs : list string) :
  emits (mv_resolve c srcs)
    (fun evs r =>
       evs = []
       /\ forall l, r = inr l ->
                    Forall2 (fun url p => url_path url = Some p) srcs l).
Proof.
  unfold mv_resolve. induction srcs as [| url srcs IH]; simpl.
  - eapply emits_conseq; [apply emits_ret |].
    intros evs r [H1 H2]; subst. split; [reflexivity |].
    intros l Hl. inversion Hl. constructor.
  - eapply emits_bind with
      (P := fun evs r =>
              evs = [] /\ forall ys, r = inr ys ->
                                     exists p, ys = [p]
                                               /\ url_path url = Some p)
      (Q := fun ys evs r =>
              evs = []
              /\ forall l, r = inr l ->
                           exists rest,
                             l = ys ++ rest
                             /\ Forall2 (fun url p => url_path url = Some p)
                                  srcs rest).
    + eapply emits_bind with
        (P := fun evs r =>
                evs = [] /\ forall p, r = inr p -> url_path url = Some p)
        (Q := fun p evs r => evs = [] /\ r = inr (_glob_path c p));
        [apply emits_path_for_url | intros ?; apply emits_ret | |].
      * intros evs e [H _]. split; [exact H | discriminate].
      * intros p evs1 evs2 r [H1 Hp] [H2 Hr]. subst.
        split; [reflexivity |].
        intros ys Hys. inversion Hys; subst. exists p. split; auto.
    + intros ys.
      eapply emits_bind with
        (Q := fun rest evs r => evs = [] /\ r = inr (ys ++ rest));
        [exact IH | intros ?; apply emits_ret | |].
      * intros evs e [H _]. split; [exact H | discriminate].
      * intros rest evs1 evs2 r [H1 Hrest] [H2 Hr]. subst.
        split; [reflexivity |].
        intros l Hl. inversion Hl; subst. exists rest. split; auto.
    + intros evs e [H _]. split; [exact H | discriminate].
    + intros ys evs1 evs2 r [H1 Hys] [H2 Hl]. subst.
      split; [reflexivity |].
      intros l Hr. destruct (Hl l Hr) as (rest & -> & Hrest).
      destruct (Hys ys eq_refl) as (p & -> & Hp).
      simpl. now constructor.
Qed.

Lemma mv_rename_all_completed (c : Client) (dst_path : string)
    (isdir : bool) (resolved : list string) :
  emits (mv_rename_all c dst_path isdir resolved)
    (fun evs r =>
       r = inr tt ->
       exists paths,
         Forall2 (fun url p => url_path url = Some p) resolved paths
         /\ evs = returned (fun p =>
                    ClientRename c p (mv_target dst_path isdir p)) paths).
Proof.
  unfold mv_rename_all. induction resolved as [| src resolved IH]; simpl.
  - eapply emits_conseq; [apply emits_ret |].
    intros evs r [H1 _] _. subst. exists []. split; [constructor | reflexivity].
  - eapply emits_bind with
      (P := fun evs r =>
              r = inr tt ->
              exists p, url_path src = Some p
                        /\ evs = [EvCall (ClientRename c p
                                            (mv_target dst_path isdir p))
                                    (inr tt)]);
      [| intros ?; exact IH | discriminate |].
    + unfold mv_rename_one.
      eapply emits_bind with
        (P := fun evs r =>
                evs = [] /\ forall p, r = inr p -> url_path src = Some p)
        (Q := fun p evs r =>
                evs = [EvCall (ClientRename c p
                                 (mv_target dst_path isdir p)) r]);
        [apply emits_path_for_url | intros ?; apply emits_call
        | discriminate |].
      intros p evs1 evs2 r [H1 Hp] H2 Hr. subst.
      exists p. split; [now apply Hp | reflexivity].
    + intros [] evs1 evs2 r H1 H2 Hr.
      destruct (H1 eq_refl) as (p & Hp & ->).
      destruct (H2 Hr) as (paths & Hpaths & ->).
      exists (p :: paths). split; [now constructor | reflexivity].
Qed.

Lemma mv_src_path_compose (srcs resolved paths : list string) :
  Forall2 (fun url p => url_path url = Some p) srcs resolved ->
  Forall2 (fun url p => url_path url = Some p) resolved paths ->
  Forall2 (fun url p => mv_src_path url = Some p) srcs paths.
Proof.
  intros H. revert paths.
  induction H as [| url q srcs resolved Hq _ IH]; intros paths Hp;
    inversion Hp; subst; constructor; [| now apply IH].
  unfold mv_src_path. now rewrite Hq.
Qed.

Lemma verify_emits (url : string) (urls : list string) :
  emits (_verify_nameservices_match url urls) (fun evs _ => evs = []).
Proof.
  intros st st' r H. apply verify_inv in H as [-> _].
  exists []. now rewrite app_nil_r.
Qed.

Lemma mv_completed (args : MvArgs) :
  emits (mv args) (fun evs r => r = inr tt -> mv_events args evs).
Proof.
  unfold mv.
  eapply emits_bind with
    (P := fun evs _ => evs = [])
    (Q := fun _ evs r => r = inr tt -> mv_events args evs);
    [apply verify_emits | intros _ | discriminate
    | intros [] evs1 evs2 r H1 H2 Hr; cbv beta in H1; subst evs1;
      now apply H2].
  eapply emits_bind with
    (P := fun evs _ => forallb init_event evs = true)
    (Q := fun client evs r =>
            r = inr tt ->
            exists dst_path ans isdir paths,
              url_path (mv_dst args) = Some dst_path
              /\ isdir_of ans isdir
              /\ Forall2 (fun url p => mv_src_path url = Some p)
                   (mv_src args) paths
              /\ evs = EvCall (ClientGetFileInfo client dst_path) ans
                         :: returned (fun p =>
                              ClientRename client p
                                (mv_target dst_path isdir p)) paths);
    [apply emits_client_for_url | intros client | discriminate |].
  2: { intros client evs1 evs2 r H1 H2 Hr.
       destruct (H2 Hr) as (dst_path & ans & isdir & paths & Hd & Hi & Hp & ->).
       now exists evs1, client, dst_path, ans, isdir, paths. }
  eapply emits_bind with
    (P := fun evs r =>
            evs = []
            /\ forall p, r = inr p -> url_path (mv_dst args) = Some p)
    (Q := fun dst_path evs r =>
            r = inr tt ->
            exists ans isdir paths,
              isdir_of ans isdir
              /\ Forall2 (fun url p => mv_src_path url = Some p)
                   (mv_src args) paths
              /\ evs = EvCall (ClientGetFileInfo client dst_path) ans
                         :: returned (fun p =>
                              ClientRename client p
                                (mv_target dst_path isdir p)) paths);
    [apply emits_path_for_url | intros dst_path | discriminate |].
  2: { intros dst_path evs1 evs2 r [H1 Hd] H2 Hr. subst evs1.
       destruct (H2 Hr) as (ans & isdir & paths & Hi & Hp & ->).
       exists dst_path, ans, isdir, paths. repeat split; auto. }
  eapply emits_bind with
    (P := fun evs r =>
            exists ans,
              evs = [EvCall (ClientGetFileInfo client dst_path) ans]
              /\ forall b, r = inr b -> isdir_of ans b)
    (Q := fun isdir evs r =>
            r = inr tt ->
            exists paths,
              Forall2 (fun url p => mv_src_path url = Some p)
                (mv_src args) paths
              /\ evs = returned (fun p =>
                         ClientRename client p
                           (mv_target dst_path isdir p)) paths);
    [apply probe_isdir_emits | intros isdir | discriminate |].
  2: { intros isdir evs1 evs2 r (ans & H1 & Hi) H2 Hr. subst evs1.
       destruct (H2 Hr) as (paths & Hp & ->).
       exists ans, isdir, paths. repeat split; auto. }
  eapply emits_bind with
    (P := fun evs r =>
            evs = []
            /\ forall l, r = inr l ->
                         Forall2 (fun url p => url_path url = Some p)
                           (mv_src args) l)
    (Q := fun resolved evs r =>
            r = inr tt ->
            exists paths,
              Forall2 (fun url p => url_path url = Some p) resolved paths
              /\ evs = returned (fun p =>
                         ClientRename client p
                           (mv_target dst_path isdir p)) paths);
    [apply mv_resolve_emits | intros resolved | discriminate |].
  2: { intros resolved evs1 evs2 r [H1 Hres] H2 Hr. subst evs1.
       destruct (H2 Hr) as (paths & Hp & ->).
       exists paths. split; [| reflexivity].
       eapply mv_src_path_compose; [now apply Hres | exact Hp]. }
  destruct ((1 <? List.length resolved)%nat && negb isdir).
  - eapply emits_conseq; [apply emits_raise |].
    intros evs r [_ ->]. discriminate.
  - apply mv_rename_all_completed.
Qed.

Lemma returned_rename (c : Client) (target : string -> string)
    (paths : list string) :
  rename_calls (returned (fun p => ClientRename c p (target p)) paths)
  = map (fun p => (c, p, target p)) paths
  /\ file_infos (returned (fun p => ClientRename c p (target p)) paths)
     = [].
Proof.
  induction paths as [| p paths [IH1 IH2]]; [now split |].
  unfold rename_calls, file_infos in *. simpl. now rewrite IH1, IH2.
Qed.

Lemma rename_calls_app (a b : list Event) :
  rename_calls (a ++ b) = rename_calls a ++ rename_calls b.
Proof. apply flat_map_app. Qed.

Lemma file_infos_app (a b : list Event) :
  file_infos (a ++ b) = file_infos a ++ file_infos b.
Proof. apply flat_map_app. Qed.






(** *** Uploading *)

Lemma raised_in_app (a b : list Event) :
  raised_in (a ++ b) = raised_in a ++ raised_in b.
Proof. apply flat_map_app. Qed.

(** The history of a [with] block around a call that opens and a call
    that closes. *)
Lemma emits_with_call {H A : Type} (op : Op H) (close : H -> Op unit)
    (body : H -> M A) (B : H -> list Event -> Exn + A -> Prop) :
  (forall h, emits (body h) (B h)) ->
  emits (with_ (call op) (fun h => call (close h)) body)
    (fun evs r =>
       (exists e, evs = [EvCall op (inl e)] /\ r = inl e)
       \/ (exists h evs_b rb rc,
             evs = EvCall op (inr h) :: evs_b ++ [EvCall (close h) rc]
             /\ B h evs_b rb
             /\ r = match rc with inl e => inl e | inr _ => rb end)).
Proof.
  intros Hbody. unfold with_.
  eapply emits_bind with
    (P := fun evs r => evs = [EvCall op r])
    (Q := fun h evs r =>
            exists evs_b rb rc,
              evs = evs_b ++ [EvCall (close h) rc]
              /\ B h evs_b rb
              /\ r = match rc with inl e => inl e | inr _ => rb end).
  - apply emits_call.
  - intros h.
    eapply emits_bind with
      (P := fun evs r => exists rb, r = inr rb /\ B h evs rb)
      (Q := fun rb evs r =>
              exists rc,
                evs = [EvCall (close h) rc]
                /\ r = match rc with inl e => inl e | inr _ => rb end).
    + apply emits_try, Hbody.
    + intros rb.
      eapply emits_bind with
        (P := fun evs r => evs = [EvCall (close h) r])
        (Q := fun _ evs r => evs = [] /\ r = rb).
      * apply emits_call.
      * intros _. destruct rb; [apply emits_raise | apply emits_ret].
      * intros evs e He. now exists (inl e).
      * intros u evs1 evs2 r H1 [H2 H3]. cbv beta in H1. subst.
        exists (inr u). now rewrite app_nil_r.
    + intros evs e (rb & Hrb & _). discriminate.
    + intros rb evs1 evs2 r (rb' & Hrb & HB) (rc & H2 & H3).
      inversion Hrb; subst rb'. subst evs2. now exists evs1, rb, rc.
  - intros evs e He. left. now exists e.
  - intros h evs1 evs2 r H1 (evs_b & rb & rc & H2 & HB & Hr).
    cbv beta in H1. subst evs1 evs2. right. now exists h, evs_b, rb, rc.
Qed.

Lemma returned_writes (f : FileWriter) (chunks : list bytes) :
  remote_writes (returned (WriterWrite f) chunks) = chunks.
Proof.
  induction chunks as [| c chunks IH]; [reflexivity |].
  unfold remote_writes in *. simpl. now rewrite IH.
Qed.

Lemma copyfileobj_emits (fsrc : LocalFile) (fdst : FileWriter) :
  emits (copyfileobj fsrc fdst)
    (fun evs r =>
       (forall e, r = inl e -> In e (raised_in evs))
       /\ (r = inr tt ->
           exists chunks,
             evs = EvCall (LocalReadChunks fsrc) (inr (chunks, None))
                     :: returned (WriterWrite fdst) chunks)).
Proof.
  unfold copyfileobj.
  eapply emits_bind with
    (P := fun evs r => evs = [EvCall (LocalReadChunks fsrc) r])
    (Q := fun s evs r =>
            (forall e, r = inl e ->
                       In e (raised_in evs) \/ snd s = Some e)
            /\ (r = inr tt ->
                snd s = None /\ evs = returned (WriterWrite fdst) (fst s))).
  - apply emits_call.
  - intros s. unfold for_stream.
    eapply emits_bind with
      (P := fun evs r =>
              (r = inr tt -> evs = returned (WriterWrite fdst) (fst s))
              /\ (forall e, r = inl e -> In e (raised_in evs)))
      (Q := fun _ evs r =>
              evs = []
              /\ r = match snd s with Some e => inl e | None => inr tt end).
    + now apply emits_for_each_calls.
    + intros _. destruct (snd s); [apply emits_raise | apply emits_ret].
    + intros evs e [_ He]. split; [| discriminate].
      intros e' He'. left. now apply He.
    + intros [] evs1 evs2 r [H1 _] [H2 H3]. subst evs2.
      rewrite app_nil_r. rewrite (H1 eq_refl). split.
      * intros e He. right. rewrite He in H3.
        destruct (snd s); [now inversion H3 | discriminate].
      * intros Hr. rewrite Hr in H3. split; [| reflexivity].
        destruct (snd s); [discriminate | reflexivity].
  - intros evs e He. cbv beta in He. subst evs.
    split; [| discriminate].
    intros e' He'. inversion He'; subst. cbn. auto.
  - intros [chunks err] evs1 evs2 r H1 [Hraise Hok]. cbv beta in H1.
    subst evs1. split.
    + intros e He. rewrite raised_in_app. apply in_or_app.
      destruct (Hraise e He) as [Hin | Herr]; [now right | left].
      simpl in Herr. subst err. cbn. auto.
    + intros Hr. destruct (Hok Hr) as [Herr ->]. simpl in Herr.
      subst err. now exists chunks.
Qed.

Lemma raised_in_with {H : Type} (op : Op H) (h : H) (close : Op unit)
    (evs_b : list Event) (rc : Exn + unit) (e : Exn) :
  In e (raised_in evs_b) \/ rc = inl e ->
  In e (raised_in (EvCall op (inr h) :: evs_b ++ [EvCall close rc])).
Proof.
  intros Hin.
  change (EvCall op (inr h) :: evs_b ++ [EvCall close rc])
    with ([EvCall op (inr h)] ++ evs_b ++ [EvCall close rc]).
  rewrite !raised_in_app. apply in_or_app. right. apply in_or_app.
  destruct Hin as [Hin | ->]; [now left | right]. cbn. auto.
Qed.

Lemma upload_only (client : Client) (local_src remote_dst : string)
    (force preserve : bool) :
  emits (_upload_file client local_src remote_dst force preserve)
    (fun evs _ => forallb upload_event evs = true).
Proof.
  unfold _upload_file, copyfileobj.
  apply only_with; [now apply only_call | intros h; now apply only_call |].
  intros local_file.
  apply only_with; [now apply only_call | intros h; now apply only_call |].
  intros remote_file.
  apply only_bind; [now apply only_call | intros chunks].
  apply only_for_stream. intros buf. now apply only_call.
Qed.

Lemma upload_emits (client : Client) (local_src remote_dst : string)
    (force preserve : bool) :
  emits (_upload_file client local_src remote_dst force preserve)
    (fun evs r =>
       (forall e, r = inl e -> In e (raised_in evs))
       /\ (r = inr tt -> upload_events client local_src remote_dst evs)).
Proof.
  unfold _upload_file.
  eapply emits_conseq.
  - apply emits_with_call with
      (B := fun local_file evs r =>
              (forall e, r = inl e -> In e (raised_in evs))
              /\ (r = inr tt ->
                  exists remote_file chunks,
                    evs = EvCall (ClientCreate client remote_dst)
                            (inr remote_file)
                            :: EvCall (LocalReadChunks local_file)
                                 (inr (chunks, None))
                            :: returned (WriterWrite remote_file) chunks
                            ++ [EvCall (WriterClose remote_file) (inr tt)])).
    intros local_file. eapply emits_conseq.
    + apply emits_with_call with
        (B := fun remote_file evs r =>
                (forall e, r = inl e -> In e (raised_in evs))
                /\ (r = inr tt ->
                    exists chunks,
                      evs = EvCall (LocalReadChunks local_file)
                              (inr (chunks, None))
                              :: returned (WriterWrite remote_file) chunks)).
      intros remote_file. apply copyfileobj_emits.
    + intros evs r [(e & -> & ->) | (h & evs_b & rb & rc & -> & [Hb1 Hb2] & ->)].
      * split; [| discriminate].
        intros e' He'. inversion He'; subst. cbn. auto.
      * split.
        -- intros e He. apply raised_in_with.
           destruct rc as [e' | u]; [right; congruence | left; auto].
        -- intros Hr. destruct rc as [e' | []]; [discriminate |].
           destruct (Hb2 Hr) as (chunks & ->). now exists h, chunks.
  - intros evs r [(e & -> & ->) | (h & evs_b & rb & rc & -> & [Hb1 Hb2] & ->)].
    + split; [| discriminate].
      intros e' He'. inversion He'; subst. cbn. auto.
    + split.
      * intros e He. apply raised_in_with.
        destruct rc as [e' | u]; [right; congruence | left; auto].
      * intros Hr. destruct rc as [e' | []]; [discriminate |].
        destruct (Hb2 Hr) as (remote_file & chunks & ->).
        exists h, remote_file, chunks. simpl.
        now rewrite <- app_assoc.
Qed.

Lemma upload_events_bytes (client : Client) (local_src remote_dst : string)
    (evs : list Event) :
  upload_events client local_src remote_dst evs ->
  remote_writes evs = local_reads evs.
Proof.
  intros (local_file & remote_file & chunks & ->).
  unfold remote_writes, local_reads. simpl.
  rewrite !flat_map_app. simpl. rewrite !app_nil_r.
  fold (remote_writes (returned (WriterWrite remote_file) chunks)).
  rewrite returned_writes.
  assert (H : flat_map
                (fun ev : Event =>
                   match ev with
                   | EvCall (LocalReadChunks _) (inr s) => fst s
                   | _ => []
                   end) (returned (WriterWrite remote_file) chunks) = []).
  { induction chunks as [| c chunks IH]; [reflexivity | exact IH]. }
  rewrite H. now rewrite app_nil_r.
Qed.

(** C9, amended: [_upload_file] behaves the same whatever [force] and
    [preserve] are; its calls are only the opening, reading and closing
    of the local file and the creation, writing and closing of the remote
    one: it makes no test of the destination and reads or sets no
    attribute; it raises no exception of its own, so that an already-exists
    error can only be one that a call, such as the client's [create],
    raised; and when it completes, the chunks written to the remote file
    are the chunks read from the local file up to its end, in order. *)
Theorem upload_copies_and_propagates
    (client : Client) (local_src remote_dst : string)
    (force preserve : bool) (st st' : State) (r : Exn + unit)
    (evs : list Event) :
  _upload_file client local_src remote_dst force preserve st = (st', r) ->
  log st' = log st ++ evs ->
  _upload_file client local_src remote_dst force preserve
  = _upload_file client local_src remote_dst false false
  /\ forallb upload_event evs = true
  /\ (forall e, r = inl e -> In e (raised_in evs))
  /\ (r = inr tt ->
      upload_events client local_src remote_dst evs
      /\ remote_writes evs = local_reads evs).
Proof.
  intros Hrun Hlog.
  split; [reflexivity |].
  destruct (upload_only _ _ _ _ _ _ _ _ Hrun) as (evs1 & Hlog1 & Honly).
  destruct (upload_emits _ _ _ _ _ _ _ _ Hrun) as (evs2 & Hlog2 & Hraise & Hok).
  rewrite <- (log_delta_unique _ _ _ _ Hlog Hlog1) in Honly.
  rewrite <- (log_delta_unique _ _ _ _ Hlog Hlog2) in Hraise, Hok.
  split; [exact Honly |]. split; [exact Hraise |].
  intros Hr. split; [now apply Hok |].
  eapply upload_events_bytes. now apply Hok.
Qed.

End CliProps.

(** ** The properties on the example world *)

Section Examples.

#[local] Existing Instance example_env.

Lemma client_for_url_cached_witness :
  _client_for_url "hdfs://a:8020/z"
    (fst (_client_for_url "hdfs://A:8020/x" example_state))
  = (fst (_client_for_url "hdfs://A:8020/x" example_state), inr 0%nat)
  /\ _client_for_url "/y" (fst (_client_for_url "/x" example_state))
     = (fst (_client_for_url "/x" example_state), inr 0%nat).
Proof.
  split.
  - eapply (proj1 client_for_url_cached
              "hdfs://A:8020/x" "hdfs://a:8020/z"
              (mkParseResult "hdfs" (Some "a") (inr (Some 8020)) "/x")
              (mkParseResult "hdfs" (Some "a") (inr (Some 8020)) "/z")
              (Some 8020) (Some 8020) example_state
              (fst (_client_for_url "hdfs://A:8020/x" example_state)) 0%nat);
      reflexivity.
  - eapply (proj2 client_for_url_cached "/x" "/y"
              (mkParseResult EmptyString None (inr None) "/x")
              (mkParseResult EmptyString None (inr None) "/y") example_state
              (fst (_client_for_url "/x" example_state)) 0%nat);
      reflexivity.
Defined.

Lemma chmod_mode_validation_witness :
  chmod (mkChmodArgs false "999" ["/x"]) example_state
  = (example_state, inl (ValueError "Invalid mode supplied: 999"))
  /\ chmod (mkChmodArgs false "1755" ["/x"]) example_state
     = chmod_paths false 1005 ["/x"] example_state.
Proof.
  split.
  - apply (proj1 (proj2 (proj2 chmod_mode_validation))
             (mkChmodArgs false "999" ["/x"])).
    reflexivity.
  - apply (proj1 (proj2 chmod_mode_validation)
             (mkChmodArgs false "1755" ["/x"])).
    reflexivity.
Defined.

Lemma download_existing_without_force_witness :
  _download_file 0%nat "/x" "/tmp/x" false true example_state
  = (after example_state example_world [EvExists "/tmp/x" true],
     inl (FileExistsError
            "/tmp/x already exists, use --force to overwrite")).
Proof.
  apply (download_existing_without_force 0%nat "/x" "/tmp/x" true
           example_state).
  reflexivity.
Defined.

Lemma mv_nameservice_mismatch_witness :
  mv (mkMvArgs ["hdfs://A/x"] "hdfs://B/y") example_state
  = (example_state,
     inl (ValueError "Protocol and host must match: hdfs://b != hdfs://a"))
  /\ _verify_nameservices_match "hdfs://A/x" ["hdfs://A:8020/y"]
       example_state
     = (example_state, inr tt).
Proof.
  split.
  - destruct (proj1 mv_nameservice_mismatch
                (mkMvArgs ["hdfs://A/x"] "hdfs://B/y") example_state
                (mkParseResult "hdfs" (Some "b") (inr None) "/y")
                eq_refl) as (msg & Hrun & Hmsg).
    + exists "hdfs://A/x",
        (mkParseResult "hdfs" (Some "a") (inr None) "/x").
      split; [now left |]. split; [reflexivity |].
      right. discriminate.
    + rewrite Hrun. destruct Hmsg as (u & parsed & Hin & Hu & _ & ->).
      * constructor; [| constructor].
        now exists (mkParseResult "hdfs" (Some "a") (inr None) "/x").
      * destruct Hin as [<- | []]. inversion Hu; subst parsed. reflexivity.
  - apply (proj2 mv_nameservice_mismatch "hdfs://A/x" ["hdfs://A:8020/y"]
             example_state
             (mkParseResult "hdfs" (Some "a") (inr None) "/x") eq_refl).
    constructor; [| constructor].
    now exists (mkParseResult "hdfs" (Some "a") (inr (Some 8020)) "/y").
Defined.



Lemma chmod_recursive_applies_mode_witness :
  set_permission_calls (log (fst (chmod example_chmod example_state)))
  = [(0%nat, "/dir", 420); (0%nat, "/dir/a", 420); (0%nat, "/dir/b", 420)]
  /\ Forall (fun x => snd x = 420)
       (set_permission_calls (log (fst (chmod example_chmod example_state))))
  /\ set_permission_calls (log (fst (chmod example_chmod example_state)))
     = permission_on_listings 420
         (log (fst (chmod example_chmod example_state)))
  /\ Forall2 (fun url x =>
                match x with
                | (_, p, recursive, _) =>
                    url_path url = Some p /\ recursive = true
                end) (chmod_path example_chmod)
       (listings (log (fst (chmod example_chmod example_state)))).
Proof.
  split; [vm_compute; reflexivity |].
  destruct (chmod_recursive_applies_mode example_chmod example_state
              (fst (chmod example_chmod example_state)) (inr tt)
              (log (fst (chmod example_chmod example_state))))
    as (Hmode & _ & Hdone).
  - reflexivity.
  - vm_compute. reflexivity.
  - reflexivity.
  - split; [exact (proj1 (Hmode 420 eq_refl)) |].
    destruct (Hdone eq_refl) as (permission & Hp & Hcalls & Hall).
    inversion Hp; subst permission. split; [exact Hcalls | exact Hall].
Defined.

(** A recursive [chmod] of [/dir] in a world whose listing of [/dir] holds
    [/dir/a] and [/dir/b] but not [/dir], and where the mode of [/dir/a]
    cannot be set: one [set_permission] call is made, on [/dir/a]; the
    entry [/dir/b] of the listing and the path [/dir] itself get none. *)
Lemma chmod_recursive_stops_at_failure :
  map (fun x => match x with
                | (_, p, recursive, l) => (p, recursive, map fs_path l)
                end)
    (listings
       (log (fst (@chmod strict_env (mkChmodArgs true "644" ["/dir"])
                    strict_state))))
  = [("/dir", true, ["/dir/a"; "/dir/b"])]
  /\ set_permission_calls
       (log (fst (@chmod strict_env (mkChmodArgs true "644" ["/dir"])
                    strict_state)))
     = [(0%nat, "/dir/a", 420)]
  /\ snd (@chmod strict_env (mkChmodArgs true "644" ["/dir"]) strict_state)
     = inl (OSError "Permission denied").
Proof. repeat split; vm_compute; reflexivity. Qed.

Lemma download_preserve_attributes_witness :
  seconds_of_ms 1700000000500 (3400000001 # 2)
  /\ seconds_of_ms 1600000000250 (6400000001 # 4)
  /\ _download_file 0%nat "/x" "/tmp/new" false true example_state
     = (after example_after_copy (world example_after_copy)
          [EvCall (ClientGetFileInfo 0%nat "/x")
             (inr (example_status example_world "/x"));
           EvCall (OsUtime "/tmp/new" (3400000001 # 2) (6400000001 # 4))
             (inr tt);
           EvCall (OsChmod "/tmp/new" 420) (inr tt)],
        inr tt).
Proof.
  assert (Hguard : download_guard "/tmp/new" false example_state
                   = (example_after_guard, inr tt))
    by (vm_compute; reflexivity).
  assert (Hcopy : download_copy 0%nat "/x" "/tmp/new" example_after_guard
                  = (example_after_copy, inr tt))
    by (vm_compute; reflexivity).
  pose proof (download_preserve_attributes 0%nat "/x" "/tmp/new" false
                example_state example_after_guard example_after_copy
                Hguard Hcopy) as H.
  cbv zeta in H.
  change (handler FileStatus (ClientGetFileInfo 0%nat "/x")
            (world example_after_copy))
    with (world example_after_copy,
          @inr Exn FileStatus (example_status example_world "/x")) in H.
  cbv iota beta in H. destruct H as (_ & _ & H).
  change (ms_to_s (fs_access_time (example_status example_world "/x")))
    with (@inr Exn Q (3400000001 # 2)) in H.
  change (ms_to_s
            (fs_modification_time (example_status example_world "/x")))
    with (@inr Exn Q (6400000001 # 4)) in H.
  cbv iota beta in H. destruct H as (Ha & Hm & H).
  split; [exact Ha |]. split; [exact Hm |]. exact H.
Defined.

Lemma chown_owner_parsing_witness :
  chown (mkChownArgs false "a:b:c" ["/x"]) example_state
  = (example_state,
     inl (ValueError "Invalid owner and group pattern: a:b:c")).
Proof.
  apply (proj1 (proj2 (proj2 chown_owner_parsing))
           (mkChownArgs false "a:b:c" ["/x"]) example_state).
  simpl. lia.
Defined.

Lemma upload_copies_and_propagates_witness :
  forallb upload_event
    (log (fst (_upload_file 0%nat "/tmp/x" "/new" true true example_state)))
  = true
  /\ remote_writes
       (log (fst (_upload_file 0%nat "/tmp/x" "/new" true true
                    example_state)))
     = local_reads
         (log (fst (_upload_file 0%nat "/tmp/x" "/new" true true
                      example_state))).
Proof.
  destruct (upload_copies_and_propagates 0%nat "/tmp/x" "/new" true true
              example_state
              (fst (_upload_file 0%nat "/tmp/x" "/new" true true
                      example_state))
              (inr tt)
              (log (fst (_upload_file 0%nat "/tmp/x" "/new" true true
                           example_state))))
    as (_ & Honly & _ & Hok).
  - vm_compute. reflexivity.
  - reflexivity.
  - split; [exact Honly | now apply Hok].
Defined.

(** Uploading onto a remote path that exists raises the already-exists
    error of the client's [create]. *)
Lemma upload_existing_destination_raises :
  mem "/x" (remote_paths (world example_state)) = true
  /\ snd (_upload_file 0%nat "/tmp/x" "/x" false false example_state)
     = inl (FileExistsError "/x").
Proof. split; vm_compute; reflexivity. Qed.

Lemma chown_trailing_colon_witness :
  chown (mkChownArgs false "bob:" ["/x"]) example_state
  = chown_paths false (Some "bob") (Some EmptyString) ["/x"] example_state
  /\ set_owner_calls
       (log (fst (chown (mkChownArgs false "bob:" ["/x"]) example_state)))
     = [(0%nat, "/x", Some "bob", Some EmptyString)]
  /\ set_owner_calls
       (log (fst (chown (mkChownArgs false "bob" ["/x"]) example_state)))
     = [(0%nat, "/x", Some "bob", None)].
Proof.
  destruct (chown_trailing_colon "bob" false ["/x"] example_state)
    as [[H1 _] _]; [reflexivity | discriminate |].
  split; [exact H1 |]. split; vm_compute; reflexivity.
Defined.

End Examples.

(** ** Further properties of the resolver and of the parsing *)

Section MoreProps.

Context {env : Collaborators}.

(** X1: a URL without scheme whose host or port is present is refused:
    [_client_for_url] raises [ValueError] with the message that shows the
    host ([None] when only the port is there), and the state is the one it
    started from: nothing is constructed and nothing is cached.  When the
    host is present the port is not even read, so that an invalid port does
    not change the message. *)
Theorem client_for_url_needs_scheme
    (url : string) (parsed : ParseResult) (st : State) :
  urlparse url = inr parsed ->
  PyStr.truthy (scheme parsed) = false ->
  hostname_truthy (hostname parsed) = true
  \/ (exists p, port parsed = inr p /\ port_truthy p = true) ->
  _client_for_url url st
  = (st, inl (ValueError ("Cannot provide host or port without scheme: "
                            +:+ PyStr.fmt_opt (hostname parsed)))).
Proof.
  intros Hu Hs Hhp. unfold _client_for_url.
  rewrite (bind_ok _ _ _ _ _ (py_urlparse_ok _ _ st Hu)), Hs.
  unfold bind, get_port, ret, raise.
  destruct (hostname_truthy (hostname parsed)); [reflexivity |].
  destruct Hhp as [Hh | (p & Hp & Ht)]; [discriminate |].
  now rewrite Hp, Ht.
Qed.

(** X2: a URL whose port cannot be read is refused with the [ValueError]
    of [urlparse]'s [port], whether it has a scheme or has neither scheme
    nor host; the state is the one it started from. *)
Theorem client_for_url_invalid_port
    (url : string) (parsed : ParseResult) (msg : string) (st : State) :
  urlparse url = inr parsed ->
  port parsed = inl msg ->
  PyStr.truthy (scheme parsed) = true
  \/ hostname_truthy (hostname parsed) = false ->
  _client_for_url url st = (st, inl (ValueError msg)).
Proof.
  intros Hu Hp Hsh. unfold _client_for_url.
  rewrite (bind_ok _ _ _ _ _ (py_urlparse_ok _ _ st Hu)).
  unfold bind, get_port, ret, raise. rewrite Hp.
  destruct (PyStr.truthy (scheme parsed)); [reflexivity |].
  destruct Hsh as [Hs | Hh]; [discriminate |]. now rewrite Hh.
Qed.

(** What one call of [_get_client] does: nothing on a hit; on a miss one
    construction, with the next fresh identity, cached when it returns. *)
Lemma get_client_cases (k : option string) (st st' : State) r :
  _get_client k st = (st', r) ->
  (exists c, cache st !! k = Some c /\ st' = st /\ r = inr c)
  \/ (exists w' ans,
        cache st !! k = None
        /\ handler unit (ClientInit (next_client st) k) (world st) = (w', ans)
        /\ log st' = log st ++ [EvCall (ClientInit (next_client st) k) ans]
        /\ next_client st' = S (next_client st)
        /\ match ans with
           | inr _ => cache st' = <[k := next_client st]> (cache st)
                      /\ r = inr (next_client st)
           | inl e => cache st' = cache st /\ r = inl e
           end).
Proof.
  unfold _get_client.
  destruct (cache st !! k) as [c |] eqn:Hk.
  - intros H. inversion H; subst. left. now exists c.
  - unfold Client_new, bind, call, ret. simpl.
    destruct (handler unit (ClientInit (next_client st) k) (world st))
      as [w' [e | []]] eqn:Hh; simpl; intros H; inversion H; subst; simpl;
      right; eexists _, _; repeat split; reflexivity.
Qed.

(** The key under which [_client_for_url] asks for a client, when it asks. *)
Lemma client_for_url_key (url : string) (st st' : State) r :
  _client_for_url url st = (st', r) ->
  (st' = st /\ exists e, r = inl e)
  \/ (exists k, _get_client k st = (st', r)).
Proof.
  unfold _client_for_url, bind, py_urlparse, get_port, raise, ret.
  destruct (urlparse url) as [msg | parsed];
    [intros H; inversion H; subst; left; eauto |].
  destruct (PyStr.truthy (scheme parsed)).
  - destruct (port parsed) as [msg | p];
      [intros H; inversion H; subst; left; eauto |].
    intros H. right. eauto.
  - destruct (hostname_truthy (hostname parsed));
      [intros H; inversion H; subst; left; eauto |].
    destruct (port parsed) as [msg | p];
      [intros H; inversion H; subst; left; eauto |].
    destruct (port_truthy p);
      [intros H; inversion H; subst; left; eauto |].
    intros H. right. eauto.
Qed.


Lemma get_client_sound (k : option string) (st st' : State) r :
  cache_sound st -> _get_client k st = (st', r) -> cache_sound st'.
Proof.
  intros [Hlt Hinj] Hrun.
  destruct (get_client_cases _ _ _ _ Hrun)
    as [(c & _ & -> & _) | (w' & ans & Hnone & _ & _ & Hnext & Hans)];
    [now split |].
  destruct ans as [e | u].
  - destruct Hans as [Hc _]. split.
    + intros k' c' H. rewrite Hc in H. rewrite Hnext.
      specialize (Hlt _ _ H). lia.
    + intros k1 k2 c' H1 H2. rewrite Hc in H1, H2. eauto.
  - destruct Hans as [Hc _]. split.
    + intros k' c' H. rewrite Hc in H. rewrite Hnext.
      destruct (decide (k = k')) as [-> | Hne].
      * rewrite lookup_insert_eq in H. inversion H. lia.
      * rewrite lookup_insert_ne in H by exact Hne.
        specialize (Hlt _ _ H). lia.
    + intros k1 k2 c' H1 H2. rewrite Hc in H1, H2.
      destruct (decide (k = k1)) as [E1 | N1];
        destruct (decide (k = k2)) as [E2 | N2]; subst.
      * reflexivity.
      * rewrite lookup_insert_eq in H1. inversion H1; subst c'.
        rewrite lookup_insert_ne in H2 by exact N2.
        specialize (Hlt _ _ H2). lia.
      * rewrite lookup_insert_eq in H2. inversion H2; subst c'.
        rewrite lookup_insert_ne in H1 by exact N1.
        specialize (Hlt _ _ H1). lia.
      * rewrite lookup_insert_ne in H1 by exact N1.
        rewrite lookup_insert_ne in H2 by exact N2. eauto.
Qed.

Lemma empty_cache_sound (st : State) : cache st = ∅ -> cache_sound st.
Proof.
  intros Hempty. unfold cache_sound. rewrite Hempty.
  split; intros *; rewrite lookup_empty; discriminate.
Qed.

Lemma client_for_url_sound (url : string) (st st' : State) r :
  cache_sound st -> _client_for_url url st = (st', r) -> cache_sound st'.
Proof.
  intros Hs Hrun.
  destruct (client_for_url_key _ _ _ _ Hrun) as [[-> _] | (k & Hk)];
    [exact Hs | now apply (get_client_sound k st st' r)].
Qed.

(** X4: the cache stays sound through every resolution: it never holds an
    identity that is still to be allocated and never holds one client under
    two connection strings; a state whose cache is empty is sound. *)
Theorem client_cache_stays_sound :
  (forall st, cache st = ∅ -> cache_sound st)
  /\ (forall url st st' r,
        cache_sound st -> _client_for_url url st = (st', r) ->
        cache_sound st').
Proof.
  split.
  - exact empty_cache_sound.
  - intros url st st' r. apply client_for_url_sound.
Qed.

(** X5: from a sound cache, two URLs with schemes whose connection strings
    differ never share a client: the clients that two resolutions in a row
    return are different objects; and neither is the default client that a
    URL without endpoint resolves to. *)
Theorem distinct_endpoints_distinct_clients
    (url1 url2 : string) (parsed1 parsed2 : ParseResult) (p1 : option Z)
    (st st1 st2 : State) (c1 c2 : Client) :
  cache_sound st ->
  urlparse url1 = inr parsed1 -> urlparse url2 = inr parsed2 ->
  PyStr.truthy (scheme parsed1) = true -> port parsed1 = inr p1 ->
  (PyStr.truthy (scheme parsed2) = true
   /\ exists p2, port parsed2 = inr p2
                 /\ connection_url parsed1 p1 <> connection_url parsed2 p2)
  \/ no_endpoint parsed2 = true ->
  _client_for_url url1 st = (st1, inr c1) ->
  _client_for_url url2 st1 = (st2, inr c2) ->
  c1 <> c2.
Proof.
  intros Hsound Hu1 Hu2 Hs1 Hp1 Hcase H1 H2 Heq. subst c2.
  assert (Hsound2 : cache_sound st2).
  { eapply client_for_url_sound; [| exact H2].
    eapply client_for_url_sound; [exact Hsound | exact H1]. }
  rewrite (client_for_url_scheme _ _ _ _ Hu1 Hs1 Hp1) in H1.
  apply get_client_inv in H1 as (_ & _ & Hc1). specialize (Hc1 _ eq_refl).
  destruct Hcase as [(Hs2 & p2 & Hp2 & Hne) | Hn2].
  - rewrite (client_for_url_scheme _ _ _ _ Hu2 Hs2 Hp2) in H2.
    apply get_client_inv in H2 as (_ & Hsub & Hc2). specialize (Hc2 _ eq_refl).
    apply (lookup_weaken _ _ _ _ Hc1) in Hsub.
    pose proof (proj2 Hsound2 _ _ _ Hsub Hc2) as Hk. now inversion Hk.
  - rewrite (client_for_url_default _ _ _ Hu2 Hn2) in H2.
    apply get_client_inv in H2 as (_ & Hsub & Hc2). specialize (Hc2 _ eq_refl).
    apply (lookup_weaken _ _ _ _ Hc1) in Hsub.
    pose proof (proj2 Hsound2 _ _ _ Hsub Hc2) as Hk. discriminate.
Qed.

Lemma split_one_sep (sep : ascii) (o g : string) :
  PyStr.count sep o = 0%nat -> PyStr.count sep g = 0%nat ->
  PyStr.split sep (o +:+ String sep g) = [o; g].
Proof.
  intros Ho Hg. induction o as [| c t IH]; simpl.
  - now rewrite Ascii.eqb_refl, (split_no_sep sep g Hg).
  - simpl in Ho. destruct (Ascii.eqb c sep); [discriminate |].
    now rewrite (IH Ho).
Qed.

Lemma count_one_sep (sep : ascii) (s : string) :
  PyStr.count sep s = 1%nat ->
  exists o g,
    s = o +:+ String sep g
    /\ PyStr.count sep o = 0%nat /\ PyStr.count sep g = 0%nat.
Proof.
  induction s as [| c t IH]; simpl; [discriminate |].
  destruct (Ascii.eqb c sep) eqn:E.
  - intros H. apply Ascii.eqb_eq in E. subst c.
    exists EmptyString, t. repeat split. simpl in H. lia.
  - intros H. destruct (IH H) as (o & g & -> & Ho & Hg).
    exists (String c o), g. repeat split; [| exact Hg].
    simpl. now rewrite E.
Qed.

(** X6: what [chown] makes of its owner argument, for every argument: with
    no colon the whole argument is the owner, even when it is empty, and
    the group is [None]; with one colon, which every argument with exactly
    one colon has between an owner part and a group part free of colons,
    the group is the part after it, even when that is empty, and the owner
    is the part before it, or [None] when that part is empty; nothing is
    looked up or called to decide this. *)
Theorem chown_owner_group_cases :
  (forall s st,
     PyStr.count ":" s = 0%nat ->
     chown_owner_group s st = (st, inr (Some s, None)))
  /\ (forall o g st,
        PyStr.count ":" o = 0%nat -> PyStr.count ":" g = 0%nat ->
        chown_owner_group (o +:+ String ":" g) st
        = (st, inr (if PyStr.truthy o then Some o else None, Some g)))
  /\ (forall s,
        PyStr.count ":" s = 1%nat ->
        exists o g,
          s = o +:+ String ":" g
          /\ PyStr.count ":" o = 0%nat /\ PyStr.count ":" g = 0%nat).
Proof.
  split; [| split].
  - intros s st H. unfold chown_owner_group.
    now rewrite (split_no_sep ":" s H).
  - intros o g st Ho Hg. unfold chown_owner_group.
    now rewrite (split_one_sep ":" o g Ho Hg).
  - apply count_one_sep.
Qed.

End MoreProps.

(** ** Further properties of [chmod], [chown] and [mv] *)

Section MoreCommandProps.

Context {env : Collaborators}.

Lemma init_not_listing (ev : Event) :
  init_event ev = true -> not_listing ev = true.
Proof.
  destruct ev as [R op r |]; [| discriminate].
  now destruct op.
Qed.

Lemma chmod_one_flat_only (permission : Z) (url : string) :
  emits (chmod_one false permission url)
    (fun evs _ => forallb not_listing evs = true).
Proof.
  unfold chmod_one.
  apply only_bind;
    [apply only_client_for_url, init_not_listing | intros client].
  apply only_bind; [apply only_path_for_url | intros p].
  apply only_for_each. intros path. now apply only_call.
Qed.

Lemma chmod_one_flat_completed (permission : Z) (url : string) :
  emits (chmod_one false permission url)
    (fun evs r => r = inr tt -> chmod_flat_block permission url evs).
Proof.
  unfold chmod_one.
  eapply emits_bind with
    (P := fun evs _ => forallb init_event evs = true)
    (Q := fun client evs r =>
            r = inr tt ->
            exists p,
              url_path url = Some p
              /\ evs = [EvCall (ClientSetPermission client p permission)
                          (inr tt)]).
  - apply emits_client_for_url.
  - intros client.
    eapply emits_bind with
      (P := fun evs r =>
              evs = [] /\ forall p, r = inr p -> url_path url = Some p)
      (Q := fun p evs r =>
              r = inr tt ->
              evs = [EvCall (ClientSetPermission client p permission)
                       (inr tt)]).
    + apply emits_path_for_url.
    + intros p. apply emits_for_each_singleton.
      eapply emits_conseq; [apply emits_call |].
      intros evs r H Hr. cbv beta in H. now subst.
    + discriminate.
    + intros p evs1 evs2 r [H1 Hp] H2 Hr. subst evs1.
      exists p. split; [now apply Hp | now apply H2].
  - discriminate.
  - intros client evs1 evs2 r H1 H2 Hr.
    destruct (H2 Hr) as (p & Hp & ->). now exists evs1, client, p.
Qed.

Lemma chmod_paths_flat_completed (permission : Z) (paths : list string) :
  emits (chmod_paths false permission paths)
    (fun evs r =>
       r = inr tt ->
       exists blocks,
         Forall2 (chmod_flat_block permission) paths blocks
         /\ evs = List.concat blocks).
Proof.
  unfold chmod_paths. induction paths as [| url paths IH]; simpl.
  - eapply emits_conseq; [apply emits_ret |].
    intros evs r [-> _] _. exists []. split; [constructor | reflexivity].
  - eapply emits_bind with
      (P := fun evs r => r = inr tt -> chmod_flat_block permission url evs);
      [apply chmod_one_flat_completed | intros ?; exact IH | discriminate |].
    intros [] evs1 evs2 r H1 H2 Hr.
    destruct (H2 Hr) as (blocks & Hb & ->).
    exists (evs1 :: blocks). split; [| reflexivity].
    constructor; [now apply H1 | exact Hb].
Qed.

Lemma chmod_flat_blocks_calls (permission : Z) (paths : list string)
    (blocks : list (list Event)) :
  Forall2 (chmod_flat_block permission) paths blocks ->
  exists resolved,
    Forall2 (fun url x => url_path url = Some (snd x)) paths resolved
    /\ set_permission_calls (List.concat blocks)
       = map (fun x => (fst x, snd x, permission)) resolved.
Proof.
  induction 1 as [| url evs paths blocks Hblock _ (resolved & IH1 & IH2)];
    [exists []; split; [constructor | reflexivity] |].
  destruct Hblock as (init & c & p & Hinit & Hp & ->).
  destruct (init_silent _ Hinit) as (_ & I2 & _).
  exists ((c, p) :: resolved). split; [now constructor |].
  simpl List.concat. rewrite !set_permission_calls_app, I2, IH2.
  reflexivity.
Qed.

(** X7: a [chmod] that is not recursive never lists a directory; and when
    it completes, its [set_permission] calls are exactly one per URL, in
    order, on the URL's own path and with the parsed mode. *)
Theorem chmod_flat_sets_each_path
    (args : ChmodArgs) (st st' : State) (r : Exn + unit)
    (evs : list Event) :
  chmod_recursive args = false ->
  chmod args st = (st', r) ->
  log st' = log st ++ evs ->
  forallb not_listing evs = true
  /\ (r = inr tt ->
      exists permission resolved,
        int_base8 (chmod_octalmode args) = Some permission
        /\ Forall2 (fun url x => url_path url = Some (snd x))
             (chmod_path args) resolved
        /\ set_permission_calls evs
           = map (fun x => (fst x, snd x, permission)) resolved).
Proof.
  intros Hrec Hrun Hlog. unfold chmod in Hrun. rewrite Hrec in Hrun.
  destruct (Re.fullmatch octalmode_re (chmod_octalmode args)); simpl in Hrun.
  - destruct (int_base8 (chmod_octalmode args)) as [permission |].
    + split.
      * assert (Honly : emits (chmod_paths false permission (chmod_path args))
                          (fun evs _ => forallb not_listing evs = true))
          by (apply only_for_each; intros url; apply chmod_one_flat_only).
        destruct (Honly _ _ _ Hrun) as (evs' & Hlog' & H).
        now rewrite (log_delta_unique _ _ _ _ Hlog Hlog').
      * intros Hr.
        destruct (chmod_paths_flat_completed _ _ _ _ _ Hrun)
          as (evs' & Hlog' & H).
        rewrite (log_delta_unique _ _ _ _ Hlog Hlog').
        destruct (H Hr) as (blocks & Hb & ->).
        destruct (chmod_flat_blocks_calls _ _ _ Hb) as (resolved & H1 & H2).
        now exists permission, resolved.
    + inversion Hrun; subst. rewrite (log_delta_nil _ _ Hlog).
      split; [reflexivity | discriminate].
  - inversion Hrun; subst. rewrite (log_delta_nil _ _ Hlog).
    split; [reflexivity | discriminate].
Qed.

Lemma chown_owner_group_pure (s : string) (st st' : State) r :
  chown_owner_group s st = (st', r) -> st' = st.
Proof.
  unfold chown_owner_group, bind, index, ret, raise.
  destruct (2 <? List.length (PyStr.split ":" s))%nat;
    [intros H; now inversion H |].
  destruct (List.length (PyStr.split ":" s) =? 1)%nat.
  - destruct (PyStr.split ":" s !! 0%nat); intros H; now inversion H.
  - destruct (PyStr.split ":" s !! 0%nat); [| intros H; now inversion H].
    destruct (PyStr.split ":" s !! 1%nat); intros H; now inversion H.
Qed.

Lemma chown_one_completed (recursive : bool) (owner group : option string)
    (url : string) :
  emits (chown_one recursive owner group url)
    (fun evs r => r = inr tt -> chown_block recursive owner group url evs).
Proof.
  unfold chown_one.
  eapply emits_bind with
    (P := fun evs _ => forallb init_event evs = true)
    (Q := fun client evs r =>
            r = inr tt ->
            exists p,
              url_path url = Some p
              /\ if recursive then
                   exists l,
                     evs = EvCall (ClientListStatus client p true) (inr l)
                             :: returned (fun status =>
                                  ClientSetOwner client (fs_path status)
                                    owner group) l
                 else
                   evs = [EvCall (ClientSetOwner client p owner group)
                            (inr tt)]).
  - apply emits_client_for_url.
  - intros client.
    eapply emits_bind with
      (P := fun evs r =>
              evs = [] /\ forall p, r = inr p -> url_path url = Some p)
      (Q := fun p evs r =>
              r = inr tt ->
              if recursive then
                exists l,
                  evs = EvCall (ClientListStatus client p true) (inr l)
                          :: returned (fun status =>
                               ClientSetOwner client (fs_path status)
                                 owner group) l
              else
                evs = [EvCall (ClientSetOwner client p owner group)
                         (inr tt)]).
    + apply emits_path_for_url.
    + intros p. apply emits_for_each_singleton. destruct recursive.
      * eapply emits_bind with
          (P := fun evs r => evs = [EvCall (ClientListStatus client p true) r])
          (Q := fun statuses evs r =>
                  r = inr tt ->
                  evs = returned (fun status =>
                          ClientSetOwner client (fs_path status) owner group)
                          statuses).
        -- apply emits_call.
        -- intros statuses.
           eapply emits_conseq; [apply emits_for_each_calls; reflexivity |].
           now intros evs r [H _].
        -- discriminate.
        -- intros statuses evs1 evs2 r H1 H2 Hr. subst evs1.
           rewrite (H2 Hr). now exists statuses.
      * eapply emits_conseq; [apply emits_call |].
        intros evs r H Hr. cbv beta in H. now subst.
    + discriminate.
    + intros p evs1 evs2 r [H1 Hp] H2 Hr. subst evs1.
      exists p. split; [now apply Hp | now apply H2].
  - discriminate.
  - intros client evs1 evs2 r H1 H2 Hr.
    destruct (H2 Hr) as (p & Hp & H).
    exists evs1, client, p. split; [exact H1 |]. split; [exact Hp |].
    destruct recursive; [| now rewrite H].
    destruct H as (l & ->). now exists l.
Qed.

Lemma chown_paths_completed (recursive : bool) (owner group : option string)
    (paths : list string) :
  emits (chown_paths recursive owner group paths)
    (fun evs r =>
       r = inr tt ->
       exists blocks,
         Forall2 (chown_block recursive owner group) paths blocks
         /\ evs = List.concat blocks).
Proof.
  unfold chown_paths. induction paths as [| url paths IH]; simpl.
  - eapply emits_conseq; [apply emits_ret |].
    intros evs r [-> _] _. exists []. split; [constructor | reflexivity].
  - eapply emits_bind with
      (P := fun evs r =>
              r = inr tt -> chown_block recursive owner group url evs);
      [apply chown_one_completed | intros ?; exact IH | discriminate |].
    intros [] evs1 evs2 r H1 H2 Hr.
    destruct (H2 Hr) as (blocks & Hb & ->).
    exists (evs1 :: blocks). split; [| reflexivity].
    constructor; [now apply H1 | exact Hb].
Qed.

Lemma set_owner_calls_app (a b : list Event) :
  set_owner_calls (a ++ b) = set_owner_calls a ++ set_owner_calls b.
Proof. apply flat_map_app. Qed.

Lemma returned_set_owner (c : Client) (owner group : option string)
    (l : list FileStatus) :
  set_owner_calls
    (returned (fun status =>
       ClientSetOwner c (fs_path status) owner group) l)
  = map (fun status => (c, fs_path status, owner, group)) l
  /\ listings
       (returned (fun status =>
          ClientSetOwner c (fs_path status) owner group) l) = [].
Proof.
  induction l as [| x l [IH1 IH2]]; [now split |].
  unfold set_owner_calls, listings in *. simpl.
  now rewrite IH1, IH2.
Qed.

Lemma chown_recursive_blocks_calls (owner group : option string)
    (paths : list string) (blocks : list (list Event)) :
  Forall2 (chown_block true owner group) paths blocks ->
  set_owner_calls (List.concat blocks)
  = owner_on_listings owner group (List.concat blocks)
  /\ Forall2 (fun url x =>
                match x with
                | (_, p, recursive, _) =>
                    url_path url = Some p /\ recursive = true
                end) paths (listings (List.concat blocks)).
Proof.
  induction 1 as [| url evs paths blocks Hblock _ [IH1 IH2]];
    [split; [reflexivity | constructor] |].
  destruct Hblock as (init & c & p & Hinit & Hp & l & ->).
  destruct (init_silent _ Hinit) as (I1 & _ & I3 & _).
  destruct (returned_set_owner c owner group l) as [R1 R2].
  unfold owner_on_listings in *. simpl List.concat.
  rewrite !set_owner_calls_app, !listings_app.
  match goal with
  | |- context [set_owner_calls (?e :: ?r)] =>
      change (set_owner_calls (e :: r)) with (set_owner_calls r);
      change (listings (e :: r)) with ((c, p, true, l) :: listings r)
  end.
  rewrite I1, I3, R1, R2, IH1. simpl.
  split; [reflexivity |]. now constructor.
Qed.

Lemma chown_flat_blocks_calls (owner group : option string)
    (paths : list string) (blocks : list (list Event)) :
  Forall2 (chown_block false owner group) paths blocks ->
  listings (List.concat blocks) = []
  /\ exists resolved,
       Forall2 (fun url x => url_path url = Some (snd x)) paths resolved
       /\ set_owner_calls (List.concat blocks)
          = map (fun x => (fst x, snd x, owner, group)) resolved.
Proof.
  induction 1 as [| url evs paths blocks Hblock _ (IH0 & resolved & IH1 & IH2)];
    [split; [reflexivity | exists []; split; [constructor | reflexivity]] |].
  destruct Hblock as (init & c & p & Hinit & Hp & ->).
  destruct (init_silent _ Hinit) as (I1 & _ & I3 & _).
  simpl List.concat. split.
  - rewrite !listings_app, I1, IH0. reflexivity.
  - exists ((c, p) :: resolved). split; [now constructor |].
    rewrite !set_owner_calls_app, I3, IH2. reflexivity.
Qed.

(** X8: when [chown] completes, the owner and group that it computed from
    its argument, without touching anything, are what every [set_owner]
    call receives: when recursive, the calls are exactly one, in order, on
    the path of every entry of the listing of each URL's path (fetched with
    [list_status(path, True)]); when not, no directory is listed and the
    calls are exactly one per URL, in order, on the URL's own path. *)
Theorem chown_applies_owner
    (args : ChownArgs) (st st' : State) (evs : list Event) :
  chown args st = (st', inr tt) ->
  log st' = log st ++ evs ->
  exists owner group,
    chown_owner_group (chown_owner args) st = (st, inr (owner, group))
    /\ if chown_recursive args then
         set_owner_calls evs = owner_on_listings owner group evs
         /\ Forall2 (fun url x =>
                       match x with
                       | (_, p, recursive, _) =>
                           url_path url = Some p /\ recursive = true
                       end) (chown_path args) (listings evs)
       else
         listings evs = []
         /\ exists resolved,
              Forall2 (fun url x => url_path url = Some (snd x))
                (chown_path args) resolved
              /\ set_owner_calls evs
                 = map (fun x => (fst x, snd x, owner, group)) resolved.
Proof.
  intros Hrun Hlog. unfold chown in Hrun.
  apply bind_inv in Hrun as [(e & _ & He) | (st1 & [owner group] & Hog & Hrun)];
    [discriminate |].
  pose proof (chown_owner_group_pure _ _ _ _ Hog) as ->.
  exists owner, group. split; [exact Hog |]. simpl in Hrun.
  destruct (chown_paths_completed _ _ _ _ _ _ _ Hrun) as (evs' & Hlog' & H).
  rewrite (log_delta_unique _ _ _ _ Hlog Hlog').
  destruct (H eq_refl) as (blocks & Hb & ->).
  destruct (chown_recursive args).
  - now apply chown_recursive_blocks_calls.
  - now apply chown_flat_blocks_calls.
Qed.

End MoreCommandProps.

(** ** Further properties of [mv] *)

Section MoreMvProps.

Context {env : Collaborators}.

Lemma probe_isdir_cases (c : Client) (p : string) :
  emits (probe_isdir c p)
    (fun evs r =>
       exists ans,
         evs = [EvCall (ClientGetFileInfo c p) ans]
         /\ match r with
            | inr b => probe_not_dir ans \/ b = true
            | inl e => probe_raised ans e
            end
         /\ forall b, r = inr b -> isdir_of ans b).
Proof.
  intros st st' r. unfold probe_isdir, bind, try_, call, ret, raise.
  destruct (handler _ (ClientGetFileInfo c p) (world st)) as [w' ans].
  destruct ans as [e | status].
  - destruct e; intros H; inversion H; subst; simpl;
      eexists; (split; [reflexivity |]);
      eexists; (split; [reflexivity |]);
      (split; [| intros b Hb; now inversion Hb]);
      simpl; auto; now split.
  - intros H; inversion H; subst; simpl.
    eexists; (split; [reflexivity |]);
      eexists; (split; [reflexivity |]);
      (split; [| intros b Hb; now inversion Hb]).
    simpl. destruct (fs_isdir status); auto.
Qed.

Lemma mv_resolve_raises (c : Client) (srcs : list string) (st st' : State)
    (e : Exn) :
  mv_resolve c srcs st = (st', inl e) ->
  ~ Forall (fun u => exists parsed, urlparse u = inr parsed) srcs.
Proof.
  revert st st' e. unfold mv_resolve.
  induction srcs as [| u srcs IH]; intros st st' e; simpl.
  - discriminate.
  - intros Hrun Hall. inversion Hall as [| ? ? (parsed & Hu) Hrest]; subst.
    unfold bind at 1 in Hrun. unfold bind at 1 in Hrun.
    unfold _path_for_url in Hrun.
    rewrite (bind_ok _ _ _ _ _ (py_urlparse_ok _ _ st Hu)) in Hrun.
    unfold ret at 1 in Hrun. unfold ret at 1 in Hrun.
    apply bind_inv in Hrun as [(e' & Hrun & _) | (st1 & rest & _ & Hrun)].
    + now apply (IH _ _ _ Hrun).
    + discriminate.
Qed.

Lemma mv_rename_all_infos (c : Client) (dst_path : string) (isdir : bool)
    (resolved : list string) :
  emits (mv_rename_all c dst_path isdir resolved)
    (fun evs _ => file_infos evs = []).
Proof.
  unfold mv_rename_all. induction resolved as [| src resolved IH]; simpl.
  - eapply emits_conseq; [apply emits_ret |]. intros evs r [H _]. now subst.
  - eapply emits_bind with
      (P := fun evs _ => file_infos evs = [])
      (Q := fun _ evs _ => file_infos evs = []);
      [| intros ?; exact IH | auto
       | intros a evs1 evs2 r H1 H2; rewrite file_infos_app;
         now rewrite H1, H2].
    unfold mv_rename_one.
    eapply emits_bind with
      (P := fun evs r =>
              evs = [] /\ forall p, r = inr p -> url_path src = Some p)
      (Q := fun p evs r =>
              evs = [EvCall (ClientRename c p (mv_target dst_path isdir p))
                       r]);
      [apply emits_path_for_url | intros ?; apply emits_call | |].
    + intros evs e [H _]. now subst.
    + intros p evs1 evs2 r [H1 _] H2. now subst.
Qed.

(** The two ways in which [mv] stops after its probe without renaming. *)
Lemma mv_refusals (args : MvArgs) :
  emits (mv args)
    (fun evs r =>
       forall c p ans,
         file_infos evs = [(c, p, ans)] ->
         (forall e, probe_raised ans e -> r = inl e /\ rename_calls evs = [])
         /\ (probe_not_dir ans ->
             (1 < List.length (mv_src args))%nat ->
             rename_calls evs = []
             /\ exists e,
                  r = inl e
                  /\ (Forall (fun u => exists parsed, urlparse u = inr parsed)
                        (mv_src args) ->
                      e = ValueError
                            "destination must be a directory if multiple sources are provided"))).
Proof.
  unfold mv.
  set (MV := fun (evs : list Event) (r : Exn + unit) =>
       forall c p ans,
         file_infos evs = [(c, p, ans)] ->
         (forall e, probe_raised ans e -> r = inl e /\ rename_calls evs = [])
         /\ (probe_not_dir ans ->
             (1 < List.length (mv_src args))%nat ->
             rename_calls evs = []
             /\ exists e,
                  r = inl e
                  /\ (Forall (fun u => exists parsed, urlparse u = inr parsed)
                        (mv_src args) ->
                      e = ValueError
                            "destination must be a directory if multiple sources are provided"))).
  assert (Hinit : forall init evs2 r,
             forallb init_event init = true -> MV evs2 r ->
             MV (init ++ evs2) r).
  { intros init evs2 r Hi H c p ans Hfi.
    destruct (init_silent _ Hi) as (_ & _ & _ & I4 & I5).
    rewrite file_infos_app, I5 in Hfi. rewrite rename_calls_app, I4.
    exact (H c p ans Hfi). }
  assert (Hnone : forall init e,
             forallb init_event init = true -> MV init (inl e)).
  { intros init e Hi c p ans Hfi.
    destruct (init_silent _ Hi) as (_ & _ & _ & _ & I5).
    rewrite I5 in Hfi. discriminate. }
  eapply emits_bind with
    (P := fun evs _ => evs = []) (Q := fun _ => MV);
    [apply verify_emits | intros _
    | intros evs e H; cbv beta in H; subst evs; now apply (Hnone [])
    | intros [] evs1 evs2 r H1 H2; cbv beta in H1; subst evs1; exact H2].
  eapply emits_bind with
    (P := fun evs _ => forallb init_event evs = true) (Q := fun _ => MV);
    [apply emits_client_for_url | intros client
    | intros evs e H; now apply Hnone
    | intros a evs1 evs2 r H1 H2; now apply Hinit].
  eapply emits_bind with
    (P := fun evs r =>
            evs = []
            /\ forall p, r = inr p -> url_path (mv_dst args) = Some p)
    (Q := fun _ => MV);
    [apply emits_path_for_url | intros dst_path
    | intros evs e [H _]; subst evs; now apply (Hnone [])
    | intros a evs1 evs2 r [H1 _] H2; subst evs1; exact H2].
  eapply emits_bind with
    (Q := fun isdir evs r =>
            file_infos evs = []
            /\ (isdir = false ->
                (1 < List.length (mv_src args))%nat ->
                rename_calls evs = []
                /\ exists e,
                     r = inl e
                     /\ (Forall (fun u => exists parsed,
                                     urlparse u = inr parsed) (mv_src args) ->
                         e = ValueError
                               "destination must be a directory if multiple sources are provided")));
    [apply probe_isdir_cases | intros isdir | |].
  - eapply emits_bind with
      (P := fun evs r =>
              (evs = []
               /\ forall l, r = inr l ->
                            Forall2 (fun url p => url_path url = Some p)
                              (mv_src args) l)
              /\ forall e, r = inl e ->
                           ~ Forall (fun u => exists parsed,
                                       urlparse u = inr parsed) (mv_src args))
      (Q := fun resolved evs r =>
              file_infos evs = []
              /\ (isdir = false ->
                  (1 < List.length resolved)%nat ->
                  rename_calls evs = []
                  /\ r = inl (ValueError
                                "destination must be a directory if multiple sources are provided"))).
    + apply emits_and; [apply mv_resolve_emits |].
      intros st st' r Hrun. destruct (mv_resolve_emits _ _ _ _ _ Hrun)
        as (evs & Hlog & _).
      exists evs. split; [exact Hlog |].
      intros e ->. now apply (mv_resolve_raises _ _ _ _ _ Hrun).
    + intros resolved.
      destruct ((1 <? List.length resolved)%nat && negb isdir) eqn:Hcond.
      * eapply emits_conseq; [apply emits_raise |].
        intros evs r [-> ->]. split; [reflexivity |]. now intros _ _.
      * eapply emits_conseq; [apply mv_rename_all_infos |].
        intros evs r H. split; [exact H |].
        intros -> Hlen. apply Nat.ltb_lt in Hlen.
        rewrite Hlen in Hcond. discriminate.
    + intros evs e [[-> _] Hraise]. split; [reflexivity |].
      intros _ _. split; [reflexivity |].
      exists e. split; [reflexivity |].
      intros Hall. now destruct (Hraise e eq_refl).
    + intros resolved evs1 evs2 r [[-> Hres] _] [Hfi Hq].
      split; [exact Hfi |].
      intros Hdir Hlen.
      rewrite <- (Forall2_length _ _ _ (Hres _ eq_refl)) in Hq.
      destruct (Hq Hdir Hlen) as [Hrn ->].
      split; [exact Hrn |]. eexists. split; [reflexivity | now intros _].
  - intros evs e (ans & -> & Hraised & _) c p ans' Hfi.
    inversion Hfi; subst c p ans'. split.
    + intros e' He'. destruct Hraised as [-> Hne], He' as [He' _].
      inversion He'; subst e'. now split.
    + intros Hnd. destruct Hraised as [-> Hne]. now destruct e.
  - intros isdir evs1 evs2 r (ans & -> & Hcase & Hdir) [Hfi Hq] c p ans' Hinfo.
    rewrite file_infos_app, Hfi in Hinfo. inversion Hinfo; subst c p ans'.
    change (rename_calls ([?e] ++ evs2)) with (rename_calls evs2).
    split.
    + intros e [-> Hne]. destruct Hcase as [Hnd | ->].
      * now destruct e.
      * specialize (Hdir _ eq_refl). now destruct e.
    + intros Hnd Hlen. apply Hq; [| exact Hlen].
      specialize (Hdir _ eq_refl).
      destruct ans as [e | status]; simpl in *; [exact Hdir | congruence].
Qed.

(** X9: when the probe of the destination says that it is not a directory
    (a status that is not a directory's, or [FileNotFoundError]) and there
    is more than one source, [mv] raises and makes no [rename] call; when
    the sources parse, what it raises is the [ValueError] that asks for a
    directory. *)
Theorem mv_many_sources_need_directory
    (args : MvArgs) (st st' : State) (r : Exn + unit) (evs : list Event)
    (c : Client) (p : string) (ans : Exn + FileStatus) :
  mv args st = (st', r) ->
  log st' = log st ++ evs ->
  file_infos evs = [(c, p, ans)] ->
  probe_not_dir ans ->
  (1 < List.length (mv_src args))%nat ->
  rename_calls evs = []
  /\ exists e,
       r = inl e
       /\ (Forall (fun u => exists parsed, urlparse u = inr parsed)
             (mv_src args) ->
           e = ValueError
                 "destination must be a directory if multiple sources are provided").
Proof.
  intros Hrun Hlog Hinfo Hnd Hlen.
  destruct (mv_refusals args _ _ _ Hrun) as (evs' & Hlog' & H).
  rewrite <- (log_delta_unique _ _ _ _ Hlog Hlog') in H.
  now apply (H c p ans Hinfo).
Qed.

(** X10: when [mv] completes and the probe of the destination said that it
    is not a directory, in particular when the destination is missing,
    there is at most one source and its [rename] goes to the path of the
    destination itself, not to a path below it. *)
Theorem mv_onto_path
    (args : MvArgs) (st st' : State) (evs : list Event)
    (client : Client) (dst_path : string) (ans : Exn + FileStatus) :
  mv args st = (st', inr tt) ->
  log st' = log st ++ evs ->
  file_infos evs = [(client, dst_path, ans)] ->
  isdir_of ans false ->
  (List.length (mv_src args) <= 1)%nat
  /\ exists paths,
       Forall2 (fun url p => mv_src_path url = Some p) (mv_src args) paths
       /\ rename_calls evs = map (fun p => (client, p, dst_path)) paths.
Proof.
  intros Hrun Hlog Hinfo Hnot.
  destruct (mv_refusals args _ _ _ Hrun) as (evs' & Hlog' & Href).
  rewrite <- (log_delta_unique _ _ _ _ Hlog Hlog') in Href. clear evs' Hlog'.
  destruct (Href _ _ _ Hinfo) as [Hraise Hmany].
  assert (Hnd : probe_not_dir ans).
  { destruct ans as [e | status]; simpl in *; [| congruence].
    destruct e; try exact I; exfalso;
      (edestruct Hraise as [Hr _];
       [split; [reflexivity | exact I] | discriminate]). }
  split.
  - destruct (le_lt_dec (List.length (mv_src args)) 1) as [Hle | Hlt];
      [exact Hle |].
    destruct (Hmany Hnd Hlt) as (_ & e & He & _). discriminate.
  - destruct (mv_completed args _ _ _ Hrun) as (evs' & Hlog' & H).
    rewrite <- (log_delta_unique _ _ _ _ Hlog Hlog') in H. clear evs' Hlog'.
    destruct (H eq_refl)
      as (init & c & dp & ans' & isdir & paths & Hinit & Hdp & Hi & Hp & ->).
    destruct (init_silent _ Hinit) as (_ & _ & _ & I4 & I5).
    destruct (returned_rename c (mv_target dp isdir) paths) as [R1 R2].
    rewrite file_infos_app, I5 in Hinfo.
    change (file_infos (?e :: ?r)) with ((c, dp, ans') :: file_infos r)
      in Hinfo.
    rewrite R2 in Hinfo. simpl in Hinfo.
    inversion Hinfo; subst c dp ans'.
    assert (isdir = false) as ->
      by (destruct ans; simpl in *; congruence).
    exists paths. split; [exact Hp |].
    rewrite rename_calls_app, I4.
    change (rename_calls (?e :: ?r)) with (rename_calls r).
    now rewrite R1.
Qed.

(** X11: when the probe of the destination raises anything but
    [FileNotFoundError], [mv] raises that same exception and makes no
    [rename] call. *)
Theorem mv_probe_error_propagates
    (args : MvArgs) (st st' : State) (r : Exn + unit) (evs : list Event)
    (c : Client) (p : string) (e : Exn) :
  mv args st = (st', r) ->
  log st' = log st ++ evs ->
  file_infos evs = [(c, p, inl e)] ->
  (forall msg, e <> FileNotFoundError msg) ->
  r = inl e /\ rename_calls evs = [].
Proof.
  intros Hrun Hlog Hinfo Hne.
  destruct (mv_refusals args _ _ _ Hrun) as (evs' & Hlog' & H).
  rewrite <- (log_delta_unique _ _ _ _ Hlog Hlog') in H.
  apply (H c p (inl e) Hinfo). split; [reflexivity |].
  destruct e; try exact I. now destruct (Hne msg).
Qed.

End MoreMvProps.

(** ** Further properties of the transfers *)

Section MoreTransferProps.

Context {env : Collaborators}.

Lemma quiet_projections (evs : list Event) :
  forallb no_open_close evs = true ->
  opened_readers evs = [] /\ closed_readers evs = []
  /\ opened_locals evs = [] /\ closed_locals evs = []
  /\ opened_writers evs = [] /\ closed_writers evs = [].
Proof.
  induction evs as [| ev evs IH]; [now repeat split |].
  simpl. intros H. apply andb_prop in H as [H1 H2].
  destruct (IH H2) as (I1 & I2 & I3 & I4 & I5 & I6).
  unfold opened_readers, closed_readers, opened_locals, closed_locals,
    opened_writers, closed_writers in *. simpl.
  rewrite I1, I2, I3, I4, I5, I6.
  destruct ev as [R op r |]; [| now repeat split].
  destruct op; try discriminate; now repeat split.
Qed.

Lemma quiet_closes (evs : list Event) :
  forallb no_open_close evs = true -> closes_what_it_opens evs.
Proof.
  intros H. destruct (quiet_projections _ H) as (I1 & I2 & I3 & I4 & I5 & I6).
  unfold closes_what_it_opens. now rewrite I1, I2, I3, I4, I5, I6.
Qed.

Lemma closes_app (a b : list Event) :
  closes_what_it_opens a -> closes_what_it_opens b ->
  closes_what_it_opens (a ++ b).
Proof.
  unfold closes_what_it_opens, opened_readers, closed_readers, opened_locals,
    closed_locals, opened_writers, closed_writers.
  intros (A1 & A2 & A3) (B1 & B2 & B3). rewrite !flat_map_app.
  now rewrite A1, A2, A3, B1, B2, B3.
Qed.

Lemma download_body_quiet (remote_file : FileReader) (local_file : LocalFile) :
  emits
    (bind (call (ReadRangeStream remote_file 0 (file_length remote_file)))
       (fun chunks =>
          for_stream chunks (fun chunk => call (LocalWrite local_file chunk))))
    (fun evs _ => forallb no_open_close evs = true).
Proof.
  apply only_bind; [now apply only_call | intros chunks].
  apply only_for_stream. intros chunk. now apply only_call.
Qed.

(** The shape of the history of the copy of a download, whatever its
    outcome. *)
Lemma download_copy_shape (client : Client) (remote_src local_dst : string) :
  emits (download_copy client remote_src local_dst)
    (fun evs _ =>
       (exists e, evs = [EvCall (ClientRead client remote_src) (inl e)])
       \/ (exists remote_file rc,
             (exists e,
                evs = [EvCall (ClientRead client remote_src) (inr remote_file);
                       EvCall (OpenWb local_dst) (inl e);
                       EvCall (ReaderClose remote_file) rc])
             \/ (exists local_file body rc',
                   evs = EvCall (ClientRead client remote_src)
                           (inr remote_file)
                           :: EvCall (OpenWb local_dst) (inr local_file)
                           :: body
                           ++ [EvCall (LocalClose local_file) rc';
                               EvCall (ReaderClose remote_file) rc]
                   /\ forallb no_open_close body = true))).
Proof.
  unfold download_copy. eapply emits_conseq.
  - apply emits_with_call with
      (B := fun remote_file evs (_ : Exn + unit) =>
              (exists e, evs = [EvCall (OpenWb local_dst) (inl e)])
              \/ (exists local_file body rc',
                    evs = EvCall (OpenWb local_dst) (inr local_file)
                            :: body ++ [EvCall (LocalClose local_file) rc']
                    /\ forallb no_open_close body = true)).
    intros remote_file. eapply emits_conseq.
    + apply emits_with_call with
        (B := fun local_file evs (_ : Exn + unit) =>
                forallb no_open_close evs = true).
      intros local_file. apply download_body_quiet.
    + intros evs r [(e & -> & _) | (h & evs_b & rb & rc & -> & Hb & _)].
      * left. now exists e.
      * right. now exists h, evs_b, rc.
  - intros evs r [(e & -> & _) | (h & evs_b & rb & rc & -> & Hb & _)].
    + left. now exists e.
    + right. exists h, rc.
      destruct Hb as [(e & ->) | (local_file & body & rc' & -> & Hq)].
      * left. now exists e.
      * right. exists local_file, body, rc'. split; [| exact Hq].
        simpl. now rewrite <- app_assoc.
Qed.

Lemma download_copy_closes (client : Client) (remote_src local_dst : string) :
  emits (download_copy client remote_src local_dst)
    (fun evs _ => closes_what_it_opens evs).
Proof.
  eapply emits_conseq; [apply download_copy_shape |].
  intros evs _ [(e & ->) | (f & rc & [(e & ->) | (lf & body & rc' & -> & Hq)])].
  - now repeat split.
  - now repeat split.
  - destruct (quiet_projections _ Hq) as (I1 & I2 & I3 & I4 & I5 & I6).
    unfold closes_what_it_opens, opened_readers, closed_readers,
      opened_locals, closed_locals, opened_writers, closed_writers in *.
    simpl. rewrite !flat_map_app.
    now rewrite I1, I2, I3, I4, I5, I6.
Qed.

Lemma download_guard_quiet (local_dst : string) (force : bool) :
  emits (download_guard local_dst force)
    (fun evs _ => forallb no_open_close evs = true).
Proof.
  unfold download_guard.
  apply only_bind.
  - destruct force; simpl; [apply only_ret |].
    intros st st' r H. unfold path_exists in H. inversion H; subst. simpl.
    now eexists.
  - intros b. destruct b; [apply only_raise | apply only_ret].
Qed.

Lemma download_preserve_quiet (client : Client)
    (remote_src local_dst : string) :
  emits (download_preserve client remote_src local_dst)
    (fun evs _ => forallb no_open_close evs = true).
Proof.
  unfold download_preserve.
  apply only_bind; [now apply only_call | intros status].
  apply only_bind; [apply only_of_result | intros atime].
  apply only_bind; [apply only_of_result | intros mtime].
  apply only_bind; [now apply only_call | intros _]. now apply only_call.
Qed.

(** X12: in every run of [_download_file], whatever its outcome, the remote
    file that was opened for reading is closed and the local file that was
    opened is closed: the history closes exactly the files that it opened,
    also when the copy raised in the middle. *)
Theorem download_closes_what_it_opens
    (client : Client) (remote_src local_dst : string)
    (force preserve : bool) (st st' : State) (r : Exn + unit)
    (evs : list Event) :
  _download_file client remote_src local_dst force preserve st = (st', r) ->
  log st' = log st ++ evs ->
  closes_what_it_opens evs.
Proof.
  intros Hrun Hlog.
  assert (H : emits
                (_download_file client remote_src local_dst force preserve)
                (fun evs _ => closes_what_it_opens evs)).
  { unfold _download_file.
    eapply emits_bind with
      (P := fun evs _ => closes_what_it_opens evs)
      (Q := fun _ evs _ => closes_what_it_opens evs);
      [eapply emits_conseq; [apply download_guard_quiet |];
       intros ? ? ?; now apply quiet_closes
      | intros _ | auto | intros; now apply closes_app].
    eapply emits_bind with
      (P := fun evs _ => closes_what_it_opens evs)
      (Q := fun _ evs _ => closes_what_it_opens evs);
      [apply download_copy_closes | intros _ | auto
      | intros; now apply closes_app].
    eapply emits_conseq with
      (P := fun evs _ => forallb no_open_close evs = true);
      [| intros ? ? ?; now apply quiet_closes].
    destruct preserve; [apply download_preserve_quiet | apply only_ret]. }
  destruct (H _ _ _ Hrun) as (evs' & Hlog' & Hc).
  now rewrite (log_delta_unique _ _ _ _ Hlog Hlog').
Qed.

Lemma upload_body_quiet (fsrc : LocalFile) (fdst : FileWriter) :
  emits (copyfileobj fsrc fdst)
    (fun evs _ => forallb no_open_close evs = true).
Proof.
  unfold copyfileobj.
  apply only_bind; [now apply only_call | intros chunks].
  apply only_for_stream. intros chunk. now apply only_call.
Qed.

(** X13: in every run of [_upload_file], whatever its outcome, the local
    file that was opened is closed and the remote file that was created is
    closed: the history closes exactly the files that it opened, also when
    the copy raised in the middle. *)
Theorem upload_closes_what_it_opens
    (client : Client) (local_src remote_dst : string)
    (force preserve : bool) (st st' : State) (r : Exn + unit)
    (evs : list Event) :
  _upload_file client local_src remote_dst force preserve st = (st', r) ->
  log st' = log st ++ evs ->
  closes_what_it_opens evs.
Proof.
  intros Hrun Hlog.
  assert (H : emits
                (_upload_file client local_src remote_dst force preserve)
                (fun evs _ => closes_what_it_opens evs)).
  { unfold _upload_file. eapply emits_conseq.
    - apply emits_with_call with
        (B := fun local_file evs (_ : Exn + unit) =>
                (exists e,
                   evs = [EvCall (ClientCreate client remote_dst) (inl e)])
                \/ (exists remote_file body rc',
                      evs = EvCall (ClientCreate client remote_dst)
                              (inr remote_file)
                              :: body ++ [EvCall (WriterClose remote_file) rc']
                      /\ forallb no_open_close body = true)).
      intros local_file. eapply emits_conseq.
      + apply emits_with_call with
          (B := fun remote_file evs (_ : Exn + unit) =>
                  forallb no_open_close evs = true).
        intros remote_file. apply upload_body_quiet.
      + intros evs0 r0 [(e & -> & _) | (h & evs_b & rb & rc & -> & Hb & _)].
        * left. now exists e.
        * right. now exists h, evs_b, rc.
    - intros evs0 r0 [(e & -> & _) | (h & evs_b & rb & rc & -> & Hb & _)].
      + now repeat split.
      + destruct Hb as [(e & ->) | (remote_file & body & rc' & -> & Hq)].
        * now repeat split.
        * destruct (quiet_projections _ Hq) as (I1 & I2 & I3 & I4 & I5 & I6).
          unfold closes_what_it_opens, opened_readers, closed_readers,
            opened_locals, closed_locals, opened_writers, closed_writers
            in *.
          simpl. rewrite ?flat_map_app. simpl. rewrite ?flat_map_app.
          now rewrite I1, I2, I3, I4, I5, I6. }
  destruct (H _ _ _ Hrun) as (evs' & Hlog' & Hc).
  now rewrite (log_delta_unique _ _ _ _ Hlog Hlog').
Qed.

End MoreTransferProps.

(** ** What a download moves, and where a move lands *)

Section MoreDownloadProps.

Context {env : Collaborators}.

Lemma returned_local_writes (f : LocalFile) (chunks : list bytes) :
  local_writes (returned (LocalWrite f) chunks) = chunks
  /\ streamed (returned (LocalWrite f) chunks) = []
  /\ stream_ranges (returned (LocalWrite f) chunks) = [].
Proof.
  induction chunks as [| c chunks (IH1 & IH2 & IH3)]; [now repeat split |].
  unfold local_writes, streamed, stream_ranges in *. simpl.
  now rewrite IH1, IH2, IH3.
Qed.

Lemma no_transfer_projections (evs : list Event) :
  forallb no_transfer evs = true ->
  local_writes evs = [] /\ streamed evs = [] /\ stream_ranges evs = [].
Proof.
  induction evs as [| ev evs IH]; [now repeat split |].
  simpl. intros H. apply andb_prop in H as [H1 H2].
  destruct (IH H2) as (I1 & I2 & I3).
  unfold local_writes, streamed, stream_ranges in *. simpl.
  rewrite I1, I2, I3.
  destruct ev as [R op r |]; [| now repeat split].
  destruct op; try discriminate; now repeat split.
Qed.

Lemma download_body_completed (remote_file : FileReader)
    (local_file : LocalFile) :
  emits
    (bind (call (ReadRangeStream remote_file 0 (file_length remote_file)))
       (fun chunks =>
          for_stream chunks (fun chunk => call (LocalWrite local_file chunk))))
    (fun evs r =>
       r = inr tt ->
       exists chunks,
         evs = EvCall (ReadRangeStream remote_file 0
                         (file_length remote_file)) (inr (chunks, None))
                 :: returned (LocalWrite local_file) chunks).
Proof.
  eapply emits_bind with
    (P := fun evs r =>
            evs = [EvCall (ReadRangeStream remote_file 0
                             (file_length remote_file)) r])
    (Q := fun s evs r =>
            r = inr tt ->
            snd s = None /\ evs = returned (LocalWrite local_file) (fst s)).
  - apply emits_call.
  - intros s. unfold for_stream.
    eapply emits_bind with
      (P := fun evs r =>
              (r = inr tt -> evs = returned (LocalWrite local_file) (fst s))
              /\ (forall e, r = inl e -> In e (raised_in evs)))
      (Q := fun _ evs r =>
              evs = []
              /\ r = match snd s with Some e => inl e | None => inr tt end).
    + now apply emits_for_each_calls.
    + intros _. destruct (snd s); [apply emits_raise | apply emits_ret].
    + discriminate.
    + intros [] evs1 evs2 r [H1 _] [H2 H3] Hr. subst evs2.
      rewrite app_nil_r. rewrite (H1 eq_refl). split; [| reflexivity].
      rewrite Hr in H3. destruct (snd s); [discriminate | reflexivity].
  - discriminate.
  - intros [chunks err] evs1 evs2 r H1 Hok Hr. cbv beta in H1. subst evs1.
    destruct (Hok Hr) as [Herr ->]. simpl in Herr. subst err.
    now exists chunks.
Qed.

Lemma download_copy_completed (client : Client)
    (remote_src local_dst : string) :
  emits (download_copy client remote_src local_dst)
    (fun evs r => r = inr tt -> copy_events client remote_src local_dst evs).
Proof.
  unfold download_copy. eapply emits_conseq.
  - apply emits_with_call with
      (B := fun remote_file evs r =>
              r = inr tt ->
              exists local_file chunks,
                evs = EvCall (OpenWb local_dst) (inr local_file)
                        :: EvCall (ReadRangeStream remote_file 0
                                     (file_length remote_file))
                             (inr (chunks, None))
                        :: returned (LocalWrite local_file) chunks
                        ++ [EvCall (LocalClose local_file) (inr tt)]).
    intros remote_file. eapply emits_conseq.
    + apply emits_with_call with
        (B := fun local_file evs r =>
                r = inr tt ->
                exists chunks,
                  evs = EvCall (ReadRangeStream remote_file 0
                                  (file_length remote_file))
                          (inr (chunks, None))
                          :: returned (LocalWrite local_file) chunks).
      intros local_file. apply download_body_completed.
    + intros evs r [(e & -> & ->) | (h & evs_b & rb & rc & -> & Hb & ->)];
        [discriminate |].
      intros Hr. destruct rc as [e' | []]; [discriminate |].
      destruct (Hb Hr) as (chunks & ->). now exists h, chunks.
  - intros evs r [(e & -> & ->) | (h & evs_b & rb & rc & -> & Hb & ->)];
      [discriminate |].
    intros Hr. destruct rc as [e' | []]; [discriminate |].
    destruct (Hb Hr) as (local_file & chunks & ->).
    exists h, local_file, chunks. simpl. now rewrite <- app_assoc.
Qed.

Lemma download_guard_no_transfer (local_dst : string) (force : bool) :
  emits (download_guard local_dst force)
    (fun evs _ => forallb no_transfer evs = true).
Proof.
  unfold download_guard.
  apply only_bind.
  - destruct force; simpl; [apply only_ret |].
    intros st st' r H. unfold path_exists in H. inversion H; subst. simpl.
    now eexists.
  - intros b. destruct b; [apply only_raise | apply only_ret].
Qed.

Lemma download_preserve_no_transfer (client : Client)
    (remote_src local_dst : string) :
  emits (download_preserve client remote_src local_dst)
    (fun evs _ => forallb no_transfer evs = true).
Proof.
  unfold download_preserve.
  apply only_bind; [now apply only_call | intros status].
  apply only_bind; [apply only_of_result | intros atime].
  apply only_bind; [apply only_of_result | intros mtime].
  apply only_bind; [now apply only_call | intros _]. now apply only_call.
Qed.

Lemma copy_events_bytes (client : Client) (remote_src local_dst : string)
    (evs : list Event) :
  copy_events client remote_src local_dst evs ->
  local_writes evs = streamed evs
  /\ exists len, stream_ranges evs = [(0, len, len)].
Proof.
  intros (remote_file & local_file & chunks & ->).
  destruct (returned_local_writes local_file chunks) as (R1 & R2 & R3).
  unfold local_writes, streamed, stream_ranges in *. simpl.
  rewrite !flat_map_app, R1, R2, R3. simpl. rewrite !app_nil_r.
  split; [reflexivity | now exists (file_length remote_file)].
Qed.

(** X14: when [_download_file] completes, the data that it wrote to the
    local file are the chunks that the remote stream yielded, in order and
    each once; and it asked the remote file for one range only, from offset
    0 and as long as the file. *)
Theorem download_copies_bytes
    (client : Client) (remote_src local_dst : string)
    (force preserve : bool) (st st' : State) (evs : list Event) :
  _download_file client remote_src local_dst force preserve st
  = (st', inr tt) ->
  log st' = log st ++ evs ->
  local_writes evs = streamed evs
  /\ exists len, stream_ranges evs = [(0, len, len)].
Proof.
  intros Hrun Hlog.
  assert (H : emits
                (_download_file client remote_src local_dst force preserve)
                (fun evs r =>
                   r = inr tt ->
                   local_writes evs = streamed evs
                   /\ exists len, stream_ranges evs = [(0, len, len)])).
  { unfold _download_file.
    eapply emits_bind with
      (P := fun evs _ => forallb no_transfer evs = true)
      (Q := fun _ evs r =>
              r = inr tt ->
              local_writes evs = streamed evs
              /\ exists len, stream_ranges evs = [(0, len, len)]);
      [apply download_guard_no_transfer | intros _ | discriminate |].
    - eapply emits_bind with
        (P := fun evs r =>
                r = inr tt ->
                copy_events client remote_src local_dst evs)
        (Q := fun _ evs _ => forallb no_transfer evs = true);
        [apply download_copy_completed | intros _ | discriminate |].
      + destruct preserve;
          [apply download_preserve_no_transfer | apply only_ret].
      + intros [] evs1 evs2 r0 H1 H2 _.
        destruct (copy_events_bytes _ _ _ _ (H1 eq_refl)) as (C1 & len & C2).
        destruct (no_transfer_projections _ H2) as (N1 & N2 & N3).
        unfold local_writes, streamed, stream_ranges in *.
        rewrite !flat_map_app, N1, N2, N3, C1, C2.
        split; [reflexivity | now exists len].
    - intros [] evs1 evs2 r0 H1 H2 Hr.
      destruct (H2 Hr) as (C1 & len & C2).
      destruct (no_transfer_projections _ H1) as (N1 & N2 & N3).
      unfold local_writes, streamed, stream_ranges in *.
      rewrite !flat_map_app, N1, N2, N3, C1, C2.
      split; [reflexivity | now exists len]. }
  destruct (H _ _ _ Hrun) as (evs' & Hlog' & Hc).
  rewrite (log_delta_unique _ _ _ _ Hlog Hlog'). now apply Hc.
Qed.

(** X15: the calls of [_download_file] are only the test of the local
    destination, the opening, streaming and closing of the remote file and
    the opening, writing and closing of the local one, and, only when
    [preserve] is set, [get_file_info], [os.utime] and [os.chmod]: it never
    changes anything on the remote side; and with [force] set it does not
    even test whether the destination exists. *)
Theorem download_event_kinds
    (client : Client) (remote_src local_dst : string)
    (force preserve : bool) (st st' : State) (r : Exn + unit)
    (evs : list Event) :
  _download_file client remote_src local_dst force preserve st = (st', r) ->
  log st' = log st ++ evs ->
  forallb (download_event preserve) evs = true
  /\ (force = true ->
      forallb (fun ev => negb (is_exists_test ev)) evs = true).
Proof.
  intros Hrun Hlog.
  assert (Hcopy : forall ok : Event -> bool,
             (forall R (op : Op R) r,
                download_event false (EvCall op r) = true ->
                ok (EvCall op r) = true) ->
             emits (download_copy client remote_src local_dst)
               (fun evs _ => forallb ok evs = true)).
  { intros ok Hok. unfold download_copy.
    apply only_with;
      [apply only_call; intros; now apply Hok
      | intros h; apply only_call; intros; now apply Hok |].
    intros remote_file.
    apply only_with;
      [apply only_call; intros; now apply Hok
      | intros h; apply only_call; intros; now apply Hok |].
    intros local_file.
    apply only_bind; [apply only_call; intros; now apply Hok |].
    intros chunks. apply only_for_stream. intros chunk.
    apply only_call; intros; now apply Hok. }
  split.
  - assert (H : emits
                  (_download_file client remote_src local_dst force preserve)
                  (fun evs _ => forallb (download_event preserve) evs = true)).
    { unfold _download_file, download_guard, download_preserve.
      apply only_bind.
      - apply only_bind.
        + destruct force; simpl; [apply only_ret |].
          intros s s' r' H. unfold path_exists in H. inversion H; subst.
          simpl. now eexists.
        + intros b. destruct b; [apply only_raise | apply only_ret].
      - intros _. apply only_bind.
        + apply Hcopy. intros R op r' H.
          destruct op; simpl in *; try reflexivity; discriminate.
        + intros _. destruct preserve; [| apply only_ret].
          apply only_bind; [now apply only_call | intros status].
          apply only_bind; [apply only_of_result | intros atime].
          apply only_bind; [apply only_of_result | intros mtime].
          apply only_bind; [now apply only_call | intros _].
          now apply only_call. }
    destruct (H _ _ _ Hrun) as (evs' & Hlog' & Hc).
    now rewrite (log_delta_unique _ _ _ _ Hlog Hlog').
  - intros ->.
    assert (H : emits
                  (_download_file client remote_src local_dst true preserve)
                  (fun evs _ =>
                     forallb (fun ev => negb (is_exists_test ev)) evs = true)).
    { unfold _download_file, download_guard, download_preserve. simpl.
      apply only_bind.
      - apply only_bind; [apply only_ret | intros b].
        destruct b; [apply only_raise | apply only_ret].
      - intros _. apply only_bind.
        + apply Hcopy. intros R op r' _. reflexivity.
        + intros _. destruct preserve; [| apply only_ret].
          apply only_bind; [now apply only_call | intros status].
          apply only_bind; [apply only_of_result | intros atime].
          apply only_bind; [apply only_of_result | intros mtime].
          apply only_bind; [now apply only_call | intros _].
          now apply only_call. }
    destruct (H _ _ _ Hrun) as (evs' & Hlog' & Hc).
    now rewrite (log_delta_unique _ _ _ _ Hlog Hlog').
Qed.

End MoreDownloadProps.

(** ** The other commands: histories of the further calls *)

Section ShellProps.

Context {sh : Shell}.

#[local] Existing Instance shell_env.

Context {pool : ThreadPool}.

Lemma xemits_conseq {A : Type} (m : M A)
    (P Q : list EventX -> Exn + A -> Prop) :
  xemits m P -> (forall xs r, P xs r -> Q xs r) -> xemits m Q.
Proof.
  intros Hm HPQ st st' r Hrun.
  destruct (Hm _ _ _ Hrun) as (xs & Hlog & HP). eauto.
Qed.

Lemma xemits_ret {A : Type} (a : A) :
  xemits (ret a) (fun xs r => xs = [] /\ r = inr a).
Proof.
  intros st st' r H. inversion H; subst.
  exists []. now rewrite app_nil_r.
Qed.

Lemma xemits_raise {A : Type} (e : Exn) :
  xemits (@raise _ A e) (fun xs r => xs = [] /\ r = inl e).
Proof.
  intros st st' r H. inversion H; subst.
  exists []. now rewrite app_nil_r.
Qed.

Lemma xemits_bind {A B : Type} (m : M A) (k : A -> M B)
    (P : list EventX -> Exn + A -> Prop)
    (Q : A -> list EventX -> Exn + B -> Prop)
    (R : list EventX -> Exn + B -> Prop) :
  xemits m P -> (forall a, xemits (k a) (Q a)) ->
  (forall xs e, P xs (inl e) -> R xs (inl e)) ->
  (forall a xs1 xs2 r, P xs1 (inr a) -> Q a xs2 r -> R (xs1 ++ xs2) r) ->
  xemits (bind m k) R.
Proof.
  intros Hm Hk Hraise Hseq st st' r Hrun.
  apply bind_inv in Hrun as [(e & Hrun & ->) | (st1 & a & Hrun & Hrun')].
  - destruct (Hm _ _ _ Hrun) as (xs & Hlog & HP). eauto.
  - destruct (Hm _ _ _ Hrun) as (xs1 & Hlog1 & HP).
    destruct (Hk a _ _ _ Hrun') as (xs2 & Hlog2 & HQ).
    exists (xs1 ++ xs2). split; [| eauto].
    now rewrite Hlog2, Hlog1, app_assoc.
Qed.

Lemma xemits_callx {R : Type} (op : OpX R) :
  xemits (callx op) (fun xs r => xs = [XCall op r]).
Proof.
  intros st st' r. unfold callx.
  destruct (shell_handler_x R op (fst (world st))) as [w' r'].
  intros H. inversion H; subst. now exists [XCall op r].
Qed.

Lemma xemits_isdir (p : string) :
  xemits (path_isdir p)
    (fun xs r => exists b, xs = [XIsdir p b] /\ r = inr b).
Proof.
  intros st st' r H. unfold path_isdir in H. inversion H; subst.
  eexists. split; [reflexivity |]. now eexists.
Qed.

(** The calls of the commands modelled before leave the history of the
    further calls as it is. *)
Lemma call_keeps_xlog {R : Type} (op : Op R) st st' r :
  call op st = (st', r) -> xlog st' = xlog st.
Proof.
  intros H. apply call_inv in H as (w' & Hh & ->).
  unfold xlog. simpl in *.
  destruct (shell_handler R op (fst (world st))) as [w1 r1].
  now inversion Hh.
Qed.

Lemma get_client_keeps_xlog (k : option string) st st' r :
  _get_client k st = (st', r) -> xlog st' = xlog st.
Proof.
  unfold _get_client.
  destruct (cache st !! k) as [c |]; [intros H; now inversion H |].
  unfold Client_new, bind, call, ret, xlog. simpl.
  destruct (shell_handler unit (ClientInit (next_client st) k)
              (fst (world st))) as [w' [e | []]];
    simpl; intros H; inversion H; reflexivity.
Qed.

Lemma client_for_url_keeps_xlog (url : string) st st' r :
  _client_for_url url st = (st', r) -> xlog st' = xlog st.
Proof.
  intros H.
  destruct (client_for_url_key _ _ _ _ H) as [[-> _] | (k & Hk)];
    [reflexivity | now apply get_client_keeps_xlog in Hk].
Qed.

Section Invariants.

(** A property of histories that the empty history has and that appending
    keeps is kept by sequences and loops of computations that keep it. *)
Variable P : list EventX -> Prop.
Hypothesis P_nil : P [].
Hypothesis P_app : forall a b, P a -> P b -> P (a ++ b).

Lemma xinv_bind {A B : Type} (m : M A) (k : A -> M B) :
  xemits m (fun xs _ => P xs) ->
  (forall a, xemits (k a) (fun xs _ => P xs)) ->
  xemits (bind m k) (fun xs _ => P xs).
Proof.
  intros Hm Hk. eapply xemits_bind; [exact Hm | exact Hk | auto |].
  intros a xs1 xs2 r H1 H2. now apply P_app.
Qed.

Lemma xinv_ret {A : Type} (a : A) : xemits (ret a) (fun xs _ => P xs).
Proof.
  eapply xemits_conseq; [apply xemits_ret |]. intros xs r [H _]. now subst.
Qed.

Lemma xinv_raise {A : Type} (e : Exn) :
  xemits (@raise _ A e) (fun xs _ => P xs).
Proof.
  eapply xemits_conseq; [apply xemits_raise |]. intros xs r [H _]. now subst.
Qed.

Lemma xinv_keeps {A : Type} (m : M A) :
  (forall st st' r, m st = (st', r) -> xlog st' = xlog st) ->
  xemits m (fun xs _ => P xs).
Proof.
  intros Hm st st' r H. exists []. rewrite app_nil_r.
  split; [now apply Hm in H | exact P_nil].
Qed.

Lemma xinv_call {R : Type} (op : Op R) : xemits (call op) (fun xs _ => P xs).
Proof. apply xinv_keeps. intros st st' r. apply call_keeps_xlog. Qed.

Lemma xinv_client_for_url (url : string) :
  xemits (_client_for_url url) (fun xs _ => P xs).
Proof. apply xinv_keeps. intros st st' r. apply client_for_url_keeps_xlog. Qed.

Lemma xinv_path_for_url (url : string) :
  xemits (_path_for_url url) (fun xs _ => P xs).
Proof.
  apply xinv_keeps. intros st st' r.
  unfold _path_for_url, bind, py_urlparse, ret, raise.
  destruct (urlparse url); intros H; now inversion H.
Qed.

Lemma xinv_of_result {A : Type} (r : Exn + A) :
  xemits (of_result r) (fun xs _ => P xs).
Proof. apply xinv_keeps. intros st st' r' H. now inversion H. Qed.

Lemma xinv_exists (p : string) : xemits (path_exists p) (fun xs _ => P xs).
Proof.
  apply xinv_keeps. intros st st' r H. unfold path_exists in H.
  now inversion H.
Qed.

Lemma xinv_try {A : Type} (m : M A) :
  xemits m (fun xs _ => P xs) -> xemits (try_ m) (fun xs _ => P xs).
Proof.
  intros Hm st st' r Hrun. unfold try_ in Hrun.
  destruct (m st) as [st1 r0] eqn:Hm0. inversion Hrun; subst.
  destruct (Hm _ _ _ Hm0) as (xs & Hlog & HP). eauto.
Qed.

Lemma xinv_with {H A : Type} (enter : M H) (exit : H -> M unit)
    (body : H -> M A) :
  xemits enter (fun xs _ => P xs) ->
  (forall h, xemits (exit h) (fun xs _ => P xs)) ->
  (forall h, xemits (body h) (fun xs _ => P xs)) ->
  xemits (with_ enter exit body) (fun xs _ => P xs).
Proof.
  intros Henter Hexit Hbody. unfold with_.
  apply xinv_bind; [exact Henter | intros h].
  apply xinv_bind; [apply xinv_try, Hbody | intros r].
  apply xinv_bind; [apply Hexit | intros _].
  destruct r; [apply xinv_raise | apply xinv_ret].
Qed.

Lemma xinv_for_each {A : Type} (l : list A) (body : A -> M unit) :
  (forall x, xemits (body x) (fun xs _ => P xs)) ->
  xemits (for_each l body) (fun xs _ => P xs).
Proof.
  intros Hbody. induction l as [| x l IH]; simpl.
  - apply xinv_ret.
  - apply xinv_bind; [apply Hbody | intros _; exact IH].
Qed.

Lemma xinv_for_stream (s : Stream) (body : bytes -> M unit) :
  (forall x, xemits (body x) (fun xs _ => P xs)) ->
  xemits (for_stream s body) (fun xs _ => P xs).
Proof.
  intros Hbody. unfold for_stream.
  apply xinv_bind; [now apply xinv_for_each | intros _].
  destruct (snd s); [apply xinv_raise | apply xinv_ret].
Qed.

Lemma xinv_then (m k : M (option unit)) :
  xemits m (fun xs _ => P xs) -> xemits k (fun xs _ => P xs) ->
  xemits (then_ m k) (fun xs _ => P xs).
Proof.
  intros Hm Hk. unfold then_. apply xinv_bind; [exact Hm | intros r].
  destruct r; [exact Hk | apply xinv_ret].
Qed.

Lemma xinv_for_each_fuel {A : Type} (l : list A)
    (body : A -> M (option unit)) :
  (forall x, xemits (body x) (fun xs _ => P xs)) ->
  xemits (for_each_fuel l body) (fun xs _ => P xs).
Proof.
  intros Hbody. induction l as [| x l IH]; simpl.
  - apply xinv_ret.
  - apply xinv_then; [apply Hbody | exact IH].
Qed.

Lemma xinv_download_file (client : Client) (remote_src local_dst : string)
    (force preserve : bool) :
  xemits (_download_file client remote_src local_dst force preserve)
    (fun xs _ => P xs).
Proof.
  unfold _download_file, download_guard, download_copy, download_preserve.
  apply xinv_bind.
  - apply xinv_bind.
    + destruct force; simpl; [apply xinv_ret | apply xinv_exists].
    + intros b. destruct b; [apply xinv_raise | apply xinv_ret].
  - intros _. apply xinv_bind.
    + apply xinv_with; [apply xinv_call | intros h; apply xinv_call |].
      intros remote_file.
      apply xinv_with; [apply xinv_call | intros h; apply xinv_call |].
      intros local_file. apply xinv_bind; [apply xinv_call | intros chunks].
      apply xinv_for_stream. intros chunk. apply xinv_call.
    + intros _. destruct preserve; [| apply xinv_ret].
      apply xinv_bind; [apply xinv_call | intros status].
      apply xinv_bind; [apply xinv_of_result | intros atime].
      apply xinv_bind; [apply xinv_of_result | intros mtime].
      apply xinv_bind; [apply xinv_call | intros _]. apply xinv_call.
Qed.

End Invariants.

Lemma xlog_delta_unique (st st' : State) (a b : list EventX) :
  xlog st' = xlog st ++ a -> xlog st' = xlog st ++ b -> a = b.
Proof. intros Ha Hb. rewrite Ha in Hb. now apply app_inv_head in Hb. Qed.

Lemma xemits_path_for_url (url : string) :
  xemits (_path_for_url url)
    (fun xs r => xs = [] /\ forall p, r = inr p -> url_path url = Some p).
Proof.
  intros st st' r. unfold _path_for_url, bind, py_urlparse, url_path, ret.
  destruct (urlparse url) as [msg | parsed]; intros H; inversion H; subst;
    exists []; rewrite app_nil_r; repeat split; try discriminate.
  intros p Hp. now inversion Hp.
Qed.

(** *** mkdir *)

Lemma mkdir_one_x (create_parent : bool) (url : string) :
  xemits (mkdir_one create_parent url)
    (fun xs r =>
       (xs = [] /\ exists e, r = inl e)
       \/ (exists c p,
             url_path url = Some p
             /\ xs = [XCall (ClientMkdirs c p create_parent) r])).
Proof.
  unfold mkdir_one.
  eapply xemits_bind with
    (P := fun xs _ => xs = [])
    (Q := fun c xs r =>
            (xs = [] /\ exists e, r = inl e)
            \/ (exists c p,
                  url_path url = Some p
                  /\ xs = [XCall (ClientMkdirs c p create_parent) r])).
  - now apply xinv_client_for_url.
  - intros c.
    eapply xemits_bind with
      (P := fun xs r =>
              xs = [] /\ forall p, r = inr p -> url_path url = Some p)
      (Q := fun p xs r => xs = [XCall (ClientMkdirs c p create_parent) r]).
    + apply xemits_path_for_url.
    + intros p. apply xemits_callx.
    + intros xs e [-> _]. left. eauto.
    + intros p xs1 xs2 r [-> Hp] ->. right. exists c, p.
      split; [now apply Hp | reflexivity].
  - intros xs e ->. left. eauto.
  - intros c xs1 xs2 r -> H. exact H.
Qed.

Lemma mkdir_loop (create_parent : bool) (paths : list string) :
  xemits (for_each paths (mkdir_one create_parent))
    (fun xs r =>
       exists made rest,
         xs = returned_x (mkdirs_of create_parent) made ++ rest
         /\ Forall2 (fun url cp => url_path url = Some (snd cp))
              (take (List.length made) paths) made
         /\ match r with
            | inr _ =>
                rest = [] /\ List.length made = List.length paths
            | inl e =>
                (List.length made < List.length paths)%nat
                /\ (rest = []
                    \/ exists url cp,
                         paths !! List.length made = Some url
                         /\ url_path url = Some (snd cp)
                         /\ rest = [XCall (mkdirs_of create_parent cp)
                                      (inl e)])
            end).
Proof.
  induction paths as [| url paths IH]; simpl.
  - eapply xemits_conseq; [apply xemits_ret |].
    intros xs r [-> ->]. exists [], []. repeat split. constructor.
  - eapply xemits_bind;
      [apply mkdir_one_x | intros ?; exact IH | |].
    + intros xs e H. exists [], xs. split; [reflexivity |].
      split; [constructor |]. simpl. split; [lia |].
      destruct H as [[-> _] | (c & p & Hp & ->)]; [now left |].
      right. exists url, (c, p). now repeat split.
    + intros [] xs1 xs2 r H (made & rest & -> & Hall & Hr).
      destruct H as [[_ (e & He)] | (c & p & Hp & ->)]; [discriminate |].
      exists ((c, p) :: made), rest. split; [reflexivity |].
      split; [simpl; now constructor |].
      destruct r as [e | u]; simpl.
      * destruct Hr as [Hlt Hrest]. split; [lia | exact Hrest].
      * destruct Hr as [-> Hlen]. split; [reflexivity | lia].
Qed.

(** X17: [mkdir] makes the directories in the order of its arguments, each
    with the path of its URL and the [parent] flag of the command line; it
    stops at the first URL that cannot be resolved or whose [mkdirs]
    raises, and raises what that raised: the directories of the URLs
    before it have been made, no call is made for the URLs after it. *)
Theorem mkdir_makes_each_path
    (args : MkdirArgs) (st st' : State) (r : Exn + unit)
    (xs : list EventX) :
  mkdir args st = (st', r) ->
  xlog st' = xlog st ++ xs ->
  exists made rest,
    xs = returned_x (mkdirs_of (mkdir_parent args)) made ++ rest
    /\ Forall2 (fun url cp => url_path url = Some (snd cp))
         (take (List.length made) (mkdir_path args)) made
    /\ match r with
       | inr _ =>
           rest = [] /\ List.length made = List.length (mkdir_path args)
       | inl e =>
           (List.length made < List.length (mkdir_path args))%nat
           /\ (rest = []
               \/ exists url cp,
                    mkdir_path args !! List.length made = Some url
                    /\ url_path url = Some (snd cp)
                    /\ rest = [XCall (mkdirs_of (mkdir_parent args) cp)
                                 (inl e)])
       end.
Proof.
  intros Hrun Hlog.
  destruct (mkdir_loop (mkdir_parent args) (mkdir_path args) _ _ _ Hrun)
    as (xs' & Hlog' & H).
  now rewrite (xlog_delta_unique _ _ _ _ Hlog Hlog').
Qed.

(** *** cat *)

Lemma stdout_writes_app (a b : list EventX) :
  stdout_writes (a ++ b) = stdout_writes a ++ stdout_writes b.
Proof. apply flat_map_app. Qed.

Lemma chunks_read_app (a b : list EventX) :
  chunks_read (a ++ b) = chunks_read a ++ chunks_read b.
Proof. apply flat_map_app. Qed.

Lemma flushes_app (a b : list EventX) :
  flushes (a ++ b) = flushes a ++ flushes b.
Proof. apply flat_map_app. Qed.

(** What the loops of [cat] keep: what was written is what was read, and
    nothing was flushed. *)
Lemma copied_nil :
  stdout_writes [] = chunks_read [] /\ flushes [] = [].
Proof. now split. Qed.

Lemma copied_app (a b : list EventX) :
  stdout_writes a = chunks_read a /\ flushes a = [] ->
  stdout_writes b = chunks_read b /\ flushes b = [] ->
  stdout_writes (a ++ b) = chunks_read (a ++ b) /\ flushes (a ++ b) = [].
Proof.
  intros [A1 A2] [B1 B2].
  now rewrite stdout_writes_app, chunks_read_app, flushes_app, A1, A2, B1, B2.
Qed.

Lemma cat_chunks_x (fuel : nat) (file : FileReader) :
  xemits (cat_chunks fuel file)
    (fun xs _ => stdout_writes xs = chunks_read xs /\ flushes xs = []).
Proof.
  induction fuel as [| fuel IH]; simpl.
  - apply xinv_ret. apply copied_nil.
  - eapply xemits_bind with
      (P := fun xs r => xs = [XCall (ReaderRead file (1024 * 1024)) r])
      (Q := fun chunk xs _ =>
              stdout_writes xs
              = (if bytes_truthy chunk then [chunk] else []) ++ chunks_read xs
              /\ flushes xs = []).
    + apply xemits_callx.
    + intros chunk. destruct (bytes_truthy chunk) eqn:Ht.
      * eapply xemits_bind with
          (P := fun xs r => xs = [XCall (StdoutWrite chunk) r])
          (Q := fun _ xs _ =>
                  stdout_writes xs = chunks_read xs /\ flushes xs = []).
        -- apply xemits_callx.
        -- intros ?. exact IH.
        -- intros xs e ->. now split.
        -- intros [] xs1 xs2 r -> [H1 H2].
           rewrite stdout_writes_app, chunks_read_app, flushes_app, H1, H2.
           now split.
      * eapply xemits_conseq; [apply xemits_ret |].
        intros xs r [-> _]. now split.
    + intros xs e ->. now split.
    + intros chunk xs1 xs2 r -> [H1 H2].
      rewrite stdout_writes_app, chunks_read_app, flushes_app, H1, H2.
      split; [| reflexivity]. simpl.
      now destruct (bytes_truthy chunk).
Qed.

Lemma cat_loops_x (fuel : nat) (srcs : list string) :
  xemits (for_each_fuel srcs (cat_one fuel))
    (fun xs _ => stdout_writes xs = chunks_read xs /\ flushes xs = []).
Proof.
  apply xinv_for_each_fuel; [apply copied_nil | apply copied_app |].
  intros src. unfold cat_one.
  apply xinv_bind;
    [apply copied_app | apply xinv_client_for_url, copied_nil | intros client].
  apply xinv_bind;
    [apply copied_app | apply xinv_path_for_url, copied_nil | intros p].
  apply xinv_for_each_fuel; [apply copied_nil | apply copied_app |].
  intros path. unfold cat_path.
  apply xinv_with;
    [apply copied_nil | apply copied_app | apply xinv_call, copied_nil
    | intros h; apply xinv_call, copied_nil
    | intros file; apply cat_chunks_x].
Qed.

(** The history of a run of [cat]: the loops, then the flush when the
    loops ran to their end. *)
Lemma cat_shape (fuel : nat) (args : CatArgs) :
  xemits (cat fuel args)
    (fun xs r =>
       exists xs0 fl,
         xs = xs0 ++ fl
         /\ stdout_writes xs0 = chunks_read xs0 /\ flushes xs0 = []
         /\ ((fl = [] /\ r <> inr (Some tt))
             \/ (exists rf,
                   fl = [XCall StdoutFlush rf]
                   /\ r = match rf with
                          | inl e => inl e
                          | inr _ => inr (Some tt)
                          end))).
Proof.
  unfold cat, then_.
  eapply xemits_bind with
    (P := fun xs _ => stdout_writes xs = chunks_read xs /\ flushes xs = [])
    (Q := fun (o : option unit) xs r =>
            match o with
            | Some _ =>
                exists rf,
                  xs = [XCall StdoutFlush rf]
                  /\ r = match rf with
                         | inl e => inl e
                         | inr _ => inr (Some tt)
                         end
            | None => xs = [] /\ r = inr None
            end).
  - apply cat_loops_x.
  - intros [[] |].
    + eapply xemits_bind with
        (P := fun xs r => xs = [XCall StdoutFlush r])
        (Q := fun _ xs r => xs = [] /\ r = inr (Some tt)).
      * apply xemits_callx.
      * intros ?. apply xemits_ret.
      * intros xs e ->. now exists (inl e).
      * intros [] xs1 xs2 r -> [-> ->]. now exists (inr tt).
    + apply xemits_ret.
  - intros xs e [H1 H2]. exists xs, []. rewrite app_nil_r.
    repeat split; try assumption. left. split; [reflexivity | discriminate].
  - intros o xs1 xs2 r [H1 H2] H. exists xs1, xs2.
    repeat split; try assumption.
    destruct o as [[] |].
    + right. exact H.
    + destruct H as [-> ->]. left. split; [reflexivity | discriminate].
Qed.

(** X18: in every run of [cat], whatever its outcome, the data handed to
    the standard output is exactly the non-empty chunks that the reads of
    the remote files returned, in the order in which they were read:
    nothing is written that was not read, and no chunk that was read is
    left out. *)
Theorem cat_writes_what_it_reads
    (fuel : nat) (args : CatArgs) (st st' : State)
    (r : Exn + option unit) (xs : list EventX) :
  cat fuel args st = (st', r) ->
  xlog st' = xlog st ++ xs ->
  stdout_writes xs = chunks_read xs.
Proof.
  intros Hrun Hlog.
  destruct (cat_shape fuel args _ _ _ Hrun)
    as (xs' & Hlog' & xs0 & fl & -> & H1 & _ & Hfl).
  rewrite (xlog_delta_unique _ _ _ _ Hlog Hlog').
  rewrite stdout_writes_app, chunks_read_app, H1.
  now destruct Hfl as [[-> _] | (rf & -> & _)].
Qed.

(** X19: [cat] flushes the standard output once, as the last thing it
    does, when all the sources have been read to their end; a run that
    raised while resolving, reading or writing has not flushed at all, and
    the only other way for [cat] to raise is that the flush itself
    raised. *)
Theorem cat_flushes_last
    (fuel : nat) (args : CatArgs) (st st' : State)
    (r : Exn + option unit) (xs : list EventX) :
  cat fuel args st = (st', r) ->
  xlog st' = xlog st ++ xs ->
  (r = inr (Some tt) ->
   exists xs0,
     xs = xs0 ++ [XCall StdoutFlush (inr tt)] /\ flushes xs0 = [])
  /\ (forall e, r = inl e ->
      flushes xs = []
      \/ exists xs0,
           xs = xs0 ++ [XCall StdoutFlush (inl e)] /\ flushes xs0 = []).
Proof.
  intros Hrun Hlog.
  destruct (cat_shape fuel args _ _ _ Hrun)
    as (xs' & Hlog' & xs0 & fl & -> & _ & H2 & Hfl).
  rewrite (xlog_delta_unique _ _ _ _ Hlog Hlog'). split.
  - intros ->. destruct Hfl as [[_ Hne] | (rf & -> & Hr)]; [now destruct Hne |].
    destruct rf as [e | []]; [discriminate |]. now exists xs0.
  - intros e ->. destruct Hfl as [[-> _] | (rf & -> & Hr)].
    + left. now rewrite app_nil_r.
    + destruct rf as [e' | u]; [| discriminate].
      inversion Hr; subst. right. now exists xs0.
Qed.


(** *** The calls of [cat] to the client *)

Lemma callx_keeps_log {R : Type} (op : OpX R) :
  emits (callx op) (fun evs _ => evs = []).
Proof.
  intros st st' r. unfold callx.
  destruct (shell_handler_x R op (fst (world st))) as [w' r'].
  intros H. inversion H; subst. exists []. now rewrite app_nil_r.
Qed.

Section LogInvariants.

Variable P : list Event -> Prop.
Hypothesis P_nil : P [].
Hypothesis P_app : forall a b, P a -> P b -> P (a ++ b).

Lemma inv_bind {A B : Type} (m : M A) (k : A -> M B) :
  emits m (fun evs _ => P evs) ->
  (forall a, emits (k a) (fun evs _ => P evs)) ->
  emits (bind m k) (fun evs _ => P evs).
Proof.
  intros Hm Hk. eapply emits_bind; [exact Hm | exact Hk | auto |].
  intros a evs1 evs2 r H1 H2. now apply P_app.
Qed.

Lemma inv_ret {A : Type} (a : A) : emits (ret a) (fun evs _ => P evs).
Proof.
  eapply emits_conseq; [apply emits_ret |]. intros evs r [H _]. now subst.
Qed.

Lemma inv_callx {R : Type} (op : OpX R) :
  emits (callx op) (fun evs _ => P evs).
Proof.
  eapply emits_conseq; [apply callx_keeps_log |].
  intros evs r H. cbv beta in H. now subst.
Qed.

Lemma inv_then (m k : M (option unit)) :
  emits m (fun evs _ => P evs) -> emits k (fun evs _ => P evs) ->
  emits (then_ m k) (fun evs _ => P evs).
Proof.
  intros Hm Hk. unfold then_. apply inv_bind; [exact Hm | intros r].
  destruct r; [exact Hk | apply inv_ret].
Qed.

Lemma inv_for_each_fuel {A : Type} (l : list A)
    (body : A -> M (option unit)) :
  (forall x, emits (body x) (fun evs _ => P evs)) ->
  emits (for_each_fuel l body) (fun evs _ => P evs).
Proof.
  intros Hbody. induction l as [| x l IH]; simpl.
  - apply inv_ret.
  - apply inv_then; [apply Hbody | exact IH].
Qed.

End LogInvariants.

Lemma cat_chunks_keeps_log (fuel : nat) (file : FileReader) :
  emits (cat_chunks fuel file) (fun evs _ => evs = []).
Proof.
  induction fuel as [| fuel IH]; simpl.
  - now apply inv_ret.
  - apply inv_bind; [now intros ? ? -> -> | now apply inv_callx | intros chunk].
    destruct (bytes_truthy chunk); [| now apply inv_ret].
    apply inv_bind; [now intros ? ? -> -> | now apply inv_callx | intros ?].
    exact IH.
Qed.

(** X20: in every run of [cat], whatever its outcome, every remote file
    that was opened has been closed, also when a read or a write to the
    standard output raised in the middle; and [cat] opens no other file. *)
Theorem cat_closes_what_it_opens
    (fuel : nat) (args : CatArgs) (st st' : State)
    (r : Exn + option unit) (evs : list Event) :
  cat fuel args st = (st', r) ->
  log st' = log st ++ evs ->
  closes_what_it_opens evs
  /\ opened_locals evs = [] /\ opened_writers evs = [].
Proof.
  intros Hrun Hlog.
  set (P := fun evs : list Event =>
              closes_what_it_opens evs
              /\ opened_locals evs = [] /\ opened_writers evs = []).
  assert (Pnil : P []) by (now repeat split).
  assert (Papp : forall a b, P a -> P b -> P (a ++ b)).
  { intros a b (A1 & A2 & A3) (B1 & B2 & B3). split; [now apply closes_app |].
    unfold opened_locals, opened_writers in *.
    now rewrite !flat_map_app, A2, A3, B2, B3. }
  assert (Pquiet : forall evs, forallb no_open_close evs = true -> P evs).
  { intros evs0 Hq. split; [now apply quiet_closes |].
    now destruct (quiet_projections _ Hq) as (_ & _ & I3 & _ & I5 & _). }
  assert (H : emits (cat fuel args) (fun evs _ => P evs)).
  { unfold cat. apply inv_then; [exact Pnil | exact Papp | |].
    - apply inv_for_each_fuel; [exact Pnil | exact Papp |].
      intros src. unfold cat_one.
      apply inv_bind; [exact Papp | | intros client].
      { eapply emits_conseq;
          [apply (only_client_for_url no_open_close) |].
        - intros ev Hev. destruct ev as [R op r0 |]; [| discriminate].
          now destruct op.
        - intros evs0 ? Hq. now apply Pquiet. }
      apply inv_bind; [exact Papp | | intros p].
      { eapply emits_conseq; [apply emits_path_for_url |].
        now intros evs0 r0 [-> _]. }
      apply inv_for_each_fuel; [exact Pnil | exact Papp |].
      intros path. eapply emits_conseq.
      + unfold cat_path.
        apply emits_with_call with
          (B := fun (_ : FileReader) evs (_ : Exn + option unit) => evs = []).
        intros file. apply cat_chunks_keeps_log.
      + intros evs0 r0 [(e & -> & _) | (h & evs_b & rb & rc & -> & -> & _)];
          now repeat split.
    - apply inv_bind; [exact Papp | now apply inv_callx | intros ?].
      now apply inv_ret. }
  destruct (H _ _ _ Hrun) as (evs' & Hlog' & Hc).
  now rewrite (log_delta_unique _ _ _ _ Hlog Hlog').
Qed.


(** *** get *)

Lemma path_for_url_inv (url : string) (st st' : State) r :
  _path_for_url url st = (st', r) ->
  st' = st /\ forall p, r = inr p -> url_path url = Some p.
Proof.
  unfold _path_for_url, bind, py_urlparse, url_path, ret, raise.
  destruct (urlparse url) as [msg | parsed]; intros H; inversion H; subst;
    split; try reflexivity; try discriminate.
  intros p Hp. now inversion Hp.
Qed.

Lemma client_for_url_parses (url : string) (st st' : State) (c : Client) :
  _client_for_url url st = (st', inr c) ->
  exists parsed, urlparse url = inr parsed.
Proof.
  unfold _client_for_url, bind, py_urlparse, raise.
  destruct (urlparse url) as [msg | parsed]; [discriminate | eauto].
Qed.

Lemma path_for_url_ok (url : string) (parsed : ParseResult) (st : State) :
  urlparse url = inr parsed ->
  _path_for_url url st = (st, inr (path parsed))
  /\ url_path url = Some (path parsed).
Proof.
  intros Hu. unfold _path_for_url, bind, py_urlparse, url_path, ret.
  now rewrite Hu.
Qed.

(** The first loop of [get] constructs clients and does nothing else; when
    it returns, it has one client and one path for each source. *)
Lemma get_resolve_inv (srcs : list string) (st st' : State) r :
  get_resolve srcs st = (st', r) ->
  xlog st' = xlog st
  /\ (exists evs, log st' = log st ++ evs /\ forallb init_event evs = true)
  /\ forall paths,
       r = inr paths ->
       Forall2 (fun url cp => url_path url = Some (snd cp)) srcs paths.
Proof.
  revert st st' r. induction srcs as [| url srcs IH]; intros st st' r; simpl.
  - intros H. inversion H; subst. split; [reflexivity |].
    split; [exists []; now rewrite app_nil_r |].
    intros paths Hp. inversion Hp. constructor.
  - intros H.
    apply bind_inv in H as [(e & H & ->) | (st1 & ys & H & Hrest)].
    + apply bind_inv in H as [(e' & H & _) | (st2 & c & H & H')].
      * split; [now apply client_for_url_keeps_xlog in H |].
        split; [now apply client_for_url_inv in H as [H _] | discriminate].
      * apply bind_inv in H' as [(e' & H' & _) | (st3 & p & H' & H'')];
          [| discriminate].
        apply path_for_url_inv in H' as [-> _].
        split; [now apply client_for_url_keeps_xlog in H |].
        split; [now apply client_for_url_inv in H as [H _] | discriminate].
    + apply bind_inv in H as [(e' & H & ?) | (st2 & c & H & H')];
        [discriminate |].
      apply bind_inv in H' as [(e' & H' & ?) | (st3 & p & H' & H'')];
        [discriminate |].
      apply path_for_url_inv in H' as [-> Hp]. specialize (Hp p eq_refl).
      inversion H''; subst; clear H''.
      pose proof (client_for_url_keeps_xlog _ _ _ _ H) as Hx1.
      apply client_for_url_inv in H as [(evs1 & Hl1 & Hi1) _].
      apply bind_inv in Hrest as [(e & Hrest & ->) | (st4 & rest & Hrest & H')].
      * destruct (IH _ _ _ Hrest) as (Hx2 & (evs2 & Hl2 & Hi2) & _).
        split; [congruence |]. split; [| discriminate].
        exists (evs1 ++ evs2). rewrite Hl2, Hl1, app_assoc, forallb_app.
        now rewrite Hi1, Hi2.
      * inversion H'; subst; clear H'.
        destruct (IH _ _ _ Hrest) as (Hx2 & (evs2 & Hl2 & Hi2) & Hall).
        split; [congruence |]. split.
        -- exists (evs1 ++ evs2). rewrite Hl2, Hl1, app_assoc, forallb_app.
           now rewrite Hi1, Hi2.
        -- intros paths Hpaths. inversion Hpaths; subst paths. simpl.
           constructor; [exact Hp | now apply Hall].
Qed.

(** X21: with more than one source and a destination that is not a
    directory, [get] raises [ValueError] as soon as the sources are
    resolved and the destination is tested: the only calls it has made are
    constructions of clients, so that nothing was read and nothing was
    written. *)
Theorem get_many_sources_need_directory
    (args : GetArgs) (st st1 : State) (paths : list (Client * string)) :
  get_resolve (get_src args) st = (st1, inr paths) ->
  shell_isdir (fst (world st1)) (get_localdst args) = false ->
  (1 < List.length (get_src args))%nat ->
  get args st
  = (mkState
       (fst (world st1), xlog st1 ++ [XIsdir (get_localdst args) false])
       (log st1) (cache st1) (next_client st1),
     inl (ValueError
            "Destination must be directory when copying multiple files"))
  /\ xlog st1 = xlog st
  /\ exists evs, log st1 = log st ++ evs /\ forallb init_event evs = true.
Proof.
  intros Hres Hdir Hlen.
  destruct (get_resolve_inv _ _ _ _ Hres) as (Hx & Hl & Hall).
  specialize (Hall paths eq_refl). apply Forall2_length in Hall.
  split; [| now split].
  unfold get. rewrite (bind_ok _ _ _ _ _ Hres).
  unfold bind at 1. unfold path_isdir. rewrite Hdir.
  assert (Hn : (1 <? List.length paths)%nat = true)
    by (apply Nat.ltb_lt; lia).
  now rewrite Hn.
Qed.

(** X22: with one source and a destination that is not a directory, [get]
    is the download of the path of that source onto the destination path
    itself, with the [force] and [preserve] of the command line; so that,
    without [force], it refuses a destination that exists before anything
    is read. *)
Theorem get_single_source
    (args : GetArgs) (url : string) (st st1 : State) (c : Client) :
  get_src args = [url] ->
  _client_for_url url st = (st1, inr c) ->
  shell_isdir (fst (world st1)) (get_localdst args) = false ->
  exists p,
    url_path url = Some p
    /\ get args st
       = _download_file c p (get_localdst args) (get_force args)
           (get_preserve args)
           (mkState
              (fst (world st1),
               xlog st1 ++ [XIsdir (get_localdst args) false])
              (log st1) (cache st1) (next_client st1))
    /\ (get_force args = false ->
        shell_exists (fst (world st1)) (get_localdst args) = true ->
        get args st
        = (mkState
             (fst (world st1),
              xlog st1 ++ [XIsdir (get_localdst args) false])
             (log st1 ++ [EvExists (get_localdst args) true])
             (cache st1) (next_client st1),
           inl (FileExistsError
                  (get_localdst args
                   +:+ " already exists, use --force to overwrite")))).
Proof.
  intros Hsrc Hc Hdir.
  destruct (client_for_url_parses _ _ _ _ Hc) as (parsed & Hu).
  destruct (path_for_url_ok url parsed st1 Hu) as [Hp Hpath].
  exists (path parsed). split; [exact Hpath |].
  assert (Hres : get_resolve (get_src args) st
                 = (st1, inr [(c, path parsed)])).
  { rewrite Hsrc. unfold get_resolve. simpl.
    rewrite (bind_ok _ _ _ st1 [(c, path parsed)]); [reflexivity |].
    rewrite (bind_ok _ _ _ _ _ Hc), (bind_ok _ _ _ _ _ Hp). reflexivity. }
  assert (Hget : get args st
                 = _download_file c (path parsed) (get_localdst args)
                     (get_force args) (get_preserve args)
                     (mkState
                        (fst (world st1),
                         xlog st1 ++ [XIsdir (get_localdst args) false])
                        (log st1) (cache st1) (next_client st1))).
  { unfold get. rewrite (bind_ok _ _ _ _ _ Hres).
    unfold bind at 1. unfold path_isdir. rewrite Hdir. reflexivity. }
  split; [exact Hget |].
  intros Hforce Hex. rewrite Hget, Hforce.
  unfold _download_file, download_guard, bind, path_exists. simpl.
  now rewrite Hex.
Qed.

Lemma all_equal (dst : string) (l : list string) :
  forallb (String.eqb dst) l = true -> Forall (fun q => q = dst) l.
Proof.
  induction l as [| q l IH]; [constructor |].
  simpl. intros H. apply andb_prop in H as [Hq Hl].
  constructor; [symmetry; now apply String.eqb_eq | now apply IH].
Qed.

Lemma local_targets_app (a b : list Event) :
  local_targets (a ++ b) = local_targets a ++ local_targets b.
Proof. apply flat_map_app. Qed.

Lemma local_targets_only (dst : string) (evs : list Event) :
  forallb (fun ev => forallb (String.eqb dst) (local_targets [ev])) evs
  = true ->
  Forall (fun q => q = dst) (local_targets evs).
Proof.
  induction evs as [| ev evs IH]; [constructor |].
  cbn [forallb]. intros H. apply andb_prop in H as [H1 H2].
  change (ev :: evs) with ([ev] ++ evs). rewrite local_targets_app.
  apply Forall_app. split; [now apply all_equal | now apply IH].
Qed.

Lemma download_targets (client : Client) (remote_src local_dst : string)
    (force preserve : bool) :
  emits (_download_file client remote_src local_dst force preserve)
    (fun evs _ => Forall (fun q => q = local_dst) (local_targets evs)).
Proof.
  eapply emits_conseq; [| intros evs r H; apply local_targets_only, H].
  assert (Hrefl : String.eqb local_dst local_dst && true = true)
    by now rewrite String.eqb_refl.
  unfold _download_file, download_guard, download_copy, download_preserve.
  apply only_bind.
  - apply only_bind.
    + destruct force; simpl; [apply only_ret |].
      intros s s' r' H. unfold path_exists in H. inversion H; subst.
      eexists. split; [reflexivity |]. simpl. now rewrite String.eqb_refl.
    + intros b. destruct b; [apply only_raise | apply only_ret].
  - intros _. apply only_bind.
    + apply only_with;
        [now apply only_call | intros h; now apply only_call |].
      intros remote_file.
      apply only_with;
        [apply only_call; intros; exact Hrefl
        | intros h; now apply only_call |].
      intros local_file. apply only_bind; [now apply only_call |].
      intros chunks. apply only_for_stream. intros chunk.
      now apply only_call.
    + intros _. destruct preserve; [| apply only_ret].
      apply only_bind; [now apply only_call | intros status].
      apply only_bind; [apply only_of_result | intros atime].
      apply only_bind; [apply only_of_result | intros mtime].
      apply only_bind; [apply only_call; intros; exact Hrefl | intros _].
      apply only_call; intros; exact Hrefl.
Qed.

(** X23: the download that [get] submits for a source when the destination
    is a directory touches one local path only: the destination, then a
    slash unless the destination is empty or ends with one, then the
    basename of the remote path, which holds no slash.  Every test, every
    file opened for writing and every change of times and mode is on that
    path. *)
Theorem get_job_directly_below
    (args : GetArgs) (job : Client * string) (st st' : State)
    (r : Exn + unit) (evs : list Event) :
  get_job args job st = (st', r) ->
  log st' = log st ++ evs ->
  PyStr.count "/" (PosixPath.basename (snd job)) = 0%nat
  /\ Forall
       (fun q =>
          q = get_localdst args +:+ join_separator (get_localdst args)
              +:+ PosixPath.basename (snd job))
       (local_targets evs).
Proof.
  intros Hrun Hlog. split; [apply basename_no_slash |].
  unfold get_job in Hrun.
  destruct (download_targets _ _ _ _ _ _ _ _ Hrun) as (evs' & Hlog' & H).
  rewrite (log_delta_unique _ _ _ _ Hlog Hlog').
  now rewrite <- (join_no_slash _ _ (basename_no_slash (snd job))).
Qed.


(** *** The fuel of [cat]

    A run of [cat] that completed did not use up its fuel in any of its
    loops: with more fuel it is the same run. *)

Lemma cat_chunks_more_fuel (fuel fuel' : nat) (file : FileReader)
    (st st' : State) :
  cat_chunks fuel file st = (st', inr (Some tt)) ->
  (fuel <= fuel')%nat ->
  cat_chunks fuel' file st = (st', inr (Some tt)).
Proof.
  revert fuel' st. induction fuel as [| fuel IH]; intros fuel' st;
    [discriminate |].
  intros H Hle. destruct fuel' as [| fuel']; [lia |].
  simpl in *. unfold bind in *.
  destruct (callx (ReaderRead file (1024 * 1024)) st) as [st1 [e | chunk]];
    [exact H |].
  destruct (bytes_truthy chunk); [| exact H].
  destruct (callx (StdoutWrite chunk) st1) as [st2 [e | u]]; [exact H |].
  apply IH; [exact H | lia].
Qed.

Lemma for_each_fuel_more {A : Type} (l : list A)
    (body body' : A -> M (option unit)) (st st' : State) :
  (forall x s s',
     body x s = (s', inr (Some tt)) -> body' x s = (s', inr (Some tt))) ->
  for_each_fuel l body st = (st', inr (Some tt)) ->
  for_each_fuel l body' st = (st', inr (Some tt)).
Proof.
  intros Hbody. revert st. induction l as [| x l IH]; intros st;
    [exact id |].
  simpl. unfold then_, bind.
  destruct (body x st) as [s1 [e | [[] |]]] eqn:Hx; try discriminate.
  rewrite (Hbody _ _ _ Hx). apply IH.
Qed.

Lemma cat_more_fuel (fuel fuel' : nat) (args : CatArgs) (st st' : State) :
  cat fuel args st = (st', inr (Some tt)) ->
  (fuel <= fuel')%nat ->
  cat fuel' args st = (st', inr (Some tt)).
Proof.
  intros H Hle. unfold cat, then_ in *. unfold bind at 1 in H.
  unfold bind at 1.
  destruct (for_each_fuel (cat_src args) (cat_one fuel) st)
    as [s1 [e | [[] |]]] eqn:Hloop; try discriminate.
  rewrite (for_each_fuel_more _ (cat_one fuel) (cat_one fuel') st s1);
    [exact H | | exact Hloop].
  clear -Hle. intros src s s'. unfold cat_one, bind.
  destruct (_client_for_url src s) as [s1 [e | client]]; [discriminate |].
  destruct (_path_for_url src s1) as [s2 [e | p]]; [discriminate |].
  apply for_each_fuel_more. clear -Hle. intros path s s'.
  unfold cat_path, with_, bind, try_.
  destruct (call (ClientRead client path) s) as [s1 [e | file]];
    [discriminate |].
  destruct (cat_chunks fuel file s1) as [s2 rb] eqn:Hb.
  destruct (call (ReaderClose file) s2) as [s3 [e | u]] eqn:Hc;
    [discriminate |].
  destruct rb as [e | [[] |]]; try discriminate.
  rewrite (cat_chunks_more_fuel _ fuel' _ _ _ Hb Hle), Hc. exact id.
Qed.


End ShellProps.

(** ** The permissions that [chmod] can set *)

Section MoreChmodProps.

Context {env : Collaborators}.

Lemma digit_range (a : ascii) :
  Re.in_range "0" "7" a = true -> 0 <= digit_value a <= 7.
Proof.
  unfold Re.in_range, digit_value. intros H.
  apply andb_prop in H as [H1 H2].
  apply N.leb_le in H1, H2.
  change (N_of_ascii "0") with 48%N in H1.
  change (N_of_ascii "7") with 55%N in H2. lia.
Qed.

Lemma octal_range (s : string) :
  octalmode_ok s = true -> 0 <= octal_value s <= 1023.
Proof.
  intros H.
  destruct s as [| a [| b [| c [| d [| e s]]]]]; simpl in H;
    try discriminate.
  - apply andb_prop in H as [H Hc]. apply andb_prop in H as [Ha Hb].
    apply digit_range in Ha, Hb, Hc. simpl. lia.
  - apply andb_prop in H as [H Hd]. apply andb_prop in H as [H Hc].
    apply andb_prop in H as [Ha Hb].
    apply Ascii.eqb_eq in Ha. subst a.
    apply digit_range in Hb, Hc, Hd. simpl.
    change (digit_value "1") with 1. lia.
Qed.

(** X24: every permission that [chmod] passes to [set_permission], in any
    run, recursive or not, lies between [0] and [0o1777]: the mode can set
    the read, write and execute bits and the sticky bit, and never the
    set-user-ID or set-group-ID bit. *)
Theorem chmod_permission_range
    (args : ChmodArgs) (st st' : State) (r : Exn + unit)
    (evs : list Event) :
  chmod args st = (st', r) ->
  log st' = log st ++ evs ->
  Forall (fun x => 0 <= snd x <= 1023) (set_permission_calls evs).
Proof.
  intros Hrun Hlog. unfold chmod in Hrun.
  rewrite fullmatch_octalmode in Hrun.
  destruct (octalmode_ok (chmod_octalmode args)) eqn:Hok; simpl in Hrun.
  - rewrite (int_base8_octal _ Hok) in Hrun.
    destruct (chmod_paths_only _ _ _ _ _ _ Hrun) as (evs' & Hlog' & H).
    rewrite (log_delta_unique _ _ _ _ Hlog Hlog').
    apply permission_is_calls in H.
    eapply Forall_impl; [exact H |].
    intros x Hx. cbv beta in Hx. rewrite Hx. now apply octal_range.
  - inversion Hrun; subst. rewrite (log_delta_nil _ _ Hlog). constructor.
Qed.

End MoreChmodProps.

(** ** The further properties on the example worlds *)

Section MoreExamples.

#[local] Existing Instance example_env.

Lemma client_for_url_needs_scheme_witness :
  @_client_for_url faulty_env "//host/x" faulty_state
  = (faulty_state,
     inl (ValueError "Cannot provide host or port without scheme: host")).
Proof.
  apply (@client_for_url_needs_scheme faulty_env "//host/x"
           (mkParseResult EmptyString (Some "host") (inr None) "/x")
           faulty_state).
  - reflexivity.
  - reflexivity.
  - left. reflexivity.
Defined.

Lemma client_for_url_invalid_port_witness :
  @_client_for_url faulty_env "hdfs://a:bad/x" faulty_state
  = (faulty_state,
     inl (ValueError "Port could not be cast to integer value as 'bad'")).
Proof.
  apply (@client_for_url_invalid_port faulty_env "hdfs://a:bad/x"
           (mkParseResult "hdfs" (Some "a")
              (inl "Port could not be cast to integer value as 'bad'") "/x")).
  - reflexivity.
  - reflexivity.
  - left. reflexivity.
Defined.


Lemma client_cache_stays_sound_witness :
  cache_sound (fst (_client_for_url "hdfs://A:8020/x" example_state)).
Proof.
  apply (proj2 client_cache_stays_sound "hdfs://A:8020/x" example_state
           (fst (_client_for_url "hdfs://A:8020/x" example_state))
           (snd (_client_for_url "hdfs://A:8020/x" example_state))).
  - apply (proj1 client_cache_stays_sound). reflexivity.
  - apply surjective_pairing.
Defined.

Lemma distinct_endpoints_distinct_clients_witness :
  _client_for_url "hdfs://A/y"
    (fst (_client_for_url "hdfs://A:8020/x" example_state))
  = (fst (_client_for_url "hdfs://A/y"
            (fst (_client_for_url "hdfs://A:8020/x" example_state))),
     inr 1%nat)
  /\ 0%nat <> 1%nat.
Proof.
  assert (H2 : _client_for_url "hdfs://A/y"
                 (fst (_client_for_url "hdfs://A:8020/x" example_state))
               = (fst (_client_for_url "hdfs://A/y"
                         (fst (_client_for_url "hdfs://A:8020/x"
                                 example_state))),
                  inr 1%nat))
    by (vm_compute; reflexivity).
  split; [exact H2 |].
  apply (distinct_endpoints_distinct_clients
           "hdfs://A:8020/x" "hdfs://A/y"
           (mkParseResult "hdfs" (Some "a") (inr (Some 8020)) "/x")
           (mkParseResult "hdfs" (Some "a") (inr None) "/y")
           (Some 8020) example_state
           (fst (_client_for_url "hdfs://A:8020/x" example_state))
           (fst (_client_for_url "hdfs://A/y"
                   (fst (_client_for_url "hdfs://A:8020/x" example_state))))).
  - now apply empty_cache_sound.
  - reflexivity.
  - reflexivity.
  - reflexivity.
  - reflexivity.
  - left. split; [reflexivity |]. exists None.
    split; [reflexivity | discriminate].
  - vm_compute. reflexivity.
  - exact H2.
Defined.

Lemma chown_owner_group_cases_witness :
  chown_owner_group "alice:" example_state
  = (example_state, inr (Some "alice", Some EmptyString))
  /\ chown_owner_group "alice" example_state
     = (example_state, inr (Some "alice", None)).
Proof.
  split.
  - apply (proj1 (proj2 chown_owner_group_cases) "alice" EmptyString
             example_state); reflexivity.
  - apply (proj1 chown_owner_group_cases "alice" example_state).
    reflexivity.
Defined.

Lemma chmod_flat_sets_each_path_witness :
  forallb not_listing
    (log (fst (chmod (mkChmodArgs false "755" ["/x"; "hdfs://A/y"])
                 example_state)))
  = true
  /\ (@inr Exn unit tt = inr tt ->
      exists permission resolved,
        int_base8 "755" = Some permission
        /\ Forall2 (fun url x => url_path url = Some (snd x))
             ["/x"; "hdfs://A/y"] resolved
        /\ set_permission_calls
             (log (fst (chmod (mkChmodArgs false "755" ["/x"; "hdfs://A/y"])
                          example_state)))
           = map (fun x => (fst x, snd x, permission)) resolved).
Proof.
  apply (chmod_flat_sets_each_path
           (mkChmodArgs false "755" ["/x"; "hdfs://A/y"]) example_state
           (fst (chmod (mkChmodArgs false "755" ["/x"; "hdfs://A/y"])
                   example_state))
           (inr tt)).
  - reflexivity.
  - vm_compute. reflexivity.
  - reflexivity.
Defined.

Lemma chown_applies_owner_witness :
  exists owner group,
    chown_owner_group "bob:staff" example_state
    = (example_state, inr (owner, group))
    /\ set_owner_calls
         (log (fst (chown (mkChownArgs true "bob:staff" ["/dir"])
                      example_state)))
       = owner_on_listings owner group
           (log (fst (chown (mkChownArgs true "bob:staff" ["/dir"])
                        example_state)))
    /\ Forall2 (fun url x =>
                  match x with
                  | (_, p, recursive, _) =>
                      url_path url = Some p /\ recursive = true
                  end) ["/dir"]
         (listings
            (log (fst (chown (mkChownArgs true "bob:staff" ["/dir"])
                         example_state)))).
Proof.
  apply (chown_applies_owner (mkChownArgs true "bob:staff" ["/dir"])
           example_state
           (fst (chown (mkChownArgs true "bob:staff" ["/dir"])
                   example_state))).
  - vm_compute. reflexivity.
  - reflexivity.
Defined.

Lemma mv_many_sources_need_directory_witness :
  rename_calls
    (log (fst (mv (mkMvArgs ["/dir/a"; "/dir/b"] "/x") example_state))) = []
  /\ exists e,
       snd (mv (mkMvArgs ["/dir/a"; "/dir/b"] "/x") example_state) = inl e
       /\ (Forall (fun u => exists parsed, urlparse u = inr parsed)
             ["/dir/a"; "/dir/b"] ->
           e = ValueError
                 "destination must be a directory if multiple sources are provided").
Proof.
  apply (mv_many_sources_need_directory
           (mkMvArgs ["/dir/a"; "/dir/b"] "/x") example_state
           (fst (mv (mkMvArgs ["/dir/a"; "/dir/b"] "/x") example_state))
           (snd (mv (mkMvArgs ["/dir/a"; "/dir/b"] "/x") example_state))
           (log (fst (mv (mkMvArgs ["/dir/a"; "/dir/b"] "/x")
                        example_state)))
           0%nat "/x" (inr (example_status example_world "/x"))).
  - apply surjective_pairing.
  - reflexivity.
  - vm_compute. reflexivity.
  - reflexivity.
  - simpl. lia.
Defined.

Lemma mv_onto_path_witness :
  (List.length ["/x"] <= 1)%nat
  /\ exists paths,
       Forall2 (fun url p => mv_src_path url = Some p) ["/x"] paths
       /\ rename_calls
            (log (fst (mv (mkMvArgs ["/x"] "/new") example_state)))
          = map (fun p => (0%nat, p, "/new")) paths.
Proof.
  apply (mv_onto_path (mkMvArgs ["/x"] "/new") example_state
           (fst (mv (mkMvArgs ["/x"] "/new") example_state))
           (log (fst (mv (mkMvArgs ["/x"] "/new") example_state)))
           0%nat "/new" (inl (FileNotFoundError "/new"))).
  - vm_compute. reflexivity.
  - reflexivity.
  - vm_compute. reflexivity.
  - reflexivity.
Defined.

Lemma mv_probe_error_propagates_witness :
  snd (@mv faulty_env (mkMvArgs ["/x"] "/dir") faulty_state)
  = inl (OSError "Connection refused")
  /\ rename_calls
       (log (fst (@mv faulty_env (mkMvArgs ["/x"] "/dir") faulty_state)))
     = [].
Proof.
  apply (@mv_probe_error_propagates faulty_env
           (mkMvArgs ["/x"] "/dir") faulty_state
           (fst (@mv faulty_env (mkMvArgs ["/x"] "/dir") faulty_state))
           (snd (@mv faulty_env (mkMvArgs ["/x"] "/dir") faulty_state))
           (log (fst (@mv faulty_env (mkMvArgs ["/x"] "/dir") faulty_state)))
           0%nat "/dir" (OSError "Connection refused")).
  - apply surjective_pairing.
  - reflexivity.
  - vm_compute. reflexivity.
  - discriminate.
Defined.

Lemma download_closes_what_it_opens_witness :
  closes_what_it_opens
    (log (fst (_download_file 0%nat "/x" "/tmp/new" false true
                 example_state))).
Proof.
  apply (download_closes_what_it_opens 0%nat "/x" "/tmp/new" false true
           example_state
           (fst (_download_file 0%nat "/x" "/tmp/new" false true
                   example_state))
           (snd (_download_file 0%nat "/x" "/tmp/new" false true
                   example_state))).
  - apply surjective_pairing.
  - reflexivity.
Defined.

Lemma upload_closes_what_it_opens_witness :
  closes_what_it_opens
    (log (fst (_upload_file 0%nat "/tmp/x" "/new" false false
                 example_state))).
Proof.
  apply (upload_closes_what_it_opens 0%nat "/tmp/x" "/new" false false
           example_state
           (fst (_upload_file 0%nat "/tmp/x" "/new" false false
                   example_state))
           (snd (_upload_file 0%nat "/tmp/x" "/new" false false
                   example_state))).
  - apply surjective_pairing.
  - reflexivity.
Defined.

Lemma download_copies_bytes_witness :
  local_writes
    (log (fst (_download_file 0%nat "/x" "/tmp/new" false true
                 example_state)))
  = streamed
      (log (fst (_download_file 0%nat "/x" "/tmp/new" false true
                   example_state)))
  /\ exists len,
       stream_ranges
         (log (fst (_download_file 0%nat "/x" "/tmp/new" false true
                      example_state)))
       = [(0, len, len)].
Proof.
  apply (download_copies_bytes 0%nat "/x" "/tmp/new" false true
           example_state
           (fst (_download_file 0%nat "/x" "/tmp/new" false true
                   example_state))).
  - vm_compute. reflexivity.
  - reflexivity.
Defined.

Lemma download_event_kinds_witness :
  forallb (download_event false)
    (log (fst (_download_file 0%nat "/x" "/tmp/x" true false
                 example_state)))
  = true
  /\ (true = true ->
      forallb (fun ev => negb (is_exists_test ev))
        (log (fst (_download_file 0%nat "/x" "/tmp/x" true false
                     example_state)))
      = true).
Proof.
  apply (download_event_kinds 0%nat "/x" "/tmp/x" true false example_state
           (fst (_download_file 0%nat "/x" "/tmp/x" true false
                   example_state))
           (snd (_download_file 0%nat "/x" "/tmp/x" true false
                   example_state))).
  - apply surjective_pairing.
  - reflexivity.
Defined.

Lemma chmod_permission_range_witness :
  Forall (fun x => 0 <= snd x <= 1023)
    (set_permission_calls
       (log (fst (chmod (mkChmodArgs true "1777" ["/dir"]) example_state)))).
Proof.
  apply (chmod_permission_range (mkChmodArgs true "1777" ["/dir"])
           example_state
           (fst (chmod (mkChmodArgs true "1777" ["/dir"]) example_state))
           (snd (chmod (mkChmodArgs true "1777" ["/dir"]) example_state))).
  - apply surjective_pairing.
  - reflexivity.
Defined.

End MoreExamples.

Section ShellExamples.

#[local] Existing Instance example_shell.

#[local] Existing Instance shell_env.

#[local] Existing Instance example_pool.

Lemma mkdir_makes_each_path_witness :
  exists made rest,
    xlog (fst (mkdir (mkMkdirArgs true ["/new"; "/x"; "/z"])
                 example_shell_state))
    = returned_x (mkdirs_of true) made ++ rest
    /\ Forall2 (fun url cp => url_path url = Some (snd cp))
         (take (List.length made) ["/new"; "/x"; "/z"]) made
    /\ (List.length made < 3)%nat
    /\ (rest = []
        \/ exists url cp,
             ["/new"; "/x"; "/z"] !! List.length made = Some url
             /\ url_path url = Some (snd cp)
             /\ rest = [XCall (mkdirs_of true cp)
                          (inl (FileExistsError "/x"))]).
Proof.
  apply (mkdir_makes_each_path (mkMkdirArgs true ["/new"; "/x"; "/z"])
           example_shell_state
           (fst (mkdir (mkMkdirArgs true ["/new"; "/x"; "/z"])
                   example_shell_state))
           (inl (FileExistsError "/x"))).
  - vm_compute. reflexivity.
  - reflexivity.
Defined.

Lemma cat_writes_what_it_reads_witness :
  stdout_writes
    (xlog (fst (cat 3 (mkCatArgs ["/x"; "hdfs://A/y"]) example_shell_state)))
  = chunks_read
      (xlog (fst (cat 3 (mkCatArgs ["/x"; "hdfs://A/y"])
                    example_shell_state))).
Proof.
  apply (cat_writes_what_it_reads 3 (mkCatArgs ["/x"; "hdfs://A/y"])
           example_shell_state
           (fst (cat 3 (mkCatArgs ["/x"; "hdfs://A/y"]) example_shell_state))
           (snd (cat 3 (mkCatArgs ["/x"; "hdfs://A/y"])
                   example_shell_state))).
  - apply surjective_pairing.
  - reflexivity.
Defined.

Lemma cat_flushes_last_witness :
  exists xs0,
    xlog (fst (cat 3 (mkCatArgs ["/x"; "hdfs://A/y"]) example_shell_state))
    = xs0 ++ [XCall StdoutFlush (inr tt)]
    /\ flushes xs0 = [].
Proof.
  apply (cat_flushes_last 3 (mkCatArgs ["/x"; "hdfs://A/y"])
           example_shell_state
           (fst (cat 3 (mkCatArgs ["/x"; "hdfs://A/y"]) example_shell_state))
           (inr (Some tt))).
  - vm_compute. reflexivity.
  - reflexivity.
  - reflexivity.
Defined.

Lemma cat_closes_what_it_opens_witness :
  closes_what_it_opens
    (log (fst (cat 3 (mkCatArgs ["/x"; "/nope"]) example_shell_state)))
  /\ opened_locals
       (log (fst (cat 3 (mkCatArgs ["/x"; "/nope"]) example_shell_state)))
     = []
  /\ opened_writers
       (log (fst (cat 3 (mkCatArgs ["/x"; "/nope"]) example_shell_state)))
     = [].
Proof.
  apply (cat_closes_what_it_opens 3 (mkCatArgs ["/x"; "/nope"])
           example_shell_state
           (fst (cat 3 (mkCatArgs ["/x"; "/nope"]) example_shell_state))
           (snd (cat 3 (mkCatArgs ["/x"; "/nope"]) example_shell_state))).
  - apply surjective_pairing.
  - reflexivity.
Defined.

Lemma get_many_sources_need_directory_witness :
  snd (get (mkGetArgs false false 2 ["/x"; "/y"] "/tmp/out")
         example_shell_state)
  = inl (ValueError
           "Destination must be directory when copying multiple files")
  /\ exists evs,
       log (fst (get_resolve ["/x"; "/y"] example_shell_state))
       = log example_shell_state ++ evs
       /\ forallb init_event evs = true.
Proof.
  destruct (get_many_sources_need_directory
              (mkGetArgs false false 2 ["/x"; "/y"] "/tmp/out")
              example_shell_state
              (fst (get_resolve ["/x"; "/y"] example_shell_state))
              [(0%nat, "/x"); (0%nat, "/y")])
    as (Hget & _ & Hinit).
  - vm_compute. reflexivity.
  - reflexivity.
  - simpl. lia.
  - split; [now rewrite Hget | exact Hinit].
Defined.

Lemma get_single_source_witness :
  exists p,
    url_path "/x" = Some p
    /\ snd (get (mkGetArgs false false 1 ["/x"] "/tmp/x") example_shell_state)
       = inl (FileExistsError
                "/tmp/x already exists, use --force to overwrite").
Proof.
  destruct (get_single_source
              (mkGetArgs false false 1 ["/x"] "/tmp/x") "/x"
              example_shell_state
              (fst (_client_for_url "/x" example_shell_state)) 0%nat)
    as (p & Hp & _ & Hrefuse).
  - reflexivity.
  - vm_compute. reflexivity.
  - reflexivity.
  - exists p. split; [exact Hp |].
    now rewrite (Hrefuse eq_refl eq_refl).
Defined.

Lemma get_job_directly_below_witness :
  PyStr.count "/" (PosixPath.basename "/dir/a") = 0%nat
  /\ Forall (fun q => q = "/tmp/a")
       (local_targets
          (log (fst (get_job (mkGetArgs true false 2 ["/dir/a"] "/tmp")
                       (0%nat, "/dir/a") example_shell_state)))).
Proof.
  apply (get_job_directly_below (mkGetArgs true false 2 ["/dir/a"] "/tmp")
           (0%nat, "/dir/a") example_shell_state
           (fst (get_job (mkGetArgs true false 2 ["/dir/a"] "/tmp")
                   (0%nat, "/dir/a") example_shell_state))
           (snd (get_job (mkGetArgs true false 2 ["/dir/a"] "/tmp")
                   (0%nat, "/dir/a") example_shell_state))).
  - apply surjective_pairing.
  - reflexivity.
Defined.

End ShellExamples.
